(** * Scale job lifecycle and node resources

    A shallow embedding of the job lifecycle manager of
    [scale/job/models.py] and of the resource vector of
    [scale/node/resources/node_resources.py], with the properties the
    specification states about them, followed by the error cache of
    [scale/error/models.py], the cluster ids of job executions and the
    database updater of [scale/scheduler/database/updater.py].

    Conventions of the embedding:
    - database tables are finite maps or row lists held in one [DB] record;
      a manager method is a computation in a state-and-exception monad over
      the database and the object store (an exception keeps the writes made
      before it, except that [transaction.atomic] undoes those to the
      database);
    - model instances live in a store of objects and are passed by
      reference, so a method that mutates the instances it is given is seen
      by every holder of the reference;
    - [timezone.now()] is the extra argument [now];
    - in the job manager and in the first model of the resource vector a
      Python float is an exact rational ([Q]) and a vector is the map from
      its names to its values; the second model of the resource vector
      ([HeapNodeResources]) keeps the resource objects in a heap, where two
      vectors may hold the same object, with binary64 values (primitive
      floats). *)

From Stdlib Require Import ZArith QArith Qround Lia Ascii DecimalString PrimFloat.
From stdpp Require Import gmap strings list fin_maps sorting.

Open Scope string_scope.
Open Scope Z_scope.

Set Warnings "-clear-no-such-hyp".

(** ** Exceptions and the manager monad *)

Inductive exn : Type :=
| Exception (msg : string)
| DoesNotExist
| MultipleObjectsReturned
| KeyError
| AttributeError
| RelatedObjectDoesNotExist
| InvalidData
| ScaleLogicBug
| TypeError.

#[export] Instance exn_eq_dec : EqDecision exn.
Proof. solve_decision. Defined.

Inductive result (A : Type) : Type :=
| Ok (a : A)
| Raise (e : exn).
Arguments Ok {A} a.
Arguments Raise {A} e.

Definition is_raise {A} (r : result A) : Prop :=
  match r with
  | Ok _ => False
  | Raise _ => True
  end.

(** An argument at a call site: passed, or left out by the caller. *)
Inductive argument (A : Type) : Type :=
| passed (a : A)
| left_out.
Arguments passed {A} a.
Arguments left_out {A}.

(** Python truthiness of the values the managers test with [if x] / [not x]. *)
Class Truthy (A : Type) := truthy : A → bool.
#[export] Instance truthy_int : Truthy Z := λ n, negb (n =? 0).
#[export] Instance truthy_list {A} : Truthy (list A) :=
  λ l, match l with [] => false | _ => true end.
#[export] Instance truthy_option {A} `{Truthy A} : Truthy (option A) :=
  λ o, match o with None => false | Some a => truthy a end.

(** Timestamps ([datetime.datetime]) are totally ordered instants. *)
Definition Time := Z.

(** A JSON object held in a [JSONField]: its key/value pairs. The empty
    dictionary is the only falsy one. *)
Definition json := list (string * string).

(** A row of the error catalogue ([error.models.Error]); a model instance is
    always truthy. *)
Record Error := { error_id : Z; error_name : string }.
#[export] Instance truthy_error : Truthy Error := λ _, true.
#[export] Instance Error_eq_dec : EqDecision Error.
Proof. solve_decision. Defined.

(** ** Scalars *)

(** [long(math.ceil(x))] *)
Definition ceil (x : Q) : Z := Qceiling x.

(** Python's [max(a, b)]: the first argument unless the second is larger. *)
Definition py_max (a b : Q) : Q := if Qle_bool b a then a else b.

(** Python 2 [round(x, 5)]: to five decimal digits, halves away from zero. *)
Definition round5 (x : Q) : Q :=
  let s := (x * inject_Z 100000)%Q in
  let n := if Qle_bool 0 s then Qfloor (s + (1 # 2))%Q
           else - Qfloor (- s + (1 # 2))%Q in
  (inject_Z n / inject_Z 100000)%Q.

(** Required resource minimums for jobs. *)
Definition MIN_CPUS : Q := (1 # 4)%Q.
Definition MIN_MEM : Q := 128%Q.
Definition MIN_DISK : Q := 0%Q.

(** ** Resource vector: [node/resources/node_resources.py] *)

(** A resource as the vector's methods use it ([name], [value],
    [resource_type], [copy()]). The classes [Cpus], [Mem] and [Disk] of
    [node.resources.resource] are scalar resources with fixed names. *)
Module Resource.
Record t := mk { name : string; value : Q; resource_type : string }.
End Resource.

Definition Cpus (v : Q) : Resource.t := Resource.mk "cpus" v "SCALAR".
Definition Mem (v : Q) : Resource.t := Resource.mk "mem" v "SCALAR".
Definition Disk (v : Q) : Resource.t := Resource.mk "disk" v "SCALAR".

(** [NodeResources._resources] is a dict [{Name: Resource}] in which every
    resource is filed under its own name and is of type SCALAR (the
    constructor and [add] are the only writers, and both keep this), so the
    dict is represented by the map from each name to the value stored there.
    Iteration over [node_resources.resources] visits every entry once. *)
Abbreviation NodeResources := (gmap string Q).

Module NodeResources.

Fixpoint init_loop (resources : list Resource.t) (acc : NodeResources)
  : result NodeResources :=
  match resources with
  | [] => Ok acc
  | resource :: rest =>
      if decide (Resource.resource_type resource ≠ "SCALAR")
      then Raise ScaleLogicBug
      else init_loop rest (<[Resource.name resource := Resource.value resource]> acc)
  end.

Definition define_standard (name : string) (acc : NodeResources) : NodeResources :=
  match acc !! name with
  | Some _ => acc
  | None => <[name := 0%Q]> acc
  end.

(** [NodeResources(resources=None)] *)
Definition init (resources : option (list Resource.t)) : result NodeResources :=
  match (if truthy resources then init_loop (default [] resources) ∅ else Ok ∅) with
  | Raise e => Raise e
  | Ok acc =>
      Ok (define_standard "disk" (define_standard "mem" (define_standard "cpus" acc)))
  end.

Definition cpus (self : NodeResources) : option Q := self !! "cpus".
Definition disk (self : NodeResources) : option Q := self !! "disk".
Definition mem (self : NodeResources) : option Q := self !! "mem".

Definition add_step (name : string) (value : Q) (self : NodeResources) : NodeResources :=
  match self !! name with
  | Some v => <[name := (v + value)%Q]> self
  | None => <[name := value]> self
  end.

Definition add (self node_resources : NodeResources) : NodeResources :=
  map_fold add_step self node_resources.

Definition increase_step (name : string) (value : Q) (self : NodeResources) : NodeResources :=
  match self !! name with
  | Some v => if Qle_bool value v then self else <[name := value]> self
  | None => <[name := value]> self
  end.

Definition increase_up_to (self node_resources : NodeResources) : NodeResources :=
  map_fold increase_step self node_resources.

Definition subtract_step (name : string) (value : Q) (self : NodeResources) : NodeResources :=
  match self !! name with
  | Some v => <[name := (v - value)%Q]> self
  | None => self
  end.

Definition subtract (self node_resources : NodeResources) : NodeResources :=
  map_fold subtract_step self node_resources.

(** The comparison of one entry in the second loop of [is_equal]; the
    lookup cannot fail there, the name sets having been found equal. *)
Definition same_rounded (self : NodeResources) (entry : string * Q) : bool :=
  match self !! entry.1 with
  | Some v => Qeq_bool (round5 v) (round5 entry.2)
  | None => false
  end.

Definition is_equal (self node_resources : NodeResources) : bool :=
  if decide (dom self ≠ dom node_resources) then false
  else forallb (same_rounded self) (map_to_list node_resources).

Definition meets (self : NodeResources) (entry : string * Q) : bool :=
  match self !! entry.1 with
  | Some v => Qle_bool entry.2 v
  | None => Qle_bool entry.2 0
  end.

Definition is_sufficient_to_meet (self node_resources : NodeResources) : bool :=
  forallb (meets self) (map_to_list node_resources).

(** [self.remove_resource(name)], which [JobType.get_resources] calls: the
    class defines no method of this name, so the call raises. *)
Definition remove_resource (name : string) (self : NodeResources) : result unit :=
  Raise AttributeError.

End NodeResources.

(** ** Models of [job/models.py] *)

Module JobType.
(** The fields of [JobType] that the job manager reads. [custom_resources]
    is the resources object of the stored JSON: name to scalar value. *)
Record t := mk {
  id : Z;
  name : string;
  version : string;
  is_active : bool;
  interface : json;
  revision_num : Z;
  priority : Z;
  timeout : Z;
  max_tries : Z;
  cpus_required : Q;
  mem_const_required : Q;
  mem_mult_required : Q;
  disk_out_const_required : Q;
  disk_out_mult_required : Q;
  custom_resources : gmap string Q
}.
End JobType.

Module JobTypeRevision.
Record t := mk {
  id : Z;
  job_type_id : Z;
  revision_num : Z;
  interface : json
}.
End JobTypeRevision.

Module Job.
(** A job model instance, and a row of table [job]. [id] is [None] until
    the instance is saved. [job_type] and [job_type_rev] hold the related
    instance when it is populated. The fields are the columns the class
    declares. *)
Record t := mk {
  id : option Z;
  job_type : option JobType.t;
  job_type_rev : option JobTypeRevision.t;
  status : string;
  event : option Z;
  error : option Error;
  data : json;
  results : json;
  priority : Z;
  timeout : Z;
  max_tries : Z;
  num_exes : Z;
  disk_in_required : option Q;
  disk_out_required : option Q;
  is_superseded : bool;
  root_superseded_job_id : option Z;
  superseded_job_id : option Z;
  delete_superseded : bool;
  created : option Time;
  queued : option Time;
  started : option Time;
  ended : option Time;
  last_status_change : option Time;
  superseded : option Time;
  last_modified : option Time
}.

(** [job.exe_num]: the class declares [num_exes] and no attribute of this
    name (the execution models have one), so reading it on a job raises. *)
Definition exe_num (self : t) : result Z := Raise AttributeError.

Definition FINAL_STATUSES : list string := ["FAILED"; "COMPLETED"; "CANCELED"].

(** [Job()]: a fresh instance with the field defaults; the fields without a
    default are given by the caller before the instance is saved. *)
Definition new : t :=
  {| id := None; job_type := None; job_type_rev := None; status := "PENDING";
     event := None; error := None; data := []; results := [];
     priority := 0; timeout := 0; max_tries := 0; num_exes := 0;
     disk_in_required := None; disk_out_required := None;
     is_superseded := false; root_superseded_job_id := None;
     superseded_job_id := None; delete_superseded := true;
     created := None; queued := None; started := None; ended := None;
     last_status_change := None; superseded := None; last_modified := None |}.

Definition can_be_canceled (self : t) : bool :=
  negb (bool_decide (status self ∈ ["COMPLETED"; "CANCELED"])).

Definition is_ready_to_queue (self : t) : bool :=
  bool_decide (status self ∈ ["PENDING"; "CANCELED"; "FAILED"]).

Definition is_ready_to_requeue (self : t) : bool :=
  bool_decide (status self ∈ ["CANCELED"; "FAILED"]).
End Job.

(** A model instance is always truthy. *)
#[export] Instance truthy_job : Truthy Job.t := λ _, true.

(** A reference to a model instance in memory. *)
Definition ref := nat.

Module JobExecution.
(** A job execution instance, and a row of table [job_exe]; [job] refers
    to the related job instance when it is populated. *)
Record t := mk {
  id : option Z;
  job_id : Z;
  job : option ref;
  exe_num : option Z;
  timeout : Z;
  status : option string;
  error : option Error;
  queued : option Time;
  started : option Time;
  ended : option Time;
  last_modified : option Time
}.
End JobExecution.

Module JobExecutionOutput.
Record t := mk {
  job_exe_id : Z;
  job_id : Z;
  exe_num : Z;
  output : json
}.
End JobExecutionOutput.

(** A link row of [batch.models.BatchJob]. *)
Module BatchJob.
Record t := mk { job_id : Z; batch_id : Z }.
End BatchJob.

(** An input file of the file catalogue ([storage.models.ScaleFile]). *)
Module ScaleFile.
Record t := mk { id : Z; file_size : Z }.
End ScaleFile.

Module JobInputFile.
Record t := mk { job_id : option Z; input_file_id : Z; job_input : string }.
End JobInputFile.

(** ** The database *)

Record DB := mkDB {
  job_rows : gmap Z Job.t;
  job_exe_rows : gmap Z JobExecution.t;
  job_exe_output_rows : list JobExecutionOutput.t;
  job_type_rev_rows : list JobTypeRevision.t;
  job_input_file_rows : list JobInputFile.t;
  scale_file_rows : gmap Z ScaleFile.t;
  file_ancestry_links : list (Z * option Z);
  batch_job_rows : list BatchJob.t;
  batch_completed_jobs : gmap Z Z
}.

Definition with_job_rows (rows : gmap Z Job.t) (db : DB) : DB :=
  {| job_rows := rows; job_exe_rows := job_exe_rows db;
     job_exe_output_rows := job_exe_output_rows db;
     job_type_rev_rows := job_type_rev_rows db;
     job_input_file_rows := job_input_file_rows db;
     scale_file_rows := scale_file_rows db;
     file_ancestry_links := file_ancestry_links db;
     batch_job_rows := batch_job_rows db;
     batch_completed_jobs := batch_completed_jobs db |}.

Definition with_job_exe_rows (rows : gmap Z JobExecution.t) (db : DB) : DB :=
  {| job_rows := job_rows db; job_exe_rows := rows;
     job_exe_output_rows := job_exe_output_rows db;
     job_type_rev_rows := job_type_rev_rows db;
     job_input_file_rows := job_input_file_rows db;
     scale_file_rows := scale_file_rows db;
     file_ancestry_links := file_ancestry_links db;
     batch_job_rows := batch_job_rows db;
     batch_completed_jobs := batch_completed_jobs db |}.

Definition with_batch_completed_jobs (counts : gmap Z Z) (db : DB) : DB :=
  {| job_rows := job_rows db; job_exe_rows := job_exe_rows db;
     job_exe_output_rows := job_exe_output_rows db;
     job_type_rev_rows := job_type_rev_rows db;
     job_input_file_rows := job_input_file_rows db;
     scale_file_rows := scale_file_rows db;
     file_ancestry_links := file_ancestry_links db;
     batch_job_rows := batch_job_rows db;
     batch_completed_jobs := counts |}.

Definition with_input_links (inputs : list JobInputFile.t) (links : list (Z * option Z))
    (db : DB) : DB :=
  {| job_rows := job_rows db; job_exe_rows := job_exe_rows db;
     job_exe_output_rows := job_exe_output_rows db;
     job_type_rev_rows := job_type_rev_rows db;
     job_input_file_rows := inputs;
     scale_file_rows := scale_file_rows db;
     file_ancestry_links := links;
     batch_job_rows := batch_job_rows db;
     batch_completed_jobs := batch_completed_jobs db |}.

(** ** Object store and the manager monad *)

Record State := mkState {
  db : DB;
  job_objs : gmap ref Job.t;
  job_exe_objs : gmap ref JobExecution.t
}.

(** A manager method: it runs on a state and leaves a state, with a value or
    with an exception. *)
Definition M (A : Type) : Type := State → result A * State.

Definition ret {A} (a : A) : M A := λ st, (Ok a, st).
Definition raise {A} (e : exn) : M A := λ st, (Raise e, st).
Definition bind {A B} (m : M A) (k : A → M B) : M B :=
  λ st, match m st with
        | (Ok a, st') => k a st'
        | (Raise e, st') => (Raise e, st')
        end.
Definition get_db : M DB := λ st, (Ok (db st), st).
Definition modify_db (f : DB → DB) : M unit :=
  λ st, (Ok tt, mkState (f (db st)) (job_objs st) (job_exe_objs st)).
Definition lift {A} (r : result A) : M A := λ st, (r, st).

(** [@transaction.atomic]: an exception undoes the database writes of the
    block. *)
Definition atomic {A} (m : M A) : M A :=
  λ st, match m st with
        | (Ok a, st') => (Ok a, st')
        | (Raise e, st') => (Raise e, mkState (db st) (job_objs st') (job_exe_objs st'))
        end.

(** [try: m except e: handler] *)
Definition try_except {A} (m : M A) (e : exn) (handler : M A) : M A :=
  λ st, match m st with
        | (Raise e', st') => if decide (e' = e) then handler st' else (Raise e', st')
        | r => r
        end.

Notation "'let*' x ':=' m 'in' k" := (bind m (λ x, k))
  (at level 10, x name, m at level 100, k at level 200).
Notation "'let*' ' p ':=' m 'in' k" := (bind m (λ x, match x with p => k end))
  (at level 10, p pattern, m at level 100, k at level 200).
Notation "'do' m 'in' k" := (bind m (λ _, k))
  (at level 10, m at level 100, k at level 200).

(** Reading the instance behind a reference, and storing the instance after
    its attributes were assigned. *)
Definition deref (r : ref) : M Job.t :=
  λ st, match job_objs st !! r with
        | Some job => (Ok job, st)
        | None => (Raise (Exception "no such object"), st)
        end.

Definition assign (r : ref) (job : Job.t) : M unit :=
  λ st, (Ok tt, mkState (db st) (<[r := job]> (job_objs st)) (job_exe_objs st)).

Definition new_job (job : Job.t) : M ref :=
  λ st, let r := fresh (dom (job_objs st)) in
        (Ok r, mkState (db st) (<[r := job]> (job_objs st)) (job_exe_objs st)).

Definition deref_exe (r : ref) : M JobExecution.t :=
  λ st, match job_exe_objs st !! r with
        | Some job_exe => (Ok job_exe, st)
        | None => (Raise (Exception "no such object"), st)
        end.

Definition assign_exe (r : ref) (job_exe : JobExecution.t) : M unit :=
  λ st, (Ok tt, mkState (db st) (job_objs st) (<[r := job_exe]> (job_exe_objs st))).

(** ** Query sets *)

(** [objects.get(...)]: the one row that matches. *)
Definition objects_get {A} (matches : A → bool) (rows : list A) : result A :=
  match List.filter matches rows with
  | [] => Raise DoesNotExist
  | [row] => Ok row
  | _ => Raise MultipleObjectsReturned
  end.

(** [job_ids.add(job.id)]; an unsaved instance has no key and matches no
    row. *)
Definition add_id (id : option Z) (ids : gset Z) : gset Z :=
  match id with
  | Some i => {[i]} ∪ ids
  | None => ids
  end.

(** [filter(id__in=ids).update(...)] on a table keyed by id. *)
Definition update_rows {A} (ids : gset Z) (f : A → A) (rows : gmap Z A) : gmap Z A :=
  map_imap (λ i row, Some (if decide (i ∈ ids) then f row else row)) rows.

Definition update_jobs (ids : gset Z) (f : Job.t → Job.t) : M unit :=
  modify_db (λ d, with_job_rows (update_rows ids f (job_rows d)) d).

Definition update_job_exes (ids : gset Z) (f : JobExecution.t → JobExecution.t) : M unit :=
  modify_db (λ d, with_job_exe_rows (update_rows ids f (job_exe_rows d)) d).

(** ** Attribute assignments on a job

    Each function is the group of assignments one manager method makes on a
    job instance; the keyword arguments of the matching
    [filter(...).update(...)] name the same fields with the same values, so
    the function also serves as the update of the rows. *)
Module Assign.
Import Job.

(** [complete_job]: status, ended, last_status_change. *)
Definition completed (when : Time) (job : Job.t) : Job.t :=
  {| id := id job; job_type := job_type job; job_type_rev := job_type_rev job;
     status := "COMPLETED"; event := event job; error := error job;
     data := data job; results := results job;
     priority := priority job; timeout := timeout job; max_tries := max_tries job;
     num_exes := num_exes job;
     disk_in_required := disk_in_required job; disk_out_required := disk_out_required job;
     is_superseded := is_superseded job;
     root_superseded_job_id := root_superseded_job_id job;
     superseded_job_id := superseded_job_id job;
     delete_superseded := delete_superseded job;
     created := created job; queued := queued job; started := started job;
     ended := Some when; last_status_change := Some when;
     superseded := superseded job; last_modified := last_modified job |}.

(** [complete_job]: results. *)
Definition with_results (output : json) (job : Job.t) : Job.t :=
  {| id := id job; job_type := job_type job; job_type_rev := job_type_rev job;
     status := status job; event := event job; error := error job;
     data := data job; results := output;
     priority := priority job; timeout := timeout job; max_tries := max_tries job;
     num_exes := num_exes job;
     disk_in_required := disk_in_required job; disk_out_required := disk_out_required job;
     is_superseded := is_superseded job;
     root_superseded_job_id := root_superseded_job_id job;
     superseded_job_id := superseded_job_id job;
     delete_superseded := delete_superseded job;
     created := created job; queued := queued job; started := started job;
     ended := ended job; last_status_change := last_status_change job;
     superseded := superseded job; last_modified := last_modified job |}.

(** [fail_job]: status, error, ended, last_status_change. *)
Definition failed (when : Time) (err : option Error) (job : Job.t) : Job.t :=
  {| id := id job; job_type := job_type job; job_type_rev := job_type_rev job;
     status := "FAILED"; event := event job; error := err;
     data := data job; results := results job;
     priority := priority job; timeout := timeout job; max_tries := max_tries job;
     num_exes := num_exes job;
     disk_in_required := disk_in_required job; disk_out_required := disk_out_required job;
     is_superseded := is_superseded job;
     root_superseded_job_id := root_superseded_job_id job;
     superseded_job_id := superseded_job_id job;
     delete_superseded := delete_superseded job;
     created := created job; queued := queued job; started := started job;
     ended := Some when; last_status_change := Some when;
     superseded := superseded job; last_modified := last_modified job |}.

(** [Model.save()]: the key the row is stored under, [auto_now_add] on
    [created] when the row is inserted, [auto_now] on [last_modified]. *)
Definition saved (key : Z) (adding : bool) (now : Time) (job : Job.t) : Job.t :=
  {| id := Some key; job_type := job_type job; job_type_rev := job_type_rev job;
     status := status job; event := event job; error := error job;
     data := data job; results := results job;
     priority := priority job; timeout := timeout job; max_tries := max_tries job;
     num_exes := num_exes job;
     disk_in_required := disk_in_required job; disk_out_required := disk_out_required job;
     is_superseded := is_superseded job;
     root_superseded_job_id := root_superseded_job_id job;
     superseded_job_id := superseded_job_id job;
     delete_superseded := delete_superseded job;
     created := if adding then Some now else created job;
     queued := queued job; started := started job;
     ended := ended job; last_status_change := last_status_change job;
     superseded := superseded job; last_modified := Some now |}.

(** [create_job]: the assignments made on the fresh instance before the
    supersession block. *)
Definition created_for (jt : JobType.t) (rev : JobTypeRevision.t) (ev : Z)
    (job : Job.t) : Job.t :=
  {| id := id job; job_type := Some jt; job_type_rev := Some rev;
     status := status job; event := Some ev; error := error job;
     data := data job; results := results job;
     priority := JobType.priority jt; timeout := JobType.timeout jt;
     max_tries := JobType.max_tries jt;
     num_exes := num_exes job;
     disk_in_required := disk_in_required job; disk_out_required := disk_out_required job;
     is_superseded := is_superseded job;
     root_superseded_job_id := root_superseded_job_id job;
     superseded_job_id := superseded_job_id job;
     delete_superseded := delete_superseded job;
     created := created job; queued := queued job; started := started job;
     ended := ended job; last_status_change := last_status_change job;
     superseded := superseded job; last_modified := last_modified job |}.

(** [create_job]: the supersession block. *)
Definition superseding (root_id : option Z) (superseded_id : option Z)
    (delete : bool) (job : Job.t) : Job.t :=
  {| id := id job; job_type := job_type job; job_type_rev := job_type_rev job;
     status := status job; event := event job; error := error job;
     data := data job; results := results job;
     priority := priority job; timeout := timeout job; max_tries := max_tries job;
     num_exes := num_exes job;
     disk_in_required := disk_in_required job; disk_out_required := disk_out_required job;
     is_superseded := is_superseded job;
     root_superseded_job_id := root_id;
     superseded_job_id := superseded_id;
     delete_superseded := delete;
     created := created job; queued := queued job; started := started job;
     ended := ended job; last_status_change := last_status_change job;
     superseded := superseded job; last_modified := last_modified job |}.

(** [queue_jobs]; [new_priority] is [Some p] in the branch [if priority:]. *)
Definition queued_at (when : Time) (new_priority : option Z) (job : Job.t) : Job.t :=
  {| id := id job; job_type := job_type job; job_type_rev := job_type_rev job;
     status := "QUEUED"; event := event job; error := None;
     data := data job; results := results job;
     priority := match new_priority with Some p => p | None => priority job end;
     timeout := timeout job; max_tries := max_tries job;
     num_exes := num_exes job + 1;
     disk_in_required := disk_in_required job; disk_out_required := disk_out_required job;
     is_superseded := is_superseded job;
     root_superseded_job_id := root_superseded_job_id job;
     superseded_job_id := superseded_job_id job;
     delete_superseded := delete_superseded job;
     created := created job; queued := Some when; started := None;
     ended := None; last_status_change := Some when;
     superseded := superseded job; last_modified := Some when |}.

(** [populate_job_data] *)
Definition populated (data_dict : json) (disk_in disk_out : Q) (modified : Time)
    (job : Job.t) : Job.t :=
  {| id := id job; job_type := job_type job; job_type_rev := job_type_rev job;
     status := status job; event := event job; error := error job;
     data := data_dict; results := results job;
     priority := priority job; timeout := timeout job; max_tries := max_tries job;
     num_exes := num_exes job;
     disk_in_required := Some disk_in; disk_out_required := Some disk_out;
     is_superseded := is_superseded job;
     root_superseded_job_id := root_superseded_job_id job;
     superseded_job_id := superseded_job_id job;
     delete_superseded := delete_superseded job;
     created := created job; queued := queued job; started := started job;
     ended := ended job; last_status_change := last_status_change job;
     superseded := superseded job; last_modified := Some modified |}.

(** [supersede_jobs] *)
Definition superseded_at (when modified : Time) (job : Job.t) : Job.t :=
  {| id := id job; job_type := job_type job; job_type_rev := job_type_rev job;
     status := status job; event := event job; error := error job;
     data := data job; results := results job;
     priority := priority job; timeout := timeout job; max_tries := max_tries job;
     num_exes := num_exes job;
     disk_in_required := disk_in_required job; disk_out_required := disk_out_required job;
     is_superseded := true;
     root_superseded_job_id := root_superseded_job_id job;
     superseded_job_id := superseded_job_id job;
     delete_superseded := delete_superseded job;
     created := created job; queued := queued job; started := started job;
     ended := ended job; last_status_change := last_status_change job;
     superseded := Some when; last_modified := Some modified |}.

(** [update_status] *)
Definition status_fields (new_status : string) (when : Time) (change_started : bool)
    (new_ended : option Time) (err : option Error) (modified : Time)
    (job : Job.t) : Job.t :=
  {| id := id job; job_type := job_type job; job_type_rev := job_type_rev job;
     status := new_status; event := event job; error := err;
     data := data job; results := results job;
     priority := priority job; timeout := timeout job; max_tries := max_tries job;
     num_exes := num_exes job;
     disk_in_required := disk_in_required job; disk_out_required := disk_out_required job;
     is_superseded := is_superseded job;
     root_superseded_job_id := root_superseded_job_id job;
     superseded_job_id := superseded_job_id job;
     delete_superseded := delete_superseded job;
     created := created job; queued := queued job;
     started := if change_started then Some when else started job;
     ended := new_ended; last_status_change := Some when;
     superseded := superseded job; last_modified := Some modified |}.

(** [update_jobs_to_running]: the rows that change status. *)
Definition running (when modified : Time) (job : Job.t) : Job.t :=
  {| id := id job; job_type := job_type job; job_type_rev := job_type_rev job;
     status := "RUNNING"; event := event job; error := error job;
     data := data job; results := results job;
     priority := priority job; timeout := timeout job; max_tries := max_tries job;
     num_exes := num_exes job;
     disk_in_required := disk_in_required job; disk_out_required := disk_out_required job;
     is_superseded := is_superseded job;
     root_superseded_job_id := root_superseded_job_id job;
     superseded_job_id := superseded_job_id job;
     delete_superseded := delete_superseded job;
     created := created job; queued := queued job; started := Some when;
     ended := ended job; last_status_change := Some when;
     superseded := superseded job; last_modified := Some modified |}.

(** [update_jobs_to_running]: the rows updated without a status change. *)
Definition started_only (when modified : Time) (job : Job.t) : Job.t :=
  {| id := id job; job_type := job_type job; job_type_rev := job_type_rev job;
     status := status job; event := event job; error := error job;
     data := data job; results := results job;
     priority := priority job; timeout := timeout job; max_tries := max_tries job;
     num_exes := num_exes job;
     disk_in_required := disk_in_required job; disk_out_required := disk_out_required job;
     is_superseded := is_superseded job;
     root_superseded_job_id := root_superseded_job_id job;
     superseded_job_id := superseded_job_id job;
     delete_superseded := delete_superseded job;
     created := created job; queued := queued job; started := Some when;
     ended := ended job; last_status_change := last_status_change job;
     superseded := superseded job; last_modified := Some modified |}.

(** [JobExecutionManager.update_status], on a job execution. *)
Definition exe_status_fields (new_status : string) (when : Time) (err : option Error)
    (modified : Time) (job_exe : JobExecution.t) : JobExecution.t :=
  {| JobExecution.id := JobExecution.id job_exe;
     JobExecution.job_id := JobExecution.job_id job_exe;
     JobExecution.job := JobExecution.job job_exe;
     JobExecution.exe_num := JobExecution.exe_num job_exe;
     JobExecution.timeout := JobExecution.timeout job_exe;
     JobExecution.status := Some new_status;
     JobExecution.error := err;
     JobExecution.queued := JobExecution.queued job_exe;
     JobExecution.started := JobExecution.started job_exe;
     JobExecution.ended := Some when;
     JobExecution.last_modified := Some modified |}.

(** The related job instance of a job execution, once loaded. *)
Definition exe_with_job (r : ref) (job_exe : JobExecution.t) : JobExecution.t :=
  {| JobExecution.id := JobExecution.id job_exe;
     JobExecution.job_id := JobExecution.job_id job_exe;
     JobExecution.job := Some r;
     JobExecution.exe_num := JobExecution.exe_num job_exe;
     JobExecution.timeout := JobExecution.timeout job_exe;
     JobExecution.status := JobExecution.status job_exe;
     JobExecution.error := JobExecution.error job_exe;
     JobExecution.queued := JobExecution.queued job_exe;
     JobExecution.started := JobExecution.started job_exe;
     JobExecution.ended := JobExecution.ended job_exe;
     JobExecution.last_modified := JobExecution.last_modified job_exe |}.
End Assign.

(** ** [JobTypeRevisionManager] and the collaborators of the job manager *)

Module JobTypeRevisionManager.
(** The filter [job_type_id=..., revision_num=...]. *)
Definition is_revision (job_type_id revision_num : Z) (rev : JobTypeRevision.t) : bool :=
  (JobTypeRevision.job_type_id rev =? job_type_id)
  && (JobTypeRevision.revision_num rev =? revision_num).

Definition get_revision (job_type_id revision_num : Z) : M JobTypeRevision.t :=
  let* d := get_db in
  lift (objects_get (is_revision job_type_id revision_num) (job_type_rev_rows d)).
End JobTypeRevisionManager.

(** What the job manager asks of a [JobData] object: its dictionary, the ids
    of its input files, and the (file id, input name) pairs. *)
Module JobData.
Record t := mk {
  get_dict : json;
  get_input_file_ids : list Z;
  get_input_file_info : list (Z * string)
}.
End JobData.

(** [ScaleFile.objects.get_files(ids)]: the catalogue rows with these ids. *)
Definition files_with_ids (file_ids : list Z) (rows : gmap Z ScaleFile.t)
  : list ScaleFile.t :=
  List.filter (λ f, bool_decide (ScaleFile.id f ∈ file_ids)) (map snd (map_to_list rows)).

Definition get_files (file_ids : list Z) : M (list ScaleFile.t) :=
  let* d := get_db in
  ret (files_with_ids file_ids (scale_file_rows d)).

(** [Batch.objects.count_completed_job(batch_id)].
    Modelled from the spec: [batch.models] is not in the source tree; the
    batch counters are notified of a job completion for aggregate tracking,
    here a count of completed jobs per batch. *)
Definition count_completed_job (batch_id : Z) : M unit :=
  modify_db (λ d,
    with_batch_completed_jobs
      (<[batch_id := default 0 (batch_completed_jobs d !! batch_id) + 1]>
         (batch_completed_jobs d)) d).

(** [FileAncestryLink.objects.create_file_ancestry_links(ids, None, job, None)].
    Modelled from the spec: [product.models] is not in the source tree; one
    file-ancestry record per input file of the job, for lineage tracking. *)
Definition create_file_ancestry_links (file_ids : list Z) (job_id : option Z)
    (links : list (Z * option Z)) : list (Z * option Z) :=
  links ++ map (λ f, (f, job_id)) file_ids.

(** [Resources(custom_resources).get_node_resources()].
    Modelled from the spec: [node.resources.json.resources] is not in the
    source tree; a resource vector is read from its JSON-like mapping, the
    standard resources being defined by the vector's constructor. *)
Definition get_node_resources (custom_resources : gmap string Q) : NodeResources :=
  NodeResources.define_standard "disk"
    (NodeResources.define_standard "mem"
       (NodeResources.define_standard "cpus" custom_resources)).

(** ** [JobType.get_resources] and [Job.get_resources] *)

Definition result_bind {A B} (r : result A) (k : A → result B) : result B :=
  match r with
  | Ok a => k a
  | Raise e => Raise e
  end.

Definition JobType_get_resources (self : JobType.t) : result NodeResources :=
  let resources := get_node_resources (JobType.custom_resources self) in
  result_bind (NodeResources.remove_resource "cpus" resources) (λ _,
  result_bind (NodeResources.remove_resource "mem" resources) (λ _,
  result_bind (NodeResources.remove_resource "disk" resources) (λ _,
  let cpus := py_max (JobType.cpus_required self) MIN_CPUS in
  result_bind (NodeResources.init (Some [Cpus cpus])) (λ other,
  Ok (NodeResources.add resources other))))).

(** [self.job_type]: the related instance, which must be populated. *)
Definition related {A} (o : option A) : result A :=
  match o with
  | Some a => Ok a
  | None => Raise RelatedObjectDoesNotExist
  end.

Definition Job_get_resources (self : Job.t) : result NodeResources :=
  result_bind (related (Job.job_type self)) (λ job_type,
  result_bind (JobType_get_resources job_type) (λ resources,
  (* Calculate memory required in MiB rounded up to the nearest whole MiB *)
  let multiplier := JobType.mem_mult_required job_type in
  let const := JobType.mem_const_required job_type in
  let disk_in_required :=
    match Job.disk_in_required self with
    | Some d => if Qeq_bool d 0 then 0%Q else d
    | None => 0%Q
    end in
  let memory_mb := inject_Z (ceil (multiplier * disk_in_required + const)) in
  let memory_required := py_max memory_mb MIN_MEM in
  (* Calculate output space required in MiB rounded up to the nearest whole MiB *)
  let multiplier := JobType.disk_out_mult_required job_type in
  let const := JobType.disk_out_const_required job_type in
  let output_size_mb := inject_Z (ceil (multiplier * disk_in_required + const)) in
  let disk_out_required := py_max output_size_mb MIN_DISK in
  result_bind
    (NodeResources.init
       (Some [Mem memory_required; Disk (disk_out_required + disk_in_required)]))
    (λ other, Ok (NodeResources.add resources other)))).

(** ** [JobManager] *)

Module JobManager.

(** [job.save()] *)
Definition next_key (rows : gmap Z Job.t) : Z :=
  map_fold (λ i _ acc, Z.max i acc) 0 rows + 1.

Definition save (now : Time) (job : ref) : M unit :=
  let* j := deref job in
  let* d := get_db in
  let key := match Job.id j with
             | Some i => i
             | None => next_key (job_rows d)
             end in
  let adding := bool_decide (job_rows d !! key = None) in
  let j := Assign.saved key adding now j in
  do assign job j in
  modify_db (λ d, with_job_rows (<[key := j]> (job_rows d)) d).

(** [JobExecutionOutput.objects.get(job_id=job_id, exe_num=exe_num)] *)
(** The filter [job_id=..., exe_num=...]. *)
Definition is_output_of (job_id : option Z) (exe_num : Z)
    (row : JobExecutionOutput.t) : bool :=
  bool_decide (Some (JobExecutionOutput.job_id row) = job_id)
  && (JobExecutionOutput.exe_num row =? exe_num).

Definition get_output_row (job_id : option Z) (exe_num : Z) : M JobExecutionOutput.t :=
  let* d := get_db in
  lift (objects_get (is_output_of job_id exe_num) (job_exe_output_rows d)).

(** [BatchJob.objects.get(job_id=job_id)] *)
Definition get_batch_job (job_id : option Z) : M BatchJob.t :=
  let* d := get_db in
  lift (objects_get (λ row, bool_decide (Some (BatchJob.job_id row) = job_id))
          (batch_job_rows d)).

Section WithJobResults.
(** [JobResults(output).get_dict()], the dictionary of the results object
    built over a stored output ([job.configuration.results] is not in the
    source tree). *)
Variable JobResults_get_dict : json → json.

Definition complete_job (now : Time) (job : ref) (when : Time) : M unit :=
  let* j := deref job in
  do assign job (Assign.completed when j) in
  (* Query output from completed job execution *)
  let* j := deref job in
  let* exe_num := lift (Job.exe_num j) in
  let* job_exe_output := get_output_row (Job.id j) exe_num in
  do assign job
       (Assign.with_results
          (JobResults_get_dict (JobExecutionOutput.output job_exe_output)) j) in
  do save now job in
  (* Update completed job count if part of a batch *)
  let* j := deref job in
  try_except
    (let* batch_job := get_batch_job (Job.id j) in
     count_completed_job (BatchJob.batch_id batch_job))
    DoesNotExist
    (ret tt).
End WithJobResults.

Definition create_job (job_type : JobType.t) (event : option Z)
    (superseded_job : option ref) (delete_superseded : bool) : M ref :=
  if negb (JobType.is_active job_type)
  then raise (Exception "Job type is no longer active")
  else
    match event with
    | None => raise (Exception "Event that triggered job creation is required")
    | Some ev =>
        let* job := new_job Job.new in
        let* rev := JobTypeRevisionManager.get_revision
                      (JobType.id job_type) (JobType.revision_num job_type) in
        let* j := deref job in
        do assign job (Assign.created_for job_type rev ev j) in
        do (match superseded_job with
            | Some superseded =>
                let* s := deref superseded in
                let root_id := Job.root_superseded_job_id s in
                let root_id := if negb (truthy root_id) then Job.id s else root_id in
                let* j := deref job in
                assign job (Assign.superseding root_id (Job.id s) delete_superseded j)
            | None => ret tt
            end) in
        ret job
    end.

Definition fail_job (now : Time) (job : ref) (when : Time) (error : option Error)
  : M unit :=
  let* j := deref job in
  do assign job (Assign.failed when error j) in
  save now job.

(** A call [Job.objects.fail_job(job, when)] or
    [Job.objects.fail_job(job, when, error)]: the signature gives [error] no
    default, so Python rejects the call that leaves it out before the body
    runs. *)
Definition fail_job_call (now : Time) (job : ref) (when : Time)
    (error : argument (option Error)) : M unit :=
  match error with
  | passed error => fail_job now job when error
  | left_out => raise TypeError
  end.

(** [get_locked_jobs(job_ids)]: the rows with these ids in order of
    ascending id, as fresh instances (held by the caller alone). *)
Definition get_locked_jobs (job_ids : list Z) : M (list Job.t) :=
  let* d := get_db in
  ret (omap (λ i, job_rows d !! i) (merge_sort Z.le (remove_dups job_ids))).

(** The loop of [queue_jobs]. *)
Fixpoint queue_loop (when : Time) (priority : option Z) (jobs : list ref)
    (job_ids : gset Z) (jobs_to_queue : list ref) : M (gset Z * list ref) :=
  match jobs with
  | [] => ret (job_ids, jobs_to_queue)
  | job :: rest =>
      let* j := deref job in
      if negb (Job.is_ready_to_queue j) || negb (truthy (Job.data j))
         || Job.is_superseded j
      then queue_loop when priority rest job_ids jobs_to_queue
      else
        do assign job
             (Assign.queued_at when (if truthy priority then priority else None) j) in
        queue_loop when priority rest (add_id (Job.id j) job_ids) (jobs_to_queue ++ [job])
  end.

Definition queue_jobs (jobs : list ref) (when : Time) (priority : option Z)
  : M (list ref) :=
  (* Update job models in memory and collect job IDs *)
  let* '(job_ids, jobs_to_queue) := queue_loop when priority jobs ∅ [] in
  (* Update job models in database with single query *)
  do (if truthy priority
      then update_jobs job_ids (Assign.queued_at when priority)
      else update_jobs job_ids (Assign.queued_at when None)) in
  ret jobs_to_queue.

(** The loop of [update_status]. *)
Fixpoint update_status_loop (assignments : Job.t → Job.t) (jobs : list ref)
    (job_ids : gset Z) : M (gset Z) :=
  match jobs with
  | [] => ret job_ids
  | job :: rest =>
      let* j := deref job in
      do assign job (assignments j) in
      update_status_loop assignments rest (add_id (Job.id j) job_ids)
  end.

Definition update_status (now : Time) (jobs : list ref) (status : string)
    (when : Time) (error : option Error) : M unit :=
  if bool_decide (status = "QUEUED")
  then raise (Exception "Changing status to QUEUED must use the queue_jobs() method")
  else if bool_decide (status = "FAILED") && negb (truthy error)
  then raise (Exception "An error is required when status is FAILED")
  else if negb (bool_decide (status = "FAILED")) && truthy error
  then raise (Exception ("Status " +:+ status +:+ " is invalid with an error"))
  else
    let change_started := bool_decide (status = "RUNNING") in
    let ended := if bool_decide (status ∈ Job.FINAL_STATUSES) then Some when else None in
    let modified := now in
    (* Update job models in memory and collect job IDs *)
    let* job_ids :=
      update_status_loop
        (Assign.status_fields status when change_started ended error modified)
        jobs ∅ in
    (* Update job models in database with single query *)
    update_jobs job_ids
      (Assign.status_fields status when change_started ended error modified).

(** The loop of [supersede_jobs]. *)
Fixpoint supersede_loop (when modified : Time) (jobs : list ref)
    (job_ids : gset Z) (jobs_to_cancel : list ref) : M (gset Z * list ref) :=
  match jobs with
  | [] => ret (job_ids, jobs_to_cancel)
  | job :: rest =>
      let* j := deref job in
      do assign job (Assign.superseded_at when modified j) in
      supersede_loop when modified rest (add_id (Job.id j) job_ids)
        (if bool_decide (Job.status j ∈ ["PENDING"; "BLOCKED"])
         then jobs_to_cancel ++ [job] else jobs_to_cancel)
  end.

Definition supersede_jobs (now : Time) (jobs : list ref) (when : Time) : M unit :=
  let modified := now in
  (* Update job models in memory and collect job IDs *)
  let* '(job_ids, jobs_to_cancel) := supersede_loop when modified jobs ∅ [] in
  (* Update job models in database with single query *)
  do update_jobs job_ids (Assign.superseded_at when modified) in
  (* Cancel any jobs that are PENDING or BLOCKED *)
  if truthy jobs_to_cancel
  then update_status now jobs_to_cancel "CANCELED" when None
  else ret tt.

(** [locked_job.exe_num.status]: attribute [status] of an integer. *)
Definition int_status (n : Z) : result string := Raise AttributeError.

(** [filter(id__in=ids)] for a list of collected keys. *)
Definition id_set (ids : list (option Z)) : gset Z := foldr add_id ∅ ids.

(** The loop of [update_jobs_to_running]. *)
Fixpoint running_loop (jobs : gmap Z Z) (locked_jobs : list Job.t)
    (jobs_to_update jobs_to_update_no_status : list (option Z))
  : result (list (option Z) * list (option Z)) :=
  match locked_jobs with
  | [] => Ok (jobs_to_update, jobs_to_update_no_status)
  | locked_job :: rest =>
      result_bind (Job.exe_num locked_job) (λ key,
      match jobs !! key with
      | None => Raise KeyError
      | Some exe_num =>
          result_bind (Job.exe_num locked_job) (λ current,
          if bool_decide (current ≠ exe_num)
          then
            (* If the execution number has changed, this update is obsolete *)
            running_loop jobs rest jobs_to_update jobs_to_update_no_status
          else
            result_bind (Job.exe_num locked_job) (λ current,
            result_bind (int_status current) (λ status,
            if bool_decide (status = "QUEUED")
            then running_loop jobs rest
                   (jobs_to_update ++ [Job.id locked_job]) jobs_to_update_no_status
            else
              (* The job has already received its final status update *)
              running_loop jobs rest
                jobs_to_update (jobs_to_update_no_status ++ [Job.id locked_job]))))
      end)
  end.

Definition update_jobs_to_running (now : Time) (jobs : gmap Z Z) (when : Time)
  : M unit :=
  atomic (
    let* locked_jobs := get_locked_jobs (map fst (map_to_list jobs)) in
    let* '(jobs_to_update, jobs_to_update_no_status) :=
      lift (running_loop jobs locked_jobs [] []) in
    let modified := now in
    do (if truthy jobs_to_update
        then update_jobs (id_set jobs_to_update) (Assign.running when modified)
        else ret tt) in
    if truthy jobs_to_update_no_status
    then update_jobs (id_set jobs_to_update_no_status)
           (Assign.started_only when modified)
    else ret tt).

Section WithInterface.
(** [JobInterface(interface).validate_data(data)], which raises
    [InvalidData] for data that does not fit the interface
    ([job.configuration.interface] is not in the source tree). *)
Variable validate_data : json → JobData.t → result unit.

Definition input_size_bytes (input_files : list ScaleFile.t) : Z :=
  foldl (λ total input_file, total + ScaleFile.file_size input_file) 0 input_files.

Definition populate_job_data (now : Time) (job : ref) (data : JobData.t) : M unit :=
  let modified := now in
  (* Validate job data *)
  let* j := deref job in
  let* rev := lift (related (Job.job_type_rev j)) in
  do lift (validate_data (JobTypeRevision.interface rev) data) in
  (* Analyze input files *)
  let input_file_ids := JobData.get_input_file_ids data in
  let* input_files := get_files input_file_ids in
  let input_size_bytes := input_size_bytes input_files in
  (* Calculate total input file size in MiB rounded up to the nearest whole MiB *)
  let input_size_mb :=
    inject_Z (ceil (inject_Z input_size_bytes / (1024 * 1024))) in
  (* Calculate output space required in MiB rounded up to the nearest whole MiB *)
  let* job_type := lift (related (Job.job_type j)) in
  let multiplier := JobType.disk_out_mult_required job_type in
  let const := JobType.disk_out_const_required job_type in
  let output_size_mb := inject_Z (ceil (multiplier * input_size_mb + const)) in
  let disk_in_required := py_max input_size_mb MIN_DISK in
  let disk_out_required := py_max output_size_mb MIN_DISK in
  (* Update job model in memory *)
  do assign job
       (Assign.populated (JobData.get_dict data) disk_in_required disk_out_required
          modified j) in
  (* Configure and populate JobInputFile; populate file ancestry links *)
  let job_inputs :=
    map (λ input_file, JobInputFile.mk (Job.id j) input_file.1 input_file.2)
      (JobData.get_input_file_info data) in
  do modify_db (λ d,
       with_input_links (job_input_file_rows d ++ job_inputs)
         (create_file_ancestry_links input_file_ids (Job.id j)
            (file_ancestry_links d)) d) in
  (* Update job model in database with single query *)
  update_jobs (add_id (Job.id j) ∅)
    (Assign.populated (JobData.get_dict data) disk_in_required disk_out_required
       modified).
End WithInterface.

End JobManager.

(** ** [JobExecutionManager] *)

Module JobExecutionManager.

(** [job_exe.job]: the related job instance, loaded from its row on first
    use. *)
Definition related_job (job_exe : ref) : M ref :=
  let* e := deref_exe job_exe in
  match JobExecution.job e with
  | Some job => ret job
  | None =>
      let* d := get_db in
      match job_rows d !! JobExecution.job_id e with
      | None => raise DoesNotExist
      | Some row =>
          let* job := new_job row in
          do assign_exe job_exe (Assign.exe_with_job job e) in
          ret job
      end
  end.

(** The loop of [update_status]. *)
Fixpoint update_status_loop (assignments : JobExecution.t → JobExecution.t)
    (job_exes : list ref) (job_exe_ids : gset Z) (jobs : list ref)
  : M (gset Z * list ref) :=
  match job_exes with
  | [] => ret (job_exe_ids, jobs)
  | job_exe :: rest =>
      let* e := deref_exe job_exe in
      let* job := related_job job_exe in
      let* e := deref_exe job_exe in
      do assign_exe job_exe (assignments e) in
      update_status_loop assignments rest
        (add_id (JobExecution.id e) job_exe_ids) (jobs ++ [job])
  end.

Definition update_status (now : Time) (job_exes : list ref) (status : string)
    (when : Time) (error : option Error) : M unit :=
  if bool_decide (status = "QUEUED")
  then raise (Exception
    "QUEUED is an invalid status transition for job executions, use queue_job_exes()")
  else if bool_decide (status = "RUNNING")
  then raise (Exception
    "update_status() cannot set a job execution to RUNNING, use schedule_job_executions()")
  else if bool_decide (status = "FAILED") && negb (truthy error)
  then raise (Exception "An error is required when status is FAILED")
  else if negb (bool_decide (status = "FAILED")) && truthy error
  then raise (Exception ("Status " +:+ status +:+ " is invalid with an error"))
  else
    let modified := now in
    (* Update job execution models in memory and collect job execution IDs *)
    let* '(job_exe_ids, jobs) :=
      update_status_loop (Assign.exe_status_fields status when error modified)
        job_exes ∅ [] in
    (* Update job execution models in database with single query *)
    do update_job_exes job_exe_ids
         (Assign.exe_status_fields status when error modified) in
    (* Update job models *)
    JobManager.update_status now jobs status when error.

End JobExecutionManager.

(** ** The resource vector as objects with binary64 values

    The map from names to rational values of [NodeResources] leaves two things out of
    [node_resources.py]: a Python float is a binary64 number, and a vector
    holds references to [Resource] objects, which another vector (or the
    same one) may hold as well. Here the objects live in a heap and the
    values are primitive floats. *)

(** A scalar resource object: its [name] and its [value]. *)
Module ScalarResource.
Record t := mk { name : string; value : float }.
End ScalarResource.

(** The heap: the resource objects and, for each [NodeResources] object, its
    dict [_resources] from names to resource objects. *)
Record Heap := mkHeap {
  resources_at : gmap ref ScalarResource.t;
  vectors_at : gmap ref (gmap string ref)
}.

Module HeapNodeResources.

(** The object behind a reference (every reference in use leads to one). *)
Definition resource_at (h : Heap) (resource : ref) : ScalarResource.t :=
  default (ScalarResource.mk "" 0%float) (resources_at h !! resource).

(** [self._resources] *)
Definition dict_of (h : Heap) (self : ref) : gmap string ref :=
  default ∅ (vectors_at h !! self).

(** [self.resources]: the list [self._resources.values()], made when the
    loop over it starts. *)
Definition resources (h : Heap) (self : ref) : list ref :=
  (map_to_list (dict_of h self)).*2.

(** [resource.value = value] *)
Definition set_value (resource : ref) (value : float) (h : Heap) : Heap :=
  mkHeap
    (alter (λ object, ScalarResource.mk (ScalarResource.name object) value) resource
       (resources_at h))
    (vectors_at h).

(** One pass of the loop of [add].
    Modelled from the spec: [node.resources.resource] is not in the source
    tree; [resource.copy()] creates the resource that is absent, a new
    object with the name and the value of the one copied. *)
Definition add_step (self : ref) (h : Heap) (resource : ref) : Heap :=
  let name := ScalarResource.name (resource_at h resource) in
  match dict_of h self !! name with
  | Some mine =>
      set_value mine
        (ScalarResource.value (resource_at h mine)
         + ScalarResource.value (resource_at h resource))%float h
  | None =>
      let copy := fresh (dom (resources_at h)) in
      mkHeap (<[copy := resource_at h resource]> (resources_at h))
        (<[self := <[name := copy]> (dict_of h self)]> (vectors_at h))
  end.

Definition add (self node_resources : ref) (h : Heap) : Heap :=
  foldl (add_step self) h (resources h node_resources).

(** One pass of the loop of [subtract]. *)
Definition subtract_step (self : ref) (h : Heap) (resource : ref) : Heap :=
  let name := ScalarResource.name (resource_at h resource) in
  match dict_of h self !! name with
  | Some mine =>
      set_value mine
        (ScalarResource.value (resource_at h mine)
         - ScalarResource.value (resource_at h resource))%float h
  | None => h
  end.

Definition subtract (self node_resources : ref) (h : Heap) : Heap :=
  foldl (subtract_step self) h (resources h node_resources).

(** The first check of [is_equal]: the same set of resource names. *)
Definition same_names (self node_resources : ref) (h : Heap) : bool :=
  let names : gset string :=
    list_to_set ((λ resource, ScalarResource.name (resource_at h resource))
                   <$> resources h node_resources) in
  bool_decide (dom (dict_of h self) = names).

Section WithRound.
(** Python's built-in [round(number, ndigits)] on floats. *)
Variable round : float → Z → float.

(** The comparison of one resource in the second loop of [is_equal]; the
    lookup cannot fail there, the name sets having been found equal. *)
Definition same_rounded (self : ref) (h : Heap) (resource : ref) : bool :=
  match dict_of h self !! ScalarResource.name (resource_at h resource) with
  | Some mine =>
      PrimFloat.eqb (round (ScalarResource.value (resource_at h mine)) 5)
        (round (ScalarResource.value (resource_at h resource)) 5)
  | None => false
  end.

Definition is_equal (self node_resources : ref) (h : Heap) : bool :=
  if negb (same_names self node_resources h) then false
  else forallb (same_rounded self h) (resources h node_resources).
End WithRound.

(** Every entry of the dict of [self] leads to an object filed under its
    own name. *)
Definition filed (h : Heap) (self : ref) : Prop :=
  ∀ name resource, dict_of h self !! name = Some resource →
    ∃ value, resources_at h !! resource = Some (ScalarResource.mk name value).

(** The two vectors hold no resource object in common. *)
Definition apart (h : Heap) (self node_resources : ref) : Prop :=
  ∀ name name' mine theirs,
    dict_of h self !! name = Some mine →
    dict_of h node_resources !! name' = Some theirs → mine ≠ theirs.

(** For every name of [node_resources] that [self] has, adding the value and
    subtracting it again gives the value of [self] back. *)
Definition undone (h : Heap) (self node_resources : ref) : Prop :=
  ∀ name mine theirs,
    dict_of h self !! name = Some mine →
    dict_of h node_resources !! name = Some theirs →
    (ScalarResource.value (resource_at h mine)
     + ScalarResource.value (resource_at h theirs)
     - ScalarResource.value (resource_at h theirs))%float
    = ScalarResource.value (resource_at h mine).
End HeapNodeResources.

(** ** Predicates and sample data of the properties *)

(** A job that [queue_jobs] does not skip. *)
Definition queueable (j : Job.t) : Prop :=
  Job.status j ∈ ["PENDING"; "CANCELED"; "FAILED"] ∧ Job.data j ≠ [] ∧
  Job.is_superseded j = false.

#[export] Instance queueable_dec j : Decision (queueable j).
Proof. unfold queueable. apply _. Defined.

(** The jobs of a batch that the batch names with a key [i]. *)
Definition listed (P : Job.t → Prop) (jobs : list ref) (st : State) (i : Z) : Prop :=
  ∃ r j, r ∈ jobs ∧ job_objs st !! r = Some j ∧ P j ∧ Job.id j = Some i.

(** A job that [supersede_jobs] cancels. *)
Definition pre_execution (j : Job.t) : Prop := Job.status j ∈ ["PENDING"; "BLOCKED"].

(** The assignments of [update_status] for a status, a time and an error. *)
Definition status_update (now : Time) (status : string) (when : Time)
    (error : option Error) : Job.t → Job.t :=
  Assign.status_fields status when (bool_decide (status = "RUNNING"))
    (if bool_decide (status ∈ Job.FINAL_STATUSES) then Some when else None) error now.

(** The job executions of a batch come with their related job models. *)
Definition with_related_jobs (job_exes : list ref) (st : State) : Prop :=
  ∀ e, e ∈ job_exes →
    ∃ eo jr, job_exe_objs st !! e = Some eo ∧ JobExecution.job eo = Some jr ∧
             is_Some (job_objs st !! jr).

(** What [JobExecutionManager.update_status] leaves behind for an execution
    of its batch: the execution and its parent job carry the status, in
    memory and in the parent's row. *)
Definition status_cascaded (status : string) (st st' : State) (e : ref) : Prop :=
  ∃ eo jr j',
    job_exe_objs st' !! e = Some eo ∧
    JobExecution.status eo = Some status ∧
    JobExecution.job eo = Some jr ∧
    job_objs st' !! jr = Some j' ∧
    Job.status j' = status ∧
    ∀ i row, Job.id j' = Some i → job_rows (db st) !! i = Some row →
      ∃ row', job_rows (db st') !! i = Some row' ∧ Job.status row' = status.

(** A resource vector. *)
Definition vector_A : NodeResources :=
  <["disk" := 3%Q]> (<["mem" := 2%Q]> {["cpus" := 1%Q]}).

(** A heap with six vectors: [0] holds 1 cpu, 2 MiB of memory and 3 MiB of
    disk; [1] holds half a cpu and 128 MiB of memory; [2] holds the same
    values as [0] and [5] the same values as [1], each in objects of its
    own; [3] names a resource that [0] lacks; [4] holds 2^53 cpus. *)
Definition sample_heap : Heap :=
  {| resources_at :=
       list_to_map
         [ (0%nat, ScalarResource.mk "cpus" 1); (1%nat, ScalarResource.mk "mem" 2);
           (2%nat, ScalarResource.mk "disk" 3);
           (3%nat, ScalarResource.mk "cpus" 0.5); (4%nat, ScalarResource.mk "mem" 128);
           (5%nat, ScalarResource.mk "disk" 0);
           (6%nat, ScalarResource.mk "cpus" 1); (7%nat, ScalarResource.mk "mem" 2);
           (8%nat, ScalarResource.mk "disk" 3);
           (9%nat, ScalarResource.mk "cpus" 1); (10%nat, ScalarResource.mk "mem" 0);
           (11%nat, ScalarResource.mk "disk" 0); (12%nat, ScalarResource.mk "gpus" 1);
           (13%nat, ScalarResource.mk "cpus" 9007199254740992);
           (14%nat, ScalarResource.mk "mem" 0); (15%nat, ScalarResource.mk "disk" 0);
           (16%nat, ScalarResource.mk "cpus" 0.5); (17%nat, ScalarResource.mk "mem" 128);
           (18%nat, ScalarResource.mk "disk" 0) ];
     vectors_at :=
       list_to_map
         [ (0%nat, list_to_map [("cpus", 0%nat); ("mem", 1%nat); ("disk", 2%nat)]);
           (1%nat, list_to_map [("cpus", 3%nat); ("mem", 4%nat); ("disk", 5%nat)]);
           (2%nat, list_to_map [("cpus", 6%nat); ("mem", 7%nat); ("disk", 8%nat)]);
           (3%nat, list_to_map [("cpus", 9%nat); ("mem", 10%nat); ("disk", 11%nat);
                                ("gpus", 12%nat)]);
           (4%nat, list_to_map [("cpus", 13%nat); ("mem", 14%nat); ("disk", 15%nat)]);
           (5%nat, list_to_map [("cpus", 16%nat); ("mem", 17%nat); ("disk", 18%nat)]) ] |}.

(** Unfolding one step of a manager computation. *)
Ltac run_step :=
  unfold bind, deref, assign, ret, raise, lift, get_db, modify_db.


(** Sample rows and instances: a job type at revision 2 with the resource
    formula of the specification's scenario, three jobs (PENDING with data,
    RUNNING and superseding job 1, BLOCKED without data), the outputs of two
    executions of job 2, and two input files of 4 MiB and 6 MiB. *)
Definition sample_job_type : JobType.t :=
  {| JobType.id := 7; JobType.name := "parse"; JobType.version := "1.0";
     JobType.is_active := true; JobType.interface := [("version", "1.0")];
     JobType.revision_num := 2; JobType.priority := 100; JobType.timeout := 1800;
     JobType.max_tries := 3; JobType.cpus_required := 1%Q;
     JobType.mem_const_required := 64%Q; JobType.mem_mult_required := 0%Q;
     JobType.disk_out_const_required := 64%Q; JobType.disk_out_mult_required := 1%Q;
     JobType.custom_resources := ∅ |}.

Definition sample_revs : list JobTypeRevision.t :=
  [ JobTypeRevision.mk 10 7 1 []; JobTypeRevision.mk 11 7 2 [("version", "1.0")] ].

Definition sample_rev : JobTypeRevision.t := JobTypeRevision.mk 11 7 2 [("version", "1.0")].

Definition sample_job (key : Z) (status : string) (data : json) (root : option Z) : Job.t :=
  {| Job.id := Some key; Job.job_type := Some sample_job_type;
     Job.job_type_rev := Some sample_rev; Job.status := status;
     Job.event := Some 1; Job.error := None; Job.data := data; Job.results := [];
     Job.priority := 100; Job.timeout := 1800; Job.max_tries := 3;
     Job.num_exes := 1;
     Job.disk_in_required := None; Job.disk_out_required := None;
     Job.is_superseded := false; Job.root_superseded_job_id := root;
     Job.superseded_job_id := root; Job.delete_superseded := true;
     Job.created := Some 1; Job.queued := None; Job.started := None;
     Job.ended := None; Job.last_status_change := None; Job.superseded := None;
     Job.last_modified := Some 1 |}.

Definition sample_data : json := [("version", "1.0")].

Definition job_1 : Job.t := sample_job 1 "PENDING" sample_data None.
Definition job_2 : Job.t := sample_job 2 "RUNNING" sample_data (Some 1).
Definition job_3 : Job.t := sample_job 3 "BLOCKED" [] None.

Definition sample_exe : JobExecution.t :=
  {| JobExecution.id := Some 5; JobExecution.job_id := 2; JobExecution.job := Some 1%nat;
     JobExecution.exe_num := Some 1; JobExecution.timeout := 1800;
     JobExecution.status := Some "RUNNING"; JobExecution.error := None;
     JobExecution.queued := Some 2; JobExecution.started := Some 3;
     JobExecution.ended := None; JobExecution.last_modified := Some 3 |}.

Definition sample_db : DB :=
  {| job_rows := <[3 := job_3]> (<[2 := job_2]> {[1 := job_1]});
     job_exe_rows := {[5 := sample_exe]};
     job_exe_output_rows :=
       [ JobExecutionOutput.mk 5 2 1 [("output", "first")];
         JobExecutionOutput.mk 6 2 2 [("output", "second")] ];
     job_type_rev_rows := sample_revs;
     job_input_file_rows := [];
     scale_file_rows :=
       <[22 := ScaleFile.mk 22 (6 * 1024 * 1024)]> {[21 := ScaleFile.mk 21 (4 * 1024 * 1024)]};
     file_ancestry_links := [];
     batch_job_rows := [];
     batch_completed_jobs := ∅ |}.

Definition sample_state : State :=
  {| db := sample_db;
     job_objs := <[2%nat := job_3]> (<[1%nat := job_2]> {[0%nat := job_1]});
     job_exe_objs := {[0%nat := sample_exe]} |}.

Definition sample_job_data : JobData.t :=
  {| JobData.get_dict := [("version", "1.0"); ("input_data", "files 21, 22")];
     JobData.get_input_file_ids := [21; 22];
     JobData.get_input_file_info := [(21, "first"); (22, "second")] |}.

Definition sample_error : Error := {| error_id := 4; error_name := "timeout" |}.

(** ** Predicates of the further properties *)

(** A resource that the constructor of a resource vector accepts. *)
Definition is_scalar (resource : Resource.t) : Prop :=
  Resource.resource_type resource = "SCALAR".

(** ** More of [JobManager]: [increment_max_tries], [update_jobs_to_canceled] *)

Module MoreAssign.
Import Job.

(** [increment_max_tries] *)
Definition one_more_try (modified : Time) (job : Job.t) : Job.t :=
  {| id := id job; job_type := job_type job; job_type_rev := job_type_rev job;
     status := status job; event := event job; error := error job;
     data := data job; results := results job;
     priority := priority job; timeout := timeout job;
     max_tries := num_exes job + 1;
     num_exes := num_exes job;
     disk_in_required := disk_in_required job; disk_out_required := disk_out_required job;
     is_superseded := is_superseded job;
     root_superseded_job_id := root_superseded_job_id job;
     superseded_job_id := superseded_job_id job;
     delete_superseded := delete_superseded job;
     created := created job; queued := queued job; started := started job;
     ended := ended job; last_status_change := last_status_change job;
     superseded := superseded job; last_modified := Some modified |}.

(** [update_jobs_to_canceled] *)
Definition canceled (when modified : Time) (job : Job.t) : Job.t :=
  {| id := id job; job_type := job_type job; job_type_rev := job_type_rev job;
     status := "CANCELED"; event := event job; error := error job;
     data := data job; results := results job;
     priority := priority job; timeout := timeout job; max_tries := max_tries job;
     num_exes := num_exes job;
     disk_in_required := disk_in_required job; disk_out_required := disk_out_required job;
     is_superseded := is_superseded job;
     root_superseded_job_id := root_superseded_job_id job;
     superseded_job_id := superseded_job_id job;
     delete_superseded := delete_superseded job;
     created := created job; queued := queued job; started := started job;
     ended := ended job; last_status_change := Some when;
     superseded := superseded job; last_modified := Some modified |}.
End MoreAssign.

(** The loop of [increment_max_tries]. *)
Fixpoint increment_max_tries_loop (modified : Time) (jobs : list ref)
    (job_ids : gset Z) : M (gset Z) :=
  match jobs with
  | [] => ret job_ids
  | job :: rest =>
      let* j := deref job in
      do assign job (MoreAssign.one_more_try modified j) in
      increment_max_tries_loop modified rest (add_id (Job.id j) job_ids)
  end.

Definition JobManager_increment_max_tries (now : Time) (jobs : list ref) : M unit :=
  let modified := now in
  (* Update job models in memory and collect job IDs *)
  let* job_ids := increment_max_tries_loop modified jobs ∅ in
  (* Update job models in database with single query *)
  update_jobs job_ids (MoreAssign.one_more_try modified).

(** The loop of [update_jobs_to_canceled]. *)
Fixpoint cancelable_loop (locked_jobs : list Job.t) (jobs_to_update : list (option Z))
  : list (option Z) :=
  match locked_jobs with
  | [] => jobs_to_update
  | locked_job :: rest =>
      if Job.can_be_canceled locked_job
      then cancelable_loop rest (jobs_to_update ++ [Job.id locked_job])
      else cancelable_loop rest jobs_to_update
  end.

Definition JobManager_update_jobs_to_canceled (now : Time) (job_ids : list Z)
    (when : Time) : M unit :=
  atomic (
    let* locked_jobs := JobManager.get_locked_jobs job_ids in
    let jobs_to_update := cancelable_loop locked_jobs [] in
    if truthy jobs_to_update
    then
      (* Update job models in database *)
      update_jobs (JobManager.id_set jobs_to_update) (MoreAssign.canceled when now)
    else ret tt).

(** A table in which every row is filed under its own id. *)
Definition rows_keyed (rows : gmap Z Job.t) : Prop :=
  ∀ i row, rows !! i = Some row → Job.id row = Some i.

(** The invariant of a job: it carries an error exactly when it is FAILED. *)
Definition error_iff_failed (j : Job.t) : Prop :=
  Job.status j = "FAILED" ↔ is_Some (Job.error j).

(** Every job instance of the store keeps the invariant. *)
Definition store_keeps (P : Job.t → Prop) (st : State) : Prop :=
  ∀ r j, job_objs st !! r = Some j → P j.

(** ** The error catalogue and its cache ([scale/error/models.py]) *)

(** A row of table [error] with all its columns. *)
Module ErrorModel.
Record t := mk {
  id : Z;
  name : string;
  title : option string;
  description : option string;
  category : string;
  is_builtin : bool;
  should_be_retried : bool;
  created : Time;
  last_modified : Time
}.
End ErrorModel.

Module ErrorManager.
(** The module-level dictionary [CACHED_ERRORS], {name: error model}. *)
Abbreviation Cache := (gmap string ErrorModel.t).

Definition named (name : string) (error : ErrorModel.t) : bool :=
  bool_decide (ErrorModel.name error = name).

(** [cache_builtin_errors()]; [rows] is the table in the order the query
    yields it. *)
Definition cache_builtin_errors (rows : list ErrorModel.t) (CACHED_ERRORS : Cache)
  : Cache :=
  foldl (λ cache error, <[ErrorModel.name error := error]> cache) CACHED_ERRORS
        (List.filter ErrorModel.is_builtin rows).

(** [get_error(name)]: the result and the cache it leaves. *)
Definition get_error (name : string) (rows : list ErrorModel.t) (CACHED_ERRORS : Cache)
  : result ErrorModel.t * Cache :=
  match CACHED_ERRORS !! name with
  | None =>
      match objects_get (named name) rows with
      | Ok error => (Ok error, <[name := error]> CACHED_ERRORS)
      | Raise e => (Raise e, CACHED_ERRORS)
      end
  | Some error => (Ok error, CACHED_ERRORS)
  end.

Definition get_unknown_error : list ErrorModel.t → Cache → result ErrorModel.t * Cache :=
  get_error "unknown".

(** Every entry of the cache is filed under its own name. *)
Definition cache_named (cache : Cache) : Prop :=
  ∀ name error, cache !! name = Some error → ErrorModel.name error = name.
End ErrorManager.

(** ** Cluster ids of job executions *)

(** [s.split(sep)] for a one-character separator. *)
Fixpoint split (sep : Ascii.ascii) (s : string) : list string :=
  match s with
  | EmptyString => [EmptyString]
  | String c rest =>
      if Ascii.eqb c sep then EmptyString :: split sep rest
      else match split sep rest with
           | [] => [String c EmptyString]
           | segment :: segments => String c segment :: segments
           end
  end.

(** [sep.join(segments)] *)
Fixpoint join (sep : string) (segments : list string) : string :=
  match segments with
  | [] => EmptyString
  | [segment] => segment
  | segment :: rest => segment ++ sep ++ join sep rest
  end.

(** ['%d' % n] *)
Definition fmt_d (n : Z) : string := NilZero.string_of_int (Z.to_int n).

(** [JobExecution.parse_cluster_id(task_id)] *)
Definition parse_cluster_id (task_id : string) : string :=
  let segments := split "_"%char task_id in
  join "_" (take 4 segments).

(** The value [set_cluster_id(framework_id, job_id, exe_num)] stores in
    [cluster_id]; the prefix constant is defined outside these sources. *)
Definition set_cluster_id (JOB_TASK_ID_PREFIX framework_id : string) (job_id exe_num : Z)
  : string :=
  JOB_TASK_ID_PREFIX ++ "_" ++ framework_id ++ "_" ++ fmt_d job_id ++ "x" ++ fmt_d exe_num.

(** [get_cluster_id()] of a saved execution with primary key [pk]. *)
Definition get_cluster_id (cluster_id : option string) (pk : Z) : string :=
  match cluster_id with
  | Some c => if decide (c = EmptyString) then "scale_" ++ fmt_d pk else c
  | None => "scale_" ++ fmt_d pk
  end.

(** The characters of a string. *)
Fixpoint chars (s : string) : list Ascii.ascii :=
  match s with
  | EmptyString => []
  | String c rest => c :: chars rest
  end.

(** ** The database updater ([scale/scheduler/database/updater.py]) *)

(** A row of table [job_exe] as the updater sees it: the key columns, the
    cluster id and the old columns that are moved to [job_exe_end] and
    [job_exe_output]. [job_type_id_of_job] is [job.job_type_id] of the job
    that [select_related] loads with the row. *)
Module JobExeRow.
Record t := mk {
  id : Z;
  job_id : Z;
  job_type_id_of_job : Z;
  exe_num : option Z;
  cluster_id : option string;
  node_id : option Z;
  queued : Time;
  started : option Time;
  status : option string;
  error_id : option Z;
  command_arguments : option string;
  environment : option json;
  cpus_scheduled : option Q;
  mem_scheduled : option Q;
  disk_out_scheduled : option Q;
  disk_total_scheduled : option Q;
  pre_started : option Time;
  pre_completed : option Time;
  pre_exit_code : option Z;
  job_started : option Time;
  job_completed : option Time;
  job_exit_code : option Z;
  job_metrics : option json;
  post_started : option Time;
  post_completed : option Time;
  post_exit_code : option Z;
  stdout : option string;
  stderr : option string;
  results_manifest : option json;
  results : option json;
  ended : option Time;
  last_modified : option Time
}.

(** [job_exe.get_cluster_id()] *)
Definition get_cluster_id (job_exe : t) : string :=
  get_cluster_id (cluster_id job_exe) (id job_exe).
End JobExeRow.

(** One entry of the task list given to [TaskResults]. *)
Module TaskDict.
Record t := mk {
  task_id : string;
  type : string;
  was_launched : bool;
  was_started : bool;
  started : string;
  ended : option string;
  exit_code : option Z
}.
End TaskDict.

(** The [JobExecutionEnd] model the updater fills in. *)
Module JobExecutionEnd.
Record t := mk {
  job_exe_id : Z;
  job_id : Z;
  job_type_id : Z;
  exe_num : Z;
  task_results : json;
  status : option string;
  error_id : option Z;
  node_id : option Z;
  queued : Time;
  started : option Time;
  ended : option Time
}.
End JobExecutionEnd.

(** The [JobExecutionOutput] model the updater fills in. *)
Module JobExecutionOutputModel.
Record t := mk {
  job_exe_id : Z;
  job_id : Z;
  job_type_id : Z;
  exe_num : Z;
  output : option json
}.
End JobExecutionOutputModel.

Module DatabaseUpdater.
(** The updater object. *)
Record t := mk {
  _running : bool;
  _updated_job_exe : Z;
  _total_job_exe : Z
}.

(** [order_by('job_id', 'id')] *)
Definition by_job_then_id (a b : JobExeRow.t) : Prop :=
  JobExeRow.job_id a < JobExeRow.job_id b ∨
  (JobExeRow.job_id a = JobExeRow.job_id b ∧ JobExeRow.id a ≤ JobExeRow.id b).

#[global] Instance by_job_then_id_dec : RelDecision by_job_then_id.
Proof. intros a b. unfold by_job_then_id. apply _. Defined.

#[global] Instance by_job_then_id_trans : Transitive by_job_then_id.
Proof. intros a b c. unfold by_job_then_id. lia. Qed.

#[global] Instance by_job_then_id_total : Total by_job_then_id.
Proof. intros a b. unfold by_job_then_id. lia. Qed.

(** The job ids of the rows of the first query. *)
Definition page_job_ids (page : list JobExeRow.t) : gset Z :=
  foldl (λ job_ids job_exe, {[JobExeRow.job_id job_exe]} ∪ job_ids) ∅ page.

(** The second query: all executions of these jobs, by job and id. *)
Definition job_exe_qry (job_ids : gset Z) (table : list JobExeRow.t) : list JobExeRow.t :=
  merge_sort by_job_then_id (filter (λ job_exe, JobExeRow.job_id job_exe ∈ job_ids) table).

(** [filter(id__in=ids).update(...)] on a table held as a list of rows. *)
Definition update_where (ids : list Z) (f : JobExeRow.t → JobExeRow.t)
    (table : list JobExeRow.t) : list JobExeRow.t :=
  map (λ row, if decide (JobExeRow.id row ∈ ids) then f row else row) table.

(** The keyword arguments of the [update] call. *)
Definition converted (exe_num : Z) (row : JobExeRow.t) : JobExeRow.t :=
  {| JobExeRow.id := JobExeRow.id row;
     JobExeRow.job_id := JobExeRow.job_id row;
     JobExeRow.job_type_id_of_job := JobExeRow.job_type_id_of_job row;
     JobExeRow.exe_num := Some exe_num;
     JobExeRow.cluster_id := JobExeRow.cluster_id row;
     JobExeRow.node_id := JobExeRow.node_id row;
     JobExeRow.queued := JobExeRow.queued row;
     JobExeRow.started := JobExeRow.started row;
     JobExeRow.status := None;
     JobExeRow.error_id := None;
     JobExeRow.command_arguments := None;
     JobExeRow.environment := None;
     JobExeRow.cpus_scheduled := None;
     JobExeRow.mem_scheduled := None;
     JobExeRow.disk_out_scheduled := None;
     JobExeRow.disk_total_scheduled := None;
     JobExeRow.pre_started := None;
     JobExeRow.pre_completed := None;
     JobExeRow.pre_exit_code := None;
     JobExeRow.job_started := None;
     JobExeRow.job_completed := None;
     JobExeRow.job_exit_code := None;
     JobExeRow.job_metrics := None;
     JobExeRow.post_started := None;
     JobExeRow.post_completed := None;
     JobExeRow.post_exit_code := None;
     JobExeRow.stdout := None;
     JobExeRow.stderr := None;
     JobExeRow.results_manifest := None;
     JobExeRow.results := None;
     JobExeRow.ended := None;
     JobExeRow.last_modified := None |}.

(** The variables of the loop over the second query. *)
Record Loop := mkLoop {
  job_exe_count : Z;
  current_job_id : option Z;
  current_exe_num : Z;
  exe_num_dict : gmap Z (list Z);
  job_exe_end_models : list JobExecutionEnd.t;
  job_exe_output_models : list JobExecutionOutputModel.t
}.

(** The number of an execution among the executions of its job, by id. *)
Definition rank (table : list JobExeRow.t) (job_exe : JobExeRow.t) : Z :=
  1 + Z.of_nat (length (filter (λ other, JobExeRow.job_id other = JobExeRow.job_id job_exe ∧
                                         JobExeRow.id other < JobExeRow.id job_exe) table)).

(** The rows that still wait for the conversion. *)
Definition unconverted (table : list JobExeRow.t) : list JobExeRow.t :=
  filter (λ row, JobExeRow.status row ≠ None) table.

Section WithTaskResults.
(** [util.parse.datetime_to_string] and [TaskResults({'tasks': l}).get_dict()],
    both defined outside these sources. *)
Variable datetime_to_string : Time → string.
Variable TaskResults_get_dict : list TaskDict.t → json.

(** The dictionary of one task; [suffix] and [type] are the two literals of
    the task. *)
Definition task_dict (job_exe : JobExeRow.t) (suffix type : string) (started : Time)
    (completed : option Time) (exit_code : option Z) : TaskDict.t :=
  {| TaskDict.task_id := JobExeRow.get_cluster_id job_exe ++ "_" ++ suffix;
     TaskDict.type := type;
     TaskDict.was_launched := true;
     TaskDict.was_started := true;
     TaskDict.started := datetime_to_string started;
     TaskDict.ended := datetime_to_string <$> completed;
     TaskDict.exit_code := exit_code |}.

Definition task_list (job_exe : JobExeRow.t) : list TaskDict.t :=
  (match JobExeRow.pre_started job_exe with
   | Some started =>
       [task_dict job_exe "pre" "pre" started (JobExeRow.pre_completed job_exe)
                  (JobExeRow.pre_exit_code job_exe)]
   | None => []
   end ++
   match JobExeRow.job_started job_exe with
   | Some started =>
       [task_dict job_exe "job" "main" started (JobExeRow.job_completed job_exe)
                  (JobExeRow.job_exit_code job_exe)]
   | None => []
   end ++
   match JobExeRow.post_started job_exe with
   | Some started =>
       [task_dict job_exe "post" "post" started (JobExeRow.post_completed job_exe)
                  (JobExeRow.post_exit_code job_exe)]
   | None => []
   end)%list.

Definition end_model (current_exe_num : Z) (job_exe : JobExeRow.t) : JobExecutionEnd.t :=
  {| JobExecutionEnd.job_exe_id := JobExeRow.id job_exe;
     JobExecutionEnd.job_id := JobExeRow.job_id job_exe;
     JobExecutionEnd.job_type_id := JobExeRow.job_type_id_of_job job_exe;
     JobExecutionEnd.exe_num := current_exe_num;
     JobExecutionEnd.task_results := TaskResults_get_dict (task_list job_exe);
     JobExecutionEnd.status := JobExeRow.status job_exe;
     JobExecutionEnd.error_id := JobExeRow.error_id job_exe;
     JobExecutionEnd.node_id := JobExeRow.node_id job_exe;
     JobExecutionEnd.queued := JobExeRow.queued job_exe;
     JobExecutionEnd.started := JobExeRow.started job_exe;
     JobExecutionEnd.ended := JobExeRow.ended job_exe |}.

Definition output_model (current_exe_num : Z) (job_exe : JobExeRow.t)
  : JobExecutionOutputModel.t :=
  {| JobExecutionOutputModel.job_exe_id := JobExeRow.id job_exe;
     JobExecutionOutputModel.job_id := JobExeRow.job_id job_exe;
     JobExecutionOutputModel.job_type_id := JobExeRow.job_type_id_of_job job_exe;
     JobExecutionOutputModel.exe_num := current_exe_num;
     JobExecutionOutputModel.output := JobExeRow.results job_exe |}.

Definition has_final_status (job_exe : JobExeRow.t) : Prop :=
  ∃ status, JobExeRow.status job_exe = Some status ∧
            status ∈ ["COMPLETED"; "FAILED"; "CANCELED"].

#[global] Instance has_final_status_dec job_exe : Decision (has_final_status job_exe).
Proof.
  unfold has_final_status. destruct (JobExeRow.status job_exe) as [status|].
  - destruct (decide (status ∈ ["COMPLETED"; "FAILED"; "CANCELED"])).
    + left. by exists status.
    + right. intros (s & [= <-] & Hs). done.
  - right. by intros (s & [=] & _).
Defined.

(** One pass of the body of the loop. *)
Definition loop_body (vars : Loop) (job_exe : JobExeRow.t) : Loop :=
  let job_exe_count := job_exe_count vars + 1 in
  let '(current_job_id, current_exe_num) :=
    if decide (Some (JobExeRow.job_id job_exe) = current_job_id vars)
    then (current_job_id vars, current_exe_num vars + 1)
    else (Some (JobExeRow.job_id job_exe), 1) in
  (* This job_exe model needs to be updated with its exe_num *)
  let exe_num_dict :=
    match exe_num_dict vars !! current_exe_num with
    | Some job_exe_ids =>
        <[current_exe_num := (job_exe_ids ++ [JobExeRow.id job_exe])%list]> (exe_num_dict vars)
    | None => <[current_exe_num := [JobExeRow.id job_exe]]> (exe_num_dict vars)
    end in
  let job_exe_end_models :=
    if decide (has_final_status job_exe)
    then (job_exe_end_models vars ++ [end_model current_exe_num job_exe])%list
    else job_exe_end_models vars in
  let job_exe_output_models :=
    if decide (JobExeRow.status job_exe = Some "COMPLETED")
    then (job_exe_output_models vars ++ [output_model current_exe_num job_exe])%list
    else job_exe_output_models vars in
  mkLoop job_exe_count current_job_id current_exe_num exe_num_dict
         job_exe_end_models job_exe_output_models.

Definition loop_start : Loop := mkLoop 0 None 1 ∅ [] [].

(** What one iteration leaves: the table [job_exe], the models handed to the
    two [bulk_create] calls, and the updater. The tables [job_exe_end] and
    [job_exe_output] are not part of the model: the iteration is described
    for inserts that the database accepts. *)
Record Iteration := mkIteration {
  job_exe_table : list JobExeRow.t;
  created_ends : list JobExecutionEnd.t;
  created_outputs : list JobExecutionOutputModel.t;
  updater : t
}.

(** [_perform_update_iteration()]; [page] is what the first query returns,
    at most 500 of the rows whose status is not null. The progress line
    printed at the end is not part of the model. *)
Definition perform_update_iteration (self : t) (page : list JobExeRow.t)
    (table : list JobExeRow.t) : Iteration :=
  (* Retrieve 500 job executions that need to be updated and get job IDs *)
  let job_ids := page_job_ids page in
  (* Retrieve all job executions for those jobs in sorted order *)
  let vars := foldl loop_body loop_start (job_exe_qry job_ids table) in
  (* Update/create models in an atomic transaction *)
  let table' :=
    map_fold (λ exe_num job_exe_ids rows, update_where job_exe_ids (converted exe_num) rows)
             table (exe_num_dict vars) in
  mkIteration table' (job_exe_end_models vars) (job_exe_output_models vars)
    (mk (_running self) (_updated_job_exe self + job_exe_count vars) (_total_job_exe self)).
(** What holds of the loop variables when the rows [pre] of the query result
    [l] have been visited. *)
Definition loop_inv (l pre : list JobExeRow.t) (vars : Loop) : Prop :=
  job_exe_count vars = Z.of_nat (length pre) ∧
  current_job_id vars = JobExeRow.job_id <$> last pre ∧
  (∀ j, current_job_id vars = Some j →
     current_exe_num vars
     = Z.of_nat (length (filter (λ other, JobExeRow.job_id other = j) pre))) ∧
  (∀ n i, (∃ ids, exe_num_dict vars !! n = Some ids ∧ i ∈ ids)
          ↔ ∃ x, x ∈ pre ∧ JobExeRow.id x = i ∧ rank l x = n) ∧
  job_exe_end_models vars
  = (λ x, end_model (rank l x) x) <$> filter has_final_status pre ∧
  job_exe_output_models vars
  = (λ x, output_model (rank l x) x)
      <$> filter (λ x, JobExeRow.status x = Some "COMPLETED") pre.
End WithTaskResults.

End DatabaseUpdater.

(** ** Sample rows of the error and job execution tables *)

Definition sample_errors : list ErrorModel.t :=
  [ ErrorModel.mk 1 "unknown" (Some "Unknown") None "SYSTEM" true false 1 1;
    ErrorModel.mk 2 "timeout" (Some "Timed out") None "SYSTEM" true true 1 1;
    ErrorModel.mk 3 "bad-data" None None "DATA" false false 2 2 ].

(** An old-style row: no number, no cluster id, tasks not recorded. *)
Definition sample_exe_row (id job_id : Z) (status : option string) : JobExeRow.t :=
  {| JobExeRow.id := id; JobExeRow.job_id := job_id;
     JobExeRow.job_type_id_of_job := 7;
     JobExeRow.exe_num := None; JobExeRow.cluster_id := None;
     JobExeRow.node_id := Some 1; JobExeRow.queued := 2;
     JobExeRow.started := Some 3; JobExeRow.status := status;
     JobExeRow.error_id := None; JobExeRow.command_arguments := None;
     JobExeRow.environment := None; JobExeRow.cpus_scheduled := None;
     JobExeRow.mem_scheduled := None; JobExeRow.disk_out_scheduled := None;
     JobExeRow.disk_total_scheduled := None;
     JobExeRow.pre_started := None; JobExeRow.pre_completed := None;
     JobExeRow.pre_exit_code := None;
     JobExeRow.job_started := Some 4; JobExeRow.job_completed := Some 5;
     JobExeRow.job_exit_code := Some 0; JobExeRow.job_metrics := None;
     JobExeRow.post_started := None; JobExeRow.post_completed := None;
     JobExeRow.post_exit_code := None;
     JobExeRow.stdout := None; JobExeRow.stderr := None;
     JobExeRow.results_manifest := None;
     JobExeRow.results := Some [("output", "first")];
     JobExeRow.ended := Some 6; JobExeRow.last_modified := Some 6 |}.

Definition sample_exe_rows : list JobExeRow.t :=
  [ sample_exe_row 4 11 (Some "RUNNING");
    sample_exe_row 2 10 (Some "COMPLETED");
    sample_exe_row 1 10 (Some "FAILED");
    sample_exe_row 3 12 None ].

Definition sample_page : list JobExeRow.t := [ sample_exe_row 2 10 (Some "COMPLETED") ].

Definition sample_updater : DatabaseUpdater.t := DatabaseUpdater.mk true 0 3.

(** * Properties *)

(** ** Resource vector *)

Section NodeResourcesFacts.
Implicit Types self other : NodeResources.

Lemma add_lookup self other name :
  NodeResources.add self other !! name =
  match self !! name, other !! name with
  | Some a, Some b => Some (a + b)%Q
  | Some a, None => Some a
  | None, o => o
  end.
Proof.
  unfold NodeResources.add.
  apply (map_fold_weak_ind
           (λ r m, r !! name = match self !! name, m !! name with
                               | Some a, Some b => Some (a + b)%Q
                               | Some a, None => Some a
                               | None, o => o
                               end)).
  - rewrite lookup_empty. by destruct (self !! name).
  - intros i x m r Hi IH. unfold NodeResources.add_step.
    destruct (decide (i = name)) as [->|Hne].
    + rewrite Hi in IH. rewrite lookup_insert_eq.
      destruct (self !! name) eqn:Hs; rewrite IH;
        by rewrite lookup_insert_eq.
    + rewrite (lookup_insert_ne m) by done.
      destruct (r !! i); by rewrite lookup_insert_ne.
Qed.

Lemma subtract_lookup self other name :
  NodeResources.subtract self other !! name =
  match self !! name, other !! name with
  | Some a, Some b => Some (a - b)%Q
  | o, _ => o
  end.
Proof.
  unfold NodeResources.subtract.
  apply (map_fold_weak_ind
           (λ r m, r !! name = match self !! name, m !! name with
                               | Some a, Some b => Some (a - b)%Q
                               | o, _ => o
                               end)).
  - rewrite lookup_empty. by destruct (self !! name).
  - intros i x m r Hi IH. unfold NodeResources.subtract_step.
    destruct (decide (i = name)) as [->|Hne].
    + rewrite Hi in IH. rewrite lookup_insert_eq.
      destruct (self !! name) eqn:Hs; rewrite IH; [|done].
      by rewrite lookup_insert_eq.
    + rewrite (lookup_insert_ne m) by done.
      destruct (r !! i); [by rewrite lookup_insert_ne | done].
Qed.

End NodeResourcesFacts.


(** ** The resource vector as objects: adding and subtracting again *)

Section HeapFacts.
Import HeapNodeResources.

(** What one pass of a loop does to the object it updates. *)
Let bump (op : float → float → float) (operand : float) (object : ScalarResource.t)
  : ScalarResource.t :=
  ScalarResource.mk (ScalarResource.name object) (op (ScalarResource.value object) operand).

(** A pass of a loop as data: the resource visited, its name, the object of
    [self] under that name, and the value of the resource. *)
Let pass : Type := ref * string * ref * float.
Let source (p : pass) : ref := p.1.1.1.
Let target (p : pass) : ref := p.1.2.
Let operand (p : pass) : float := p.2.

Lemma add_step_alter self h resource name value mine :
  resources_at h !! resource = Some (ScalarResource.mk name value) →
  dict_of h self !! name = Some mine →
  add_step self h resource
  = mkHeap (alter (bump PrimFloat.add value) mine (resources_at h)) (vectors_at h).
Proof.
  intros Hres Hmine. unfold add_step, resource_at. rewrite Hres. simpl.
  rewrite Hmine. unfold set_value. f_equal.
  apply alter_ext. intros object Hobj. unfold bump. by rewrite Hobj.
Qed.

Lemma subtract_step_alter self h resource name value mine :
  resources_at h !! resource = Some (ScalarResource.mk name value) →
  dict_of h self !! name = Some mine →
  subtract_step self h resource
  = mkHeap (alter (bump PrimFloat.sub value) mine (resources_at h)) (vectors_at h).
Proof.
  intros Hres Hmine. unfold subtract_step, resource_at. rewrite Hres. simpl.
  rewrite Hmine. unfold set_value. f_equal.
  apply alter_ext. intros object Hobj. unfold bump. by rewrite Hobj.
Qed.

Lemma fold_alter_notin (f : float → ScalarResource.t → ScalarResource.t)
    (passes : list pass) (res : gmap ref ScalarResource.t) (x : ref) :
  x ∉ target <$> passes →
  foldl (λ res p, alter (f (operand p)) (target p) res) res passes !! x = res !! x.
Proof.
  revert res. induction passes as [|p rest IH]; intros res Hx; [done|].
  rewrite fmap_cons in Hx. apply not_elem_of_cons in Hx as [Hne Hx].
  simpl. rewrite IH by done. by rewrite lookup_alter_ne.
Qed.

Lemma fold_alter_in (f : float → ScalarResource.t → ScalarResource.t)
    (passes : list pass) (res : gmap ref ScalarResource.t) (p : pass) :
  NoDup (target <$> passes) → p ∈ passes →
  foldl (λ res p, alter (f (operand p)) (target p) res) res passes !! target p
  = f (operand p) <$> res !! target p.
Proof.
  revert res. induction passes as [|q rest IH]; intros res Hnd Hp;
    [by apply elem_of_nil in Hp|].
  rewrite fmap_cons in Hnd. apply NoDup_cons in Hnd as [Hq Hnd].
  simpl. apply elem_of_cons in Hp as [->|Hp].
  - rewrite fold_alter_notin by done. by rewrite lookup_alter_eq.
  - rewrite IH by done. rewrite lookup_alter_ne; [done|].
    intros Heq. apply Hq. rewrite Heq. apply list_elem_of_fmap. by exists p.
Qed.

Section Loop.
Variable step : ref → Heap → ref → Heap.
Variable op : float → float → float.
Hypothesis step_alter : ∀ self h resource name value mine,
  resources_at h !! resource = Some (ScalarResource.mk name value) →
  dict_of h self !! name = Some mine →
  step self h resource
  = mkHeap (alter (bump op value) mine (resources_at h)) (vectors_at h).

Lemma fold_steps self vec (passes : list pass) :
  (∀ p q, p ∈ passes → q ∈ passes → target p ≠ source q) →
  ∀ res,
    (∀ p, p ∈ passes →
       res !! source p = Some (ScalarResource.mk p.1.1.2 (operand p)) ∧
       dict_of (mkHeap res vec) self !! p.1.1.2 = Some (target p)) →
    foldl (step self) (mkHeap res vec) (source <$> passes)
    = mkHeap (foldl (λ res p, alter (bump op (operand p)) (target p) res) res passes) vec.
Proof.
  intros Hapart. induction passes as [|p rest IH]; intros res Hok; [done|].
  simpl. destruct (Hok p) as [Hsrc Hdict]; [by left|].
  rewrite (step_alter self (mkHeap res vec) (source p) p.1.1.2 (operand p) (target p)
             Hsrc Hdict). cbn [resources_at vectors_at].
  apply IH.
  - intros p1 p2 H1 H2. apply Hapart; by right.
  - intros q Hq. destruct (Hok q) as [Hsrc' Hdict']; [by right|].
    split; [|done]. rewrite lookup_alter_ne; [done|].
    apply Hapart; [by left|by right].
Qed.
End Loop.

(** On vectors that are filed by name and hold no object in common, with
    every name of the second a name of the first, [add] followed by
    [subtract] applies the two operations to each value in turn and touches
    nothing else. *)
Lemma add_subtract_heap (h : Heap) (A B : ref) :
  filed h A → filed h B → apart h A B →
  dom (dict_of h B) ⊆ dom (dict_of h A) →
  ∃ passes : list pass,
    NoDup (target <$> passes) ∧
    (∀ p, p ∈ passes →
       dict_of h A !! p.1.1.2 = Some (target p) ∧
       dict_of h B !! p.1.1.2 = Some (source p) ∧
       operand p = ScalarResource.value (resource_at h (source p))) ∧
    subtract A B (add A B h)
    = mkHeap
        (foldl (λ res p, alter (bump PrimFloat.sub (operand p)) (target p) res)
           (foldl (λ res p, alter (bump PrimFloat.add (operand p)) (target p) res)
              (resources_at h) passes)
           passes)
        (vectors_at h).
Proof.
  intros HA HB Hapart Hdom.
  set (dA := dict_of h A). set (dB := dict_of h B).
  set (mk_pass := λ entry : string * ref,
         ((entry.2, entry.1, default (0%nat : ref) (dA !! entry.1 : option ref),
           ScalarResource.value (resource_at h entry.2)) : pass)).
  set (passes := mk_pass <$> map_to_list dB).
  assert (Hpass : ∀ p, p ∈ passes →
            dA !! p.1.1.2 = Some (target p) ∧ dB !! p.1.1.2 = Some (source p) ∧
            operand p = ScalarResource.value (resource_at h (source p)) ∧
            resources_at h !! source p = Some (ScalarResource.mk p.1.1.2 (operand p))).
  { intros p Hp. apply list_elem_of_fmap in Hp as ([n rb] & -> & Hin).
    apply elem_of_map_to_list in Hin. unfold mk_pass, target, source, operand.
    cbn [fst snd].
    assert (is_Some (dA !! n)) as [ra Hra].
    { apply elem_of_dom, Hdom, elem_of_dom. by eexists. }
    rewrite Hra. simpl. split; [done|]. split; [done|]. split; [done|].
    destruct (HB n rb Hin) as [v Hv]. unfold resource_at. by rewrite Hv. }
  assert (Hsources : source <$> passes = resources h B).
  { unfold passes, resources. rewrite <- list_fmap_compose. by apply list_fmap_ext. }
  assert (Hnd : NoDup (target <$> passes)).
  { unfold passes. rewrite <- list_fmap_compose.
    apply NoDup_fmap_2_strong; [|apply NoDup_map_to_list].
    intros [n rb] [n' rb'] Hin Hin' Heq. unfold mk_pass, target in Heq.
    cbn [fst snd compose] in Heq.
    apply elem_of_map_to_list in Hin, Hin'.
    assert (is_Some (dA !! n)) as [ra Hra].
    { apply elem_of_dom, Hdom, elem_of_dom. by eexists. }
    assert (is_Some (dA !! n')) as [ra' Hra'].
    { apply elem_of_dom, Hdom, elem_of_dom. by eexists. }
    rewrite Hra, Hra' in Heq. simpl in Heq. subst ra'.
    destruct (HA n ra Hra) as [v Hv]. destruct (HA n' ra Hra') as [v' Hv'].
    assert (n = n') as -> by congruence.
    f_equal. unfold dB in *. congruence. }
  assert (Hsep : ∀ p q, p ∈ passes → q ∈ passes → target p ≠ source q).
  { intros p q Hp Hq. destruct (Hpass p Hp) as (Hra & _).
    destruct (Hpass q Hq) as (_ & Hrb & _). by eapply Hapart. }
  exists passes. split; [done|]. split.
  { intros p Hp. destruct (Hpass p Hp) as (? & ? & ? & _). done. }
  unfold add. rewrite <- Hsources. destruct h as [res vec].
  rewrite (fold_steps add_step PrimFloat.add add_step_alter A vec passes Hsep res).
  2:{ intros p Hp. destruct (Hpass p Hp) as (Hra & _ & _ & Hsrc). done. }
  unfold subtract.
  assert (Hsame : resources
                    (mkHeap (foldl (λ res p, alter (bump PrimFloat.add (operand p))
                                               (target p) res) res passes) vec) B
                  = source <$> passes).
  { by rewrite Hsources. }
  rewrite Hsame.
  rewrite (fold_steps subtract_step PrimFloat.sub subtract_step_alter A vec passes Hsep).
  - done.
  - intros p Hp. destruct (Hpass p Hp) as (Hra & _ & _ & Hsrc). split; [|done].
    rewrite fold_alter_notin; [done|].
    intros Hin. apply list_elem_of_fmap in Hin as (q & Heq & Hq).
    by apply (Hsep q p Hq Hp).
Qed.

(** [is_equal] answers False as soon as one resource of the other vector
    differs, after rounding, from the resource of the same name. *)
Lemma is_equal_differs (round : float → Z → float) (h : Heap) (A C : ref)
    (resource mine : ref) (name : string) (a c : float) :
  resource ∈ resources h C →
  resource_at h resource = ScalarResource.mk name c →
  dict_of h A !! name = Some mine →
  ScalarResource.value (resource_at h mine) = a →
  PrimFloat.eqb (round a 5) (round c 5) = false →
  is_equal round A C h = false.
Proof.
  intros Hin Hres Hmine Ha Hround. unfold is_equal.
  destruct (same_names A C h); [|done]. simpl.
  apply not_true_is_false. intros Hall. rewrite forallb_forall in Hall.
  specialize (Hall resource). rewrite <- list_elem_of_In in Hall.
  specialize (Hall Hin). unfold same_rounded in Hall.
  rewrite Hres in Hall. simpl in Hall. rewrite Hmine, Ha in Hall. congruence.
Qed.

End HeapFacts.

(** ** Rows, keys and the loops of the job manager *)

Lemma bind_ok {A B} (m : M A) (k : A → M B) st a st' :
  m st = (Ok a, st') → bind m k st = k a st'.
Proof. unfold bind. by intros ->. Qed.

Lemma deref_exe_ok e eo st :
  job_exe_objs st !! e = Some eo → deref_exe e st = (Ok eo, st).
Proof. unfold deref_exe. by intros ->. Qed.

Lemma related_job_populated e eo jr st :
  job_exe_objs st !! e = Some eo → JobExecution.job eo = Some jr →
  JobExecutionManager.related_job e st = (Ok jr, st).
Proof.
  intros He Hjob. unfold JobExecutionManager.related_job.
  rewrite (bind_ok _ _ _ _ _ (deref_exe_ok _ _ _ He)). by rewrite Hjob.
Qed.

Lemma update_rows_lookup {A} (ids : gset Z) (f : A → A) (rows : gmap Z A) i :
  update_rows ids f rows !! i =
  (λ row, if decide (i ∈ ids) then f row else row) <$> rows !! i.
Proof.
  unfold update_rows. rewrite map_lookup_imap.
  by destruct (rows !! i).
Qed.

Lemma update_rows_empty {A} (f : A → A) (rows : gmap Z A) :
  update_rows ∅ f rows = rows.
Proof.
  apply map_eq. intros i. rewrite update_rows_lookup.
  destruct (rows !! i); simpl; [|done].
  by rewrite decide_False by set_solver.
Qed.

Lemma add_id_elem (o : option Z) (ids : gset Z) i :
  i ∈ add_id o ids ↔ o = Some i ∨ i ∈ ids.
Proof.
  destruct o as [k|]; simpl; [|naive_solver].
  rewrite elem_of_union, elem_of_singleton. naive_solver.
Qed.

Section JobLoops.
Variable f : Job.t → Job.t.
Hypothesis f_idem : ∀ j, f (f j) = f j.
Hypothesis f_id : ∀ j, Job.id (f j) = Job.id j.

Lemma update_status_loop_run jobs :
  ∀ ids st,
    (∀ r, r ∈ jobs → is_Some (job_objs st !! r)) →
    ∃ ids' objs',
      JobManager.update_status_loop f jobs ids st
      = (Ok ids', mkState (db st) objs' (job_exe_objs st)) ∧
      (∀ r, objs' !! r = if decide (r ∈ jobs) then f <$> job_objs st !! r
                         else job_objs st !! r) ∧
      (∀ i, i ∈ ids' ↔
              i ∈ ids ∨ ∃ r j, r ∈ jobs ∧ job_objs st !! r = Some j ∧ Job.id j = Some i).
Proof.
  induction jobs as [|r0 rest IH]; intros ids st Hvalid.
  - exists ids, (job_objs st). destruct st. split; [reflexivity|].
    split; [intros r; by rewrite decide_False by set_solver|].
    intros i. split; [naive_solver|]. intros [?|(r & j & Hr & _)]; [done|set_solver].
  - destruct (Hvalid r0) as [j0 Hj0]; [set_solver|].
    simpl. run_step. rewrite Hj0. simpl.
    destruct (IH (add_id (Job.id j0) ids)
                (mkState (db st) (<[r0 := f j0]> (job_objs st)) (job_exe_objs st)))
      as (ids' & objs' & Hrun & Hobjs & Hids).
    { intros r Hr. simpl. destruct (decide (r = r0)) as [->|Hne].
      - rewrite lookup_insert_eq. eauto.
      - rewrite lookup_insert_ne by done. apply Hvalid. set_solver. }
    simpl in *. exists ids', objs'. split; [exact Hrun|]. split.
    + intros r. rewrite Hobjs. destruct (decide (r = r0)) as [->|Hne].
      * rewrite lookup_insert_eq, Hj0. rewrite (decide_True (P := r0 ∈ r0 :: rest)) by set_solver.
        simpl. destruct (decide (r0 ∈ rest)); simpl; by rewrite ?f_idem.
      * rewrite lookup_insert_ne by done.
        destruct (decide (r ∈ rest)), (decide (r ∈ r0 :: rest)); set_solver.
    + intros i. rewrite Hids, add_id_elem. split.
      * intros [[Hi|Hi]|(r & j & Hr & Hj & Hi)].
        -- right. exists r0, j0. set_solver.
        -- by left.
        -- right. destruct (decide (r = r0)) as [->|Hne].
           ++ rewrite lookup_insert_eq in Hj. injection Hj as <-.
              exists r0, j0. rewrite f_id in Hi. set_solver.
           ++ rewrite lookup_insert_ne in Hj by done. exists r, j. set_solver.
      * intros [Hi|(r & j & Hr & Hj & Hi)]; [by left; right|].
        destruct (decide (r = r0)) as [->|Hne].
        -- left. left. congruence.
        -- right. exists r, j. rewrite lookup_insert_ne by done. set_solver.
Qed.
End JobLoops.

Lemma queue_skip_iff j :
  negb (Job.is_ready_to_queue j) || negb (truthy (Job.data j)) || Job.is_superseded j
  = false ↔ queueable j.
Proof.
  unfold queueable, Job.is_ready_to_queue.
  rewrite !orb_false_iff, !negb_false_iff, bool_decide_eq_true.
  destruct (Job.data j); unfold truthy, truthy_list; naive_solver.
Qed.

Lemma queued_not_queueable when p j : ¬ queueable (Assign.queued_at when p j).
Proof. intros [H _]. simpl in H. set_solver. Qed.

Section QueueLoop.
Variables (when : Time) (priority : option Z).
Let q := Assign.queued_at when (if truthy priority then priority else None).

Lemma queue_loop_run jobs :
  ∀ ids acc st,
    (∀ r, r ∈ jobs → is_Some (job_objs st !! r)) →
    ∃ ids' new objs',
      JobManager.queue_loop when priority jobs ids acc st
      = (Ok (ids', (acc ++ new)%list), mkState (db st) objs' (job_exe_objs st)) ∧
      (∀ r, objs' !! r =
            (λ j, if decide (r ∈ jobs ∧ queueable j) then q j else j)
              <$> job_objs st !! r) ∧
      (∀ i, i ∈ ids' ↔
              i ∈ ids ∨ ∃ r j, r ∈ jobs ∧ job_objs st !! r = Some j ∧
                               queueable j ∧ Job.id j = Some i) ∧
      NoDup new ∧
      (∀ r, r ∈ new ↔ r ∈ jobs ∧ ∃ j, job_objs st !! r = Some j ∧ queueable j).
Proof.
  induction jobs as [|r0 rest IH]; intros ids acc st Hvalid.
  - exists ids, [], (job_objs st). destruct st as [d objs exes]. rewrite app_nil_r.
    split; [reflexivity|]. simpl. split.
    { intros r. by destruct (objs !! r). }
    split; [set_solver|]. split; [constructor|set_solver].
  - destruct (Hvalid r0) as [j0 Hj0]; [set_solver|].
    cbn [JobManager.queue_loop]. run_step. rewrite Hj0.
    destruct (negb (Job.is_ready_to_queue j0) || negb (truthy (Job.data j0))
              || Job.is_superseded j0) eqn:Hskip.
    + assert (Hnq : ¬ queueable j0).
      { rewrite <- queue_skip_iff. congruence. }
      destruct (IH ids acc st) as (ids' & new & objs' & Hrun & Hobjs & Hids & Hnd & Hnew).
      { intros r Hr. apply Hvalid. set_solver. }
      exists ids', new, objs'. split; [exact Hrun|]. split.
      { intros r. rewrite Hobjs. destruct (job_objs st !! r) as [j|] eqn:Hj; [|done].
        simpl. f_equal. apply decide_ext. split; [set_solver|].
        intros [[->|?]%elem_of_cons ?]; [congruence|done]. }
      split.
      { intros i. rewrite Hids. split.
        - intros [?|(r & j & ? & ? & ? & ?)]; [by left|]. right. exists r, j. set_solver.
        - intros [?|(r & j & [->|?]%elem_of_cons & ? & ? & ?)]; [by left| congruence |].
          right. exists r, j. done. }
      split; [done|].
      intros r. rewrite Hnew. split.
      { intros [? ?]. set_solver. }
      { intros [[->|?]%elem_of_cons (j & ? & ?)]; [congruence|]. naive_solver. }
    + apply queue_skip_iff in Hskip. fold q.
      destruct (IH (add_id (Job.id j0) ids) (acc ++ [r0])%list
                  (mkState (db st) (<[r0 := q j0]> (job_objs st)) (job_exe_objs st)))
        as (ids' & new & objs' & Hrun & Hobjs & Hids & Hnd & Hnew).
      { intros r Hr. simpl. destruct (decide (r = r0)) as [->|Hne].
        - rewrite lookup_insert_eq. eauto.
        - rewrite lookup_insert_ne by done. apply Hvalid. set_solver. }
      simpl in *.
      exists ids', (r0 :: new), objs'. split.
      { rewrite Hrun. by rewrite <- app_assoc. }
      assert (Hr0 : r0 ∉ new).
      { rewrite Hnew. intros [_ (j & Hj & Hq)]. rewrite lookup_insert_eq in Hj.
        injection Hj as <-. by apply queued_not_queueable in Hq. }
      split.
      { intros r. rewrite Hobjs. destruct (decide (r = r0)) as [->|Hne].
        - rewrite lookup_insert_eq, Hj0. simpl. f_equal.
          rewrite (decide_False (P := _ ∧ queueable (q j0))).
          2:{ intros [_ Hq]. by apply queued_not_queueable in Hq. }
          rewrite decide_True; [done|]. set_solver.
        - rewrite lookup_insert_ne by done.
          destruct (job_objs st !! r) as [j|]; [|done]. simpl. f_equal.
          apply decide_ext. set_solver. }
      split.
      { intros i. rewrite Hids, add_id_elem. split.
        - intros [[Hi|Hi]|(r & j & Hr & Hj & Hq & Hi)].
          + right. exists r0, j0. set_solver.
          + by left.
          + right. destruct (decide (r = r0)) as [->|Hne].
            * rewrite lookup_insert_eq in Hj. injection Hj as <-.
              by apply queued_not_queueable in Hq.
            * rewrite lookup_insert_ne in Hj by done. exists r, j. set_solver.
        - intros [Hi|(r & j & Hr & Hj & Hq & Hi)]; [by left; right|].
          destruct (decide (r = r0)) as [->|Hne].
          + left. left. congruence.
          + right. exists r, j. rewrite lookup_insert_ne by done. set_solver. }
      split; [by constructor|].
      intros r. rewrite elem_of_cons, Hnew. split.
      { intros [->|[Hr (j & Hj & Hq)]]; [set_solver|].
        destruct (decide (r = r0)) as [->|Hne].
        - rewrite lookup_insert_eq in Hj. injection Hj as <-.
          by apply queued_not_queueable in Hq.
        - rewrite lookup_insert_ne in Hj by done. set_solver. }
      { intros [Hr (j & Hj & Hq)]. destruct (decide (r = r0)) as [->|Hne]; [by left|].
        right. rewrite lookup_insert_ne by done. set_solver. }
Qed.
End QueueLoop.

(** ** [queue_jobs] *)

Lemma with_job_rows_same (d : DB) : with_job_rows (job_rows d) d = d.
Proof. by destruct d. Qed.

Lemma queue_jobs_run jobs when priority st :
  (∀ r, r ∈ jobs → is_Some (job_objs st !! r)) →
  let q := Assign.queued_at when (if truthy priority then priority else None) in
  ∃ ids queued objs',
    JobManager.queue_jobs jobs when priority st
    = (Ok queued,
       mkState (with_job_rows (update_rows ids q (job_rows (db st))) (db st))
         objs' (job_exe_objs st)) ∧
    (∀ r, objs' !! r =
          (λ j, if decide (r ∈ jobs ∧ queueable j) then q j else j)
            <$> job_objs st !! r) ∧
    (∀ i, i ∈ ids ↔ listed queueable jobs st i) ∧
    NoDup queued ∧
    (∀ r, r ∈ queued ↔ r ∈ jobs ∧ ∃ j, job_objs st !! r = Some j ∧ queueable j).
Proof.
  intros Hvalid q.
  destruct (queue_loop_run when priority jobs ∅ [] st Hvalid)
    as (ids & queued & objs' & Hrun & Hobjs & Hids & Hnd & Hq).
  exists ids, queued, objs'. split.
  - unfold JobManager.queue_jobs, bind. rewrite Hrun. simpl.
    unfold update_jobs. run_step. simpl. subst q.
    by destruct (truthy priority).
  - split; [exact Hobjs|]. split; [|done].
    intros i. rewrite Hids. unfold listed. set_solver.
Qed.

Lemma queue_loop_priority_zero when jobs :
  ∀ ids acc st,
    JobManager.queue_loop when (Some 0) jobs ids acc st
    = JobManager.queue_loop when None jobs ids acc st.
Proof.
  induction jobs as [|r0 rest IH]; intros ids acc st; [done|].
  simpl. unfold bind. destruct (deref r0 st) as [[j|e] st1]; [|done].
  destruct (_ || _); [apply IH|].
  change (truthy (Some 0)) with false. change (truthy (@None Z)) with false.
  destruct (assign r0 _ st1) as [[?|?] ?]; [apply IH|done].
Qed.

(** C4: [queue_jobs] sets a job of the list to QUEUED exactly when its status
    is PENDING, CANCELED or FAILED, it has data and it is not superseded; a
    queued job has error, started and ended reset and [num_exes] incremented
    by one, in memory and in its row; the returned list holds exactly the
    queued jobs; and a second call on the same list queues nothing and
    changes nothing. *)
Theorem queue_jobs_spec (jobs : list ref) (when : Time) (priority : option Z)
    (st : State) :
  (∀ r, r ∈ jobs → is_Some (job_objs st !! r)) →
  ∃ queued st',
    JobManager.queue_jobs jobs when priority st = (Ok queued, st') ∧
    NoDup queued ∧
    (∀ r, r ∈ queued ↔ r ∈ jobs ∧ ∃ j, job_objs st !! r = Some j ∧ queueable j) ∧
    (∀ r j, r ∈ jobs → job_objs st !! r = Some j →
       ∃ j', job_objs st' !! r = Some j' ∧
             (queueable j →
                Job.status j' = "QUEUED" ∧ Job.error j' = None ∧
                Job.started j' = None ∧ Job.ended j' = None ∧
                Job.num_exes j' = Job.num_exes j + 1 ∧ Job.queued j' = Some when) ∧
             (¬ queueable j → j' = j)) ∧
    (∀ i row, job_rows (db st) !! i = Some row →
       ∃ row', job_rows (db st') !! i = Some row' ∧
               (listed queueable jobs st i →
                  Job.status row' = "QUEUED" ∧ Job.error row' = None ∧
                  Job.started row' = None ∧ Job.ended row' = None ∧
                  Job.num_exes row' = Job.num_exes row + 1 ∧
                  Job.queued row' = Some when) ∧
               (¬ listed queueable jobs st i → row' = row)) ∧
    (∀ when2 priority2,
       JobManager.queue_jobs jobs when2 priority2 st' = (Ok [], st')).
Proof.
  intros Hvalid.
  destruct (queue_jobs_run jobs when priority st Hvalid)
    as (ids & queued & objs' & Hrun & Hobjs & Hids & Hnd & Hq).
  eexists queued, _. split; [exact Hrun|]. simpl.
  split; [done|]. split; [done|]. split; [|split].
  - intros r j Hr Hj. rewrite Hobjs, Hj. simpl. eexists. split; [done|].
    split; intros Hqj.
    + by rewrite decide_True by done.
    + by rewrite decide_False by naive_solver.
  - intros i row Hrow. rewrite update_rows_lookup, Hrow. simpl.
    eexists. split; [done|]. split; intros Hl.
    + by rewrite decide_True by (by apply Hids).
    + by rewrite decide_False by (by rewrite Hids).
  - intros when2 priority2.
    set (st' := mkState _ objs' _).
    assert (Hvalid' : ∀ r, r ∈ jobs → is_Some (job_objs st' !! r)).
    { intros r Hr. simpl. rewrite Hobjs. destruct (Hvalid r Hr) as [j ->]. by eexists. }
    assert (Hnone : ∀ r j, r ∈ jobs → job_objs st' !! r = Some j → ¬ queueable j).
    { intros r j Hr. simpl. rewrite Hobjs. destruct (job_objs st !! r) as [j0|]; [|done].
      simpl. intros [= <-]. case_decide; [apply queued_not_queueable|naive_solver]. }
    destruct (queue_jobs_run jobs when2 priority2 st' Hvalid')
      as (ids2 & queued2 & objs2 & Hrun2 & Hobjs2 & Hids2 & _ & Hq2).
    rewrite Hrun2. f_equal.
    + f_equal. destruct queued2 as [|r ?]; [done|].
      destruct (Hq2 r) as [(Hr & j & Hj & Hqj) _]; [set_solver|].
      by destruct (Hnone r j).
    + assert (ids2 = ∅) as ->.
      { apply set_eq. intros i. rewrite Hids2. split; [|set_solver].
        intros (r & j & Hr & Hj & Hqj & _). by destruct (Hnone r j). }
      rewrite update_rows_empty, with_job_rows_same.
      assert (objs2 = objs') as ->; [|done].
      apply map_eq. intros r. rewrite Hobjs2. simpl.
      destruct (objs' !! r) as [j|] eqn:Hj; [|done]. simpl. f_equal.
      apply decide_False. intros [Hr Hqj]. by destruct (Hnone r j).
Qed.

(** C10: with [priority=0] [queue_jobs] behaves as with no priority at all,
    and the priority of every queued job (and of every row) is left as it
    was. *)
Theorem queue_jobs_priority_zero (jobs : list ref) (when : Time) (st : State) :
  (∀ r, r ∈ jobs → is_Some (job_objs st !! r)) →
  ∃ queued st',
    JobManager.queue_jobs jobs when (Some 0) st = (Ok queued, st') ∧
    JobManager.queue_jobs jobs when None st = (Ok queued, st') ∧
    (∀ r j, r ∈ queued → job_objs st !! r = Some j →
       ∃ j', job_objs st' !! r = Some j' ∧ Job.status j' = "QUEUED" ∧
             Job.priority j' = Job.priority j) ∧
    (∀ i row, job_rows (db st) !! i = Some row →
       ∃ row', job_rows (db st') !! i = Some row' ∧
               Job.priority row' = Job.priority row).
Proof.
  intros Hvalid.
  destruct (queue_jobs_run jobs when None st Hvalid)
    as (ids & queued & objs' & Hrun & Hobjs & Hids & Hnd & Hq).
  eexists queued, _. split; [|split; [exact Hrun|]].
  - rewrite <- Hrun. unfold JobManager.queue_jobs.
    unfold bind. by rewrite queue_loop_priority_zero.
  - simpl. split.
    + intros r j [Hr (j0 & Hj0 & Hqj)]%Hq Hj. rewrite Hobjs, Hj. simpl.
      eexists. split; [done|]. assert (j0 = j) as -> by congruence.
      by rewrite decide_True by done.
    + intros i row Hrow. rewrite update_rows_lookup, Hrow. simpl.
      eexists. split; [done|]. by case_decide.
Qed.

(** ** [update_status] and [supersede_jobs] *)

Lemma supersede_loop_run when modified jobs :
  let f := Assign.superseded_at when modified in
  ∀ ids acc st,
    (∀ r, r ∈ jobs → is_Some (job_objs st !! r)) →
    ∃ ids' new objs',
      JobManager.supersede_loop when modified jobs ids acc st
      = (Ok (ids', (acc ++ new)%list), mkState (db st) objs' (job_exe_objs st)) ∧
      (∀ r, objs' !! r = if decide (r ∈ jobs) then f <$> job_objs st !! r
                         else job_objs st !! r) ∧
      (∀ i, i ∈ ids' ↔ i ∈ ids ∨ listed (λ _, True) jobs st i) ∧
      (∀ r, r ∈ new ↔ r ∈ jobs ∧ ∃ j, job_objs st !! r = Some j ∧ pre_execution j).
Proof.
  intros f. induction jobs as [|r0 rest IH]; intros ids acc st Hvalid.
  - exists ids, [], (job_objs st). destruct st as [d objs exes]. rewrite app_nil_r.
    split; [reflexivity|]. split; [done|]. unfold listed. set_solver.
  - destruct (Hvalid r0) as [j0 Hj0]; [set_solver|].
    cbn [JobManager.supersede_loop]. run_step. rewrite Hj0. fold f.
    set (acc1 := if bool_decide _ then _ else _).
    destruct (IH (add_id (Job.id j0) ids) acc1
                (mkState (db st) (<[r0 := f j0]> (job_objs st)) (job_exe_objs st)))
      as (ids' & new & objs' & Hrun & Hobjs & Hids & Hnew).
    { intros r Hr. simpl. destruct (decide (r = r0)) as [->|Hne].
      - rewrite lookup_insert_eq. eauto.
      - rewrite lookup_insert_ne by done. apply Hvalid. set_solver. }
    simpl in Hrun, Hobjs, Hids, Hnew.
    assert (Hrest : ∀ r, (r ∈ rest ∧ ∃ j, <[r0 := f j0]> (job_objs st) !! r = Some j
                                          ∧ pre_execution j)
                         ↔ (r ∈ rest ∧ ∃ j, job_objs st !! r = Some j ∧ pre_execution j)).
    { intros r. destruct (decide (r = r0)) as [->|Hne].
      - rewrite lookup_insert_eq, Hj0. split; intros [? (j & [= <-] & ?)]; eauto. 
      - by rewrite lookup_insert_ne by done. }
    exists ids', ((if bool_decide (pre_execution j0) then [r0] else []) ++ new)%list, objs'.
    split; [|split; [|split]].
    + rewrite Hrun. subst acc1. unfold pre_execution.
      destruct (bool_decide _); by rewrite <- ?app_assoc.
    + intros r. rewrite Hobjs. destruct (decide (r = r0)) as [->|Hne].
      * rewrite lookup_insert_eq, Hj0. rewrite (decide_True (P := r0 ∈ r0 :: rest)) by set_solver.
        by destruct (decide (r0 ∈ rest)).
      * rewrite lookup_insert_ne by done. apply decide_ext. set_solver.
    + intros i. rewrite Hids, add_id_elem. unfold listed. split.
      * intros [[Hi|Hi]|(r & j & Hr & Hj & _ & Hi)].
        -- right. exists r0, j0. set_solver.
        -- by left.
        -- right. simpl in Hj. destruct (decide (r = r0)) as [->|Hne].
           ++ rewrite lookup_insert_eq in Hj. injection Hj as <-.
              exists r0, j0. set_solver.
           ++ rewrite lookup_insert_ne in Hj by done. exists r, j. set_solver.
      * intros [Hi|(r & j & Hr & Hj & _ & Hi)]; [by left; right|].
        destruct (decide (r = r0)) as [->|Hne].
        -- left. left. congruence.
        -- right. exists r, j. simpl. rewrite lookup_insert_ne by done. set_solver.
    + intros r. rewrite elem_of_app, Hnew, Hrest. split.
      * intros [Hr|[Hr Hj]]; [|set_solver].
        case_bool_decide; [|set_solver].
        apply list_elem_of_singleton in Hr as ->. set_solver.
      * intros [[->|Hr]%elem_of_cons (j & Hj & Hp)]; [|right; eauto].
        left. assert (j = j0) as -> by congruence.
        rewrite bool_decide_eq_true_2 by done. set_solver.
Qed.
Lemma status_fields_idem status when cs ended error modified j :
  Assign.status_fields status when cs ended error modified
    (Assign.status_fields status when cs ended error modified j)
  = Assign.status_fields status when cs ended error modified j.
Proof. unfold Assign.status_fields. simpl. by destruct cs. Qed.

Lemma truthy_error_is_Some (error : option Error) : truthy error = true ↔ is_Some error.
Proof. destruct error; simpl; [|split; [done|by intros [? ?]]]. split; eauto. Qed.

Lemma update_status_run now jobs status when error st :
  status ≠ "QUEUED" →
  (status = "FAILED" ↔ is_Some error) →
  (∀ r, r ∈ jobs → is_Some (job_objs st !! r)) →
  let g := status_update now status when error in
  ∃ ids objs',
    JobManager.update_status now jobs status when error st
    = (Ok tt,
       mkState (with_job_rows (update_rows ids g (job_rows (db st))) (db st))
         objs' (job_exe_objs st)) ∧
    (∀ r, objs' !! r = if decide (r ∈ jobs) then g <$> job_objs st !! r
                       else job_objs st !! r) ∧
    (∀ i, i ∈ ids ↔ listed (λ _, True) jobs st i).
Proof.
  intros Hq Hf Hvalid g. unfold JobManager.update_status.
  rewrite bool_decide_eq_false_2 by done.
  assert (bool_decide (status = "FAILED") && negb (truthy error) = false) as ->.
  { case_bool_decide; [|done]. simpl. apply negb_false_iff, truthy_error_is_Some. tauto. }
  assert (negb (bool_decide (status = "FAILED")) && truthy error = false) as ->.
  { case_bool_decide as Hs; [done|]. simpl. apply not_true_is_false.
    rewrite truthy_error_is_Some. tauto. }
  fold (status_update now status when error). fold g.
  destruct (update_status_loop_run g (status_fields_idem _ _ _ _ _ _) (λ _, eq_refl)
              jobs ∅ st Hvalid) as (ids & objs' & Hrun & Hobjs & Hids).
  exists ids, objs'. split; [|split; [done|]].
  - unfold bind. rewrite Hrun. reflexivity.
  - intros i. rewrite Hids. unfold listed. set_solver.
Qed.

Lemma truthy_list_false {A} (l : list A) : truthy l = false ↔ l = [].
Proof. by destruct l. Qed.

(** C7: [supersede_jobs] marks every job of the list superseded, with the
    superseded time; it changes the status of exactly the jobs that were
    PENDING or BLOCKED, to CANCELED, and leaves every other status as it was;
    jobs outside the list are untouched. The rows follow the instances. *)
Theorem supersede_jobs_spec (now : Time) (jobs : list ref) (when : Time) (st : State) :
  (∀ r, r ∈ jobs → is_Some (job_objs st !! r)) →
  ∃ st',
    JobManager.supersede_jobs now jobs when st = (Ok tt, st') ∧
    (∀ r j, r ∈ jobs → job_objs st !! r = Some j →
       ∃ j', job_objs st' !! r = Some j' ∧
             Job.is_superseded j' = true ∧ Job.superseded j' = Some when ∧
             (pre_execution j → Job.status j' = "CANCELED") ∧
             (¬ pre_execution j → Job.status j' = Job.status j)) ∧
    (∀ r, r ∉ jobs → job_objs st' !! r = job_objs st !! r) ∧
    (∀ i row, job_rows (db st) !! i = Some row →
       ∃ row', job_rows (db st') !! i = Some row' ∧
               (listed (λ _, True) jobs st i →
                  Job.is_superseded row' = true ∧ Job.superseded row' = Some when) ∧
               (listed pre_execution jobs st i → Job.status row' = "CANCELED") ∧
               (¬ listed pre_execution jobs st i → Job.status row' = Job.status row) ∧
               (¬ listed (λ _, True) jobs st i → row' = row)).
Proof.
  intros Hvalid. unfold JobManager.supersede_jobs, bind.
  destruct (supersede_loop_run when now jobs ∅ [] st Hvalid)
    as (ids & new & objs1 & Hrun & Hobjs1 & Hids & Hnew).
  rewrite Hrun. cbn [app]. unfold update_jobs. run_step. cbn [db job_objs job_exe_objs].
  set (f := Assign.superseded_at when now) in *.
  assert (Hids' : ∀ i, i ∈ ids ↔ listed (λ _, True) jobs st i) by set_solver.
  destruct (truthy new) eqn:Htr.
  - set (st2 := mkState _ objs1 _).
    destruct (update_status_run now new "CANCELED" when None st2)
      as (ids2 & objs2 & Hrun2 & Hobjs2 & Hids2).
    { done. } { split; [done|by intros [? ?]]. }
    { intros r [Hr _]%Hnew. simpl. rewrite Hobjs1, decide_True by done.
      destruct (Hvalid r Hr) as [j ->]. by eexists. }
    set (g := status_update now "CANCELED" when None) in *.
    assert (Hids2' : ∀ i, i ∈ ids2 ↔ listed pre_execution jobs st i).
    { intros i. rewrite Hids2. unfold listed. simpl. split.
      - intros (r & j & [Hr (j0 & Hj0 & Hp)]%Hnew & Hj & _ & Hi).
        rewrite Hobjs1, decide_True, Hj0 in Hj by done. injection Hj as <-.
        exists r, j0. done.
      - intros (r & j & Hr & Hj & Hp & Hi). exists r, (f j).
        split; [apply Hnew; eauto|]. by rewrite Hobjs1, decide_True, Hj. }
    eexists. split; [exact Hrun2|]. simpl. split; [|split].
    + intros r j Hr Hj. rewrite Hobjs2. unfold st2. simpl.
      rewrite Hobjs1, (decide_True (P := r ∈ jobs)), Hj by done. simpl.
      destruct (decide (r ∈ new)) as [Hin|Hnin].
      * eexists. split; [done|]. apply Hnew in Hin as [_ (j1 & Hj1 & Hp)].
        assert (j1 = j) as -> by congruence. done.
      * eexists. split; [done|]. simpl. split; [done|]. split; [done|].
        split; [|done]. intros Hp. destruct Hnin. apply Hnew. eauto.
    + intros r Hr. rewrite Hobjs2. unfold st2. simpl.
      rewrite Hobjs1, (decide_False (P := r ∈ jobs)) by done.
      rewrite decide_False; [done|]. by intros [? _]%Hnew.
    + intros i row Hrow. rewrite !update_rows_lookup, Hrow. simpl.
      eexists. split; [done|]. split; [|split; [|split]].
      * intros Hl. rewrite (decide_True (P := i ∈ ids)) by (by apply Hids').
        by case_decide.
      * intros Hl. by rewrite decide_True by (by apply Hids2').
      * intros Hl. rewrite decide_False by (by rewrite Hids2'). by case_decide.
      * intros Hl. rewrite (decide_False (P := i ∈ ids)) by (by rewrite Hids').
        rewrite decide_False; [done|]. rewrite Hids2'.
        intros (r & j & ? & ? & ? & ?). apply Hl. by exists r, j.
  - apply truthy_list_false in Htr. subst new.
    assert (Hnone : ∀ r j, r ∈ jobs → job_objs st !! r = Some j → ¬ pre_execution j).
    { intros r j Hr Hj Hp. destruct (Hnew r) as [_ H]. set_solver. }
    eexists. split; [done|]. simpl. split; [|split].
    + intros r j Hr Hj. rewrite Hobjs1, decide_True, Hj by done. simpl.
      eexists. split; [done|]. simpl. split; [done|]. split; [done|].
      split; [|done]. intros Hp. by destruct (Hnone r j).
    + intros r Hr. by rewrite Hobjs1, decide_False.
    + intros i row Hrow. rewrite update_rows_lookup, Hrow. simpl.
      eexists. split; [done|]. split; [|split; [|split]].
      * intros Hl. by rewrite decide_True by (by apply Hids').
      * intros (r & j & Hr & Hj & Hp & _). by destruct (Hnone r j).
      * intros _. by case_decide.
      * intros Hl. by rewrite decide_False by (by rewrite Hids').
Qed.

(** ** [JobExecutionManager.update_status] *)

Lemma exe_status_fields_idem status when error modified e :
  Assign.exe_status_fields status when error modified
    (Assign.exe_status_fields status when error modified e)
  = Assign.exe_status_fields status when error modified e.
Proof. done. Qed.

Lemma exe_loop_run status when error modified job_exes :
  let h := Assign.exe_status_fields status when error modified in
  ∀ ids jobs st,
    with_related_jobs job_exes st →
    ∃ ids' new exes',
      JobExecutionManager.update_status_loop h job_exes ids jobs st
      = (Ok (ids', (jobs ++ new)%list), mkState (db st) (job_objs st) exes') ∧
      (∀ e, exes' !! e = if decide (e ∈ job_exes) then h <$> job_exe_objs st !! e
                         else job_exe_objs st !! e) ∧
      (∀ jr, jr ∈ new ↔
               ∃ e eo, e ∈ job_exes ∧ job_exe_objs st !! e = Some eo ∧
                       JobExecution.job eo = Some jr).
Proof.
  intros h. induction job_exes as [|e0 rest IH]; intros ids jobs st Hrel.
  - exists ids, [], (job_exe_objs st). destruct st as [d objs exes]. rewrite app_nil_r.
    split; [reflexivity|]. split; [done|]. set_solver.
  - destruct (Hrel e0) as (eo0 & jr0 & He0 & Hjob0 & Hv0); [set_solver|].
    cbn [JobExecutionManager.update_status_loop].
    rewrite (bind_ok _ _ _ _ _ (deref_exe_ok _ _ _ He0)).
    rewrite (bind_ok _ _ _ _ _ (related_job_populated _ _ _ _ He0 Hjob0)).
    rewrite (bind_ok _ _ _ _ _ (deref_exe_ok _ _ _ He0)).
    unfold bind at 1. unfold assign_exe.
    destruct (IH (add_id (JobExecution.id eo0) ids) (jobs ++ [jr0])%list
                (mkState (db st) (job_objs st) (<[e0 := h eo0]> (job_exe_objs st))))
      as (ids' & new & exes' & Hrun & Hexes & Hnew).
    { intros e He. simpl. destruct (decide (e = e0)) as [->|Hne].
      - rewrite lookup_insert_eq. exists (h eo0), jr0. done.
      - rewrite lookup_insert_ne by done. apply Hrel. set_solver. }
    simpl in Hrun, Hexes, Hnew.
    exists ids', (jr0 :: new), exes'. split; [|split].
    + simpl. rewrite Hrun. by rewrite <- app_assoc.
    + intros e. rewrite Hexes. destruct (decide (e = e0)) as [->|Hne].
      * rewrite lookup_insert_eq, He0.
        rewrite (decide_True (P := e0 ∈ e0 :: rest)) by set_solver.
        by destruct (decide (e0 ∈ rest)).
      * rewrite lookup_insert_ne by done. apply decide_ext. set_solver.
    + intros jr. rewrite elem_of_cons, Hnew. split.
      * intros [->|(e & eo & He & Heo & Hjob)]; [exists e0, eo0; set_solver|].
        destruct (decide (e = e0)) as [->|Hne].
        -- rewrite lookup_insert_eq in Heo. injection Heo as <-.
           exists e0, eo0. set_solver.
        -- rewrite lookup_insert_ne in Heo by done. exists e, eo. set_solver.
      * intros (e & eo & [->|He]%elem_of_cons & Heo & Hjob).
        -- left. congruence.
        -- right. destruct (decide (e = e0)) as [->|Hne].
           ++ exists e0, (h eo0). rewrite lookup_insert_eq.
              assert (eo = eo0) as -> by congruence. done.
           ++ exists e, eo. by rewrite lookup_insert_ne.
Qed.

Lemma exe_update_status_run now job_exes status when error st :
  status ∉ ["QUEUED"; "RUNNING"] →
  (status = "FAILED" ↔ is_Some error) →
  with_related_jobs job_exes st →
  ∃ st',
    JobExecutionManager.update_status now job_exes status when error st = (Ok tt, st') ∧
    ∀ e, e ∈ job_exes → status_cascaded status st st' e.
Proof.
  intros Hs Hf Hrel. unfold JobExecutionManager.update_status.
  rewrite !bool_decide_eq_false_2 by set_solver.
  assert (bool_decide (status = "FAILED") && negb (truthy error) = false) as ->.
  { case_bool_decide; [|done]. simpl. apply negb_false_iff, truthy_error_is_Some. tauto. }
  assert (negb (bool_decide (status = "FAILED")) && truthy error = false) as ->.
  { case_bool_decide; [done|]. simpl. apply not_true_is_false.
    rewrite truthy_error_is_Some. tauto. }
  destruct (exe_loop_run status when error now job_exes ∅ [] st Hrel)
    as (ids & new & exes' & Hrun & Hexes & Hnew).
  unfold bind. rewrite Hrun. cbn [app]. unfold update_job_exes. run_step.
  set (st2 := mkState _ _ _).
  destruct (update_status_run now new status when error st2)
    as (ids2 & objs2 & Hrun2 & Hobjs2 & Hids2).
  { set_solver. } { done. }
  { intros jr (e & eo & He & Heo & Hjob)%Hnew. simpl.
    destruct (Hrel e He) as (eo' & jr' & Heo' & Hjob' & Hv). congruence. }
  eexists. split; [exact Hrun2|]. simpl.
  intros e He. destruct (Hrel e He) as (eo & jr & Heo & Hjob & [j Hj]).
  assert (Hin : jr ∈ new) by (apply Hnew; eauto).
  exists (Assign.exe_status_fields status when error now eo), jr,
         (status_update now status when error j).
  rewrite Hexes, decide_True, Heo by done. split; [done|]. split; [done|].
  split; [done|]. rewrite Hobjs2. simpl. rewrite Hj, decide_True by done.
  split; [done|]. split; [done|].
  intros i row Hi Hrow. rewrite update_rows_lookup, Hrow. simpl.
  eexists. split; [done|]. rewrite decide_True; [done|].
  apply Hids2. exists jr, j. done.
Qed.

(** C3: the generic status updates of jobs and of job executions raise for
    the target QUEUED, for FAILED without an error, and for any other status
    given with an error, and then change nothing; and a successful
    [JobExecutionManager.update_status] sets the status on every execution of
    the batch and on its parent job. *)
Theorem update_status_guards (now : Time) (when : Time) (st : State) :
  (∀ jobs job_exes error,
     (∃ msg, JobManager.update_status now jobs "QUEUED" when error st
             = (Raise (Exception msg), st)) ∧
     (∃ msg, JobExecutionManager.update_status now job_exes "QUEUED" when error st
             = (Raise (Exception msg), st))) ∧
  (∀ jobs job_exes,
     (∃ msg, JobManager.update_status now jobs "FAILED" when None st
             = (Raise (Exception msg), st)) ∧
     (∃ msg, JobExecutionManager.update_status now job_exes "FAILED" when None st
             = (Raise (Exception msg), st))) ∧
  (∀ jobs job_exes status error,
     status ≠ "FAILED" →
     (∃ msg, JobManager.update_status now jobs status when (Some error) st
             = (Raise (Exception msg), st)) ∧
     (∃ msg, JobExecutionManager.update_status now job_exes status when (Some error) st
             = (Raise (Exception msg), st))) ∧
  (∀ job_exes status error,
     status ∉ ["QUEUED"; "RUNNING"] →
     (status = "FAILED" ↔ is_Some error) →
     with_related_jobs job_exes st →
     ∃ st',
       JobExecutionManager.update_status now job_exes status when error st
       = (Ok tt, st') ∧
       ∀ e, e ∈ job_exes → status_cascaded status st st' e).
Proof.
  split; [|split; [|split]].
  - intros jobs job_exes error. split; eexists; reflexivity.
  - intros jobs job_exes. split; eexists; reflexivity.
  - intros jobs job_exes status error Hs.
    unfold JobManager.update_status, JobExecutionManager.update_status.
    rewrite (bool_decide_eq_false_2 (status = "FAILED")) by done. simpl.
    split; repeat case_bool_decide; eexists; reflexivity.
  - intros job_exes status error. apply exe_update_status_run.
Qed.

(** ** [complete_job] *)

(** [complete_job] stops where it reads [job.exe_num]: the instance has been
    given the COMPLETED status and the two times, no output row has been
    read and nothing has been saved. *)
Lemma complete_job_stops get_dict now job when st j :
  job_objs st !! job = Some j →
  JobManager.complete_job get_dict now job when st
  = (Raise AttributeError,
     mkState (db st) (<[job := Assign.completed when j]> (job_objs st))
       (job_exe_objs st)).
Proof.
  intros Hj. unfold JobManager.complete_job.
  unfold bind at 1. unfold deref at 1. rewrite Hj.
  unfold bind at 1. unfold assign at 1.
  unfold bind at 1. unfold deref at 1. cbn [job_objs]. rewrite lookup_insert_eq.
  reflexivity.
Qed.

(** C2: the code does not do what the claim says. On the running job 2 of
    the sample data, which has an output row for execution 1 and one for
    execution 2, [complete_job] raises [AttributeError] before any output
    row is read: the instance is left COMPLETED with its results as they
    were and the database is untouched. *)
Theorem complete_job_raises :
  let res := JobManager.complete_job (λ output, output) 60 1%nat 70 sample_state in
  res.1 = Raise AttributeError ∧
  db res.2 = db sample_state ∧
  ∃ j', job_objs res.2 !! 1%nat = Some j' ∧
        Job.status j' = "COMPLETED" ∧ Job.ended j' = Some 70 ∧
        Job.results j' = Job.results job_2.
Proof.
  cbv zeta.
  rewrite (complete_job_stops (λ output, output) 60 1%nat 70 sample_state job_2 eq_refl).
  split; [done|]. split; [done|].
  eexists. split; [apply lookup_insert_eq|]. done.
Qed.

(** ** Resource requirements *)

(** The scenario in general: the two sizes that [populate_job_data] stores,
    and [Job.get_resources] on the populated job, which stops at the first
    [remove_resource] call of [JobType.get_resources]. *)
Lemma populate_job_data_sizes validate_data now job data st j jt rev :
  job_objs st !! job = Some j →
  Job.job_type j = Some jt →
  Job.job_type_rev j = Some rev →
  validate_data (JobTypeRevision.interface rev) data = Ok tt →
  JobType.disk_out_const_required jt = 64%Q →
  JobType.disk_out_mult_required jt = 1%Q →
  JobManager.input_size_bytes
    (files_with_ids (JobData.get_input_file_ids data) (scale_file_rows (db st)))
  = 10 * 1024 * 1024 →
  ∃ st' j',
    JobManager.populate_job_data validate_data now job data st = (Ok tt, st') ∧
    job_objs st' !! job = Some j' ∧
    Job.job_type j' = Some jt ∧
    Job.disk_in_required j' = Some 10%Q ∧
    Job.disk_out_required j' = Some 74%Q ∧
    (∀ i row, Job.id j = Some i → job_rows (db st) !! i = Some row →
       ∃ row', job_rows (db st') !! i = Some row' ∧
               Job.disk_in_required row' = Some 10%Q ∧
               Job.disk_out_required row' = Some 74%Q) ∧
    Job_get_resources j' = Raise AttributeError.
Proof.
  intros Hj Hjt Hrev Hval Hdc Hdm Hsize.
  unfold JobManager.populate_job_data, bind, deref, lift, get_files, get_db, ret.
  rewrite Hj, Hrev. simpl. rewrite Hval, Hjt. simpl.
  rewrite Hsize, Hdc, Hdm.
  eexists _, _. split; [reflexivity|]. simpl.
  split; [apply lookup_insert_eq|].
  split; [exact Hjt|].
  split; [reflexivity|]. split; [reflexivity|]. split.
  { intros i row Hi Hrow. rewrite update_rows_lookup, Hrow, Hi. simpl.
    eexists. split; [reflexivity|]. rewrite decide_True by set_solver. done. }
  unfold Job_get_resources. simpl. by rewrite Hjt.
Qed.

(** C8: the code does what the claim says of [populate_job_data] and not
    what it says of [Job.get_resources]. On the sample job, whose type has
    mem_const=64, mem_mult=0, disk_out_const=64 and disk_out_mult=1 and
    whose two input files hold 4 MiB and 6 MiB, [populate_job_data] sets
    [disk_in_required] to 10 and [disk_out_required] to 74;
    [Job.get_resources] on the populated job then raises [AttributeError]
    and computes no memory. *)
Theorem populate_job_data_scenario :
  JobType.mem_const_required sample_job_type = 64%Q ∧
  JobType.mem_mult_required sample_job_type = 0%Q ∧
  JobManager.input_size_bytes
    (files_with_ids (JobData.get_input_file_ids sample_job_data)
       (scale_file_rows (db sample_state)))
  = 10 * 1024 * 1024 ∧
  ∃ st' j',
    JobManager.populate_job_data (λ _ _, Ok tt) 60 0%nat sample_job_data sample_state
    = (Ok tt, st') ∧
    job_objs st' !! 0%nat = Some j' ∧
    Job.job_type j' = Some sample_job_type ∧
    Job.disk_in_required j' = Some 10%Q ∧
    Job.disk_out_required j' = Some 74%Q ∧
    Job_get_resources j' = Raise AttributeError.
Proof.
  split; [reflexivity|]. split; [reflexivity|]. split; [reflexivity|].
  destruct (populate_job_data_sizes (λ _ _, Ok tt) 60 0%nat sample_job_data
              sample_state job_1 sample_job_type sample_rev
              eq_refl eq_refl eq_refl eq_refl eq_refl eq_refl eq_refl)
    as (st' & j' & Hrun & Hj & Hjt & Hin & Hout & _ & Hres).
  exists st', j'. split; [exact Hrun|]. split; [exact Hj|].
  split; [exact Hjt|]. split; [exact Hin|]. split; [exact Hout|exact Hres].
Qed.

(** ** [create_job] and [fail_job] *)

Lemma is_revision_spec job_type_id revision_num rev :
  JobTypeRevisionManager.is_revision job_type_id revision_num rev = true ↔
  JobTypeRevision.job_type_id rev = job_type_id ∧
  JobTypeRevision.revision_num rev = revision_num.
Proof.
  unfold JobTypeRevisionManager.is_revision.
  by rewrite andb_true_iff, !Z.eqb_eq.
Qed.

Lemma fresh_ref_ne (objs : gmap ref Job.t) (r : ref) (j : Job.t) :
  objs !! r = Some j → r ≠ fresh (dom objs).
Proof.
  intros Hr ->. apply (is_fresh (dom objs)). apply elem_of_dom. eauto.
Qed.

(** C5: a job created with [superseded_job = J] gets as root of its
    supersession chain the root [R] of [J] when [J] has one (row keys are
    never 0), and [J] itself when [J] has none; and its [job_type_rev] is the
    revision row of the job type's current revision number. *)
Theorem create_job_supersession (job_type : JobType.t) (event : Z)
    (superseded_job : ref) (delete_superseded : bool) (st : State)
    (J : Job.t) (rev : JobTypeRevision.t) :
  JobType.is_active job_type = true →
  job_objs st !! superseded_job = Some J →
  List.filter
    (JobTypeRevisionManager.is_revision (JobType.id job_type)
       (JobType.revision_num job_type))
    (job_type_rev_rows (db st)) = [rev] →
  ∃ job st' j,
    JobManager.create_job job_type (Some event) (Some superseded_job)
      delete_superseded st = (Ok job, st') ∧
    job ≠ superseded_job ∧
    job_objs st' !! job = Some j ∧
    job_objs st' !! superseded_job = Some J ∧
    (∀ R, Job.root_superseded_job_id J = Some R → R ≠ 0 →
          Job.root_superseded_job_id j = Some R) ∧
    (Job.root_superseded_job_id J = None →
     Job.root_superseded_job_id j = Job.id J) ∧
    Job.superseded_job_id j = Job.id J ∧
    Job.delete_superseded j = delete_superseded ∧
    Job.job_type_rev j = Some rev ∧
    JobTypeRevision.job_type_id rev = JobType.id job_type ∧
    JobTypeRevision.revision_num rev = JobType.revision_num job_type ∧
    Job.status j = "PENDING".
Proof.
  intros Hact HJ Hrev.
  assert (Hne := fresh_ref_ne _ _ _ HJ).
  assert (Hrev' : rev ∈ [rev]) by set_solver.
  rewrite <- Hrev in Hrev'. apply list_elem_of_In, filter_In in Hrev' as [_ Hrev'].
  apply is_revision_spec in Hrev' as [Hid Hnum].
  unfold JobManager.create_job. rewrite Hact. cbn [negb].
  unfold bind at 1. unfold new_job at 1.
  unfold bind at 1. unfold JobTypeRevisionManager.get_revision at 1. run_step.
  cbn [db job_objs job_exe_objs]. unfold objects_get. rewrite Hrev.
  rewrite lookup_insert_eq. cbn [db job_objs job_exe_objs].
  rewrite insert_insert_eq, lookup_insert_ne by done. rewrite HJ.
  cbn [db job_objs job_exe_objs]. rewrite lookup_insert_eq.
  cbn [db job_objs job_exe_objs]. rewrite insert_insert_eq.
  eexists _, _, _. split; [reflexivity|]. cbn [job_objs].
  split; [done|]. rewrite lookup_insert_eq. split; [done|].
  rewrite lookup_insert_ne by done. split; [done|].
  cbn. split; [|split].
  - intros R HR HR0. rewrite HR. cbn. unfold truthy, truthy_int.
    by rewrite (proj2 (Z.eqb_neq R 0)) by done.
  - intros HR. by rewrite HR.
  - done.
Qed.

(** [fail_job] with the value [error] for its error parameter. *)
Lemma fail_job_sets_fields (now : Time) (job : ref) (when : Time)
    (error : option Error) (st : State) (j : Job.t) :
  job_objs st !! job = Some j →
  ∃ st' j' i,
    JobManager.fail_job now job when error st = (Ok tt, st') ∧
    job_objs st' !! job = Some j' ∧
    Job.status j' = "FAILED" ∧ Job.error j' = error ∧
    Job.ended j' = Some when ∧ Job.last_status_change j' = Some when ∧
    Job.id j' = Some i ∧ job_rows (db st') !! i = Some j'.
Proof.
  intros Hj. unfold JobManager.fail_job, JobManager.save. run_step.
  rewrite Hj. cbn [db job_objs job_exe_objs]. rewrite lookup_insert_eq.
  eexists _, _, _. split; [reflexivity|]. cbn [db job_objs job_rows with_job_rows].
  rewrite !lookup_insert_eq. done.
Qed.


(** ** [update_jobs_to_running] *)

(** The loop of [update_jobs_to_running] stops at its first job, where it
    reads [locked_job.exe_num]. *)
Lemma running_loop_raises jobs locked_job rest to_update no_status :
  JobManager.running_loop jobs (locked_job :: rest) to_update no_status
  = Raise AttributeError.
Proof. reflexivity. Qed.

Lemma locked_jobs_found (job_ids : list Z) (st : State) i row :
  i ∈ job_ids → job_rows (db st) !! i = Some row →
  ∃ locked_job rest,
    JobManager.get_locked_jobs job_ids st = (Ok (locked_job :: rest), st).
Proof.
  intros Hi Hrow. unfold JobManager.get_locked_jobs, bind, get_db, ret.
  assert (Hin : row ∈ omap (λ i, job_rows (db st) !! i)
                        (merge_sort Z.le (remove_dups job_ids))).
  { apply list_elem_of_omap. exists i. split; [|done].
    rewrite merge_sort_Permutation. by apply elem_of_remove_dups. }
  destruct (omap _ _) as [|locked_job rest]; [by apply elem_of_nil in Hin|].
  by exists locked_job, rest.
Qed.

(** Whenever one of the given job ids has a row, [update_jobs_to_running]
    raises and nothing is updated. *)
Lemma update_jobs_to_running_stops now jobs when st i expected row :
  jobs !! i = Some expected → job_rows (db st) !! i = Some row →
  JobManager.update_jobs_to_running now jobs when st = (Raise AttributeError, st).
Proof.
  intros Hi Hrow.
  destruct (locked_jobs_found (map fst (map_to_list jobs)) st i row)
    as (locked_job & rest & Hlocked); [|done|].
  { apply list_elem_of_fmap. exists (i, expected). split; [done|].
    by apply elem_of_map_to_list. }
  unfold JobManager.update_jobs_to_running, atomic.
  rewrite (bind_ok _ _ _ _ _ Hlocked).
  unfold bind, lift. rewrite running_loop_raises. by destruct st.
Qed.

(** No call of [update_jobs_to_running] changes the state. *)
Lemma update_jobs_to_running_frame now jobs when st :
  (JobManager.update_jobs_to_running now jobs when st).2 = st.
Proof.
  unfold JobManager.update_jobs_to_running, atomic, bind, JobManager.get_locked_jobs,
    get_db, ret, lift.
  simpl.
  match goal with |- context [JobManager.running_loop jobs ?l [] []] =>
    destruct l as [|locked_job rest]
  end; by destruct st.
Qed.

(** C1: the code does not do what the claim says. Job 1 of the sample data
    has had one execution and the caller expects execution 3: the call
    raises [AttributeError] where the loop reads [locked_job.exe_num], and
    the transaction leaves the row of the job as it was, with no [started]
    time and its [last_modified] of before. *)
Theorem update_jobs_to_running_raises :
  let res := JobManager.update_jobs_to_running 50 {[1 := 3]} 100 sample_state in
  res = (Raise AttributeError, sample_state) ∧
  ∃ row, job_rows (db res.2) !! 1 = Some row ∧
         Job.num_exes row = 1 ∧ Job.status row = "PENDING" ∧
         Job.started row = None ∧ Job.last_modified row = Some 1.
Proof.
  cbv zeta.
  assert (Hrun : JobManager.update_jobs_to_running 50 {[1 := 3]} 100 sample_state
                 = (Raise AttributeError, sample_state)).
  { apply (update_jobs_to_running_stops 50 {[1 := 3]} 100 sample_state 1 3 job_1).
    - apply lookup_singleton_eq.
    - reflexivity. }
  rewrite Hrun. split; [done|]. by exists job_1.
Qed.

(** ** The properties on the sample data *)

Lemma sample_refs_valid (r : ref) :
  r ∈ [0; 1; 2]%nat → is_Some (job_objs sample_state !! r).
Proof.
  intros Hr. repeat (apply elem_of_cons in Hr as [->|Hr]); [by eexists..|].
  by apply elem_of_nil in Hr.
Defined.

Lemma update_status_guards_witness :
  ∃ st',
    JobExecutionManager.update_status 60 [0%nat] "COMPLETED" 70 None sample_state
    = (Ok tt, st') ∧
    ∀ e, e ∈ [0%nat] → status_cascaded "COMPLETED" sample_state st' e.
Proof.
  apply (proj2 (proj2 (proj2 (update_status_guards 60 70 sample_state)))).
  - set_solver.
  - split; [done|]. by intros [? ?].
  - intros e He. apply list_elem_of_singleton in He as ->.
    exists sample_exe, 1%nat. split; [done|]. split; [done|]. by eexists.
Defined.

Lemma queue_jobs_spec_witness :
  ∃ queued st',
    JobManager.queue_jobs [0; 1; 2]%nat 70 None sample_state = (Ok queued, st') ∧
    queued = [0%nat].
Proof.
  destruct (queue_jobs_spec [0; 1; 2]%nat 70 None sample_state sample_refs_valid)
    as (queued & st' & Hrun & _).
  exists queued, st'. split; [exact Hrun|].
  vm_compute in Hrun. by injection Hrun as <- _.
Defined.

Lemma queue_jobs_priority_zero_witness :
  ∃ queued st',
    JobManager.queue_jobs [0; 1; 2]%nat 70 (Some 0) sample_state = (Ok queued, st') ∧
    JobManager.queue_jobs [0; 1; 2]%nat 70 None sample_state = (Ok queued, st').
Proof.
  destruct (queue_jobs_priority_zero [0; 1; 2]%nat 70 sample_state sample_refs_valid)
    as (queued & st' & Hzero & Hnone & _).
  by exists queued, st'.
Defined.

Lemma create_job_supersession_witness :
  ∃ job st' j,
    JobManager.create_job sample_job_type (Some 9) (Some 1%nat) false sample_state
    = (Ok job, st') ∧
    job_objs st' !! job = Some j ∧
    Job.root_superseded_job_id j = Some 1 ∧
    Job.job_type_rev j = Some sample_rev.
Proof.
  destruct (create_job_supersession sample_job_type 9 1%nat false sample_state
              job_2 sample_rev eq_refl eq_refl eq_refl)
    as (job & st' & j & Hrun & _ & Hj & _ & Hroot & _ & _ & _ & Hrev & _).
  exists job, st', j. split; [exact Hrun|]. split; [exact Hj|].
  split; [|exact Hrev]. by apply Hroot.
Defined.


Lemma supersede_jobs_spec_witness :
  ∃ st', JobManager.supersede_jobs 60 [0; 1; 2]%nat 70 sample_state = (Ok tt, st').
Proof.
  destruct (supersede_jobs_spec 60 [0; 1; 2]%nat 70 sample_state sample_refs_valid)
    as (st' & Hrun & _).
  by exists st'.
Defined.



(** Why the values must come back: 0.5 + 2^53 is 2^53 in binary64, so
    adding vector 4 to vector 1 and subtracting it again leaves vector 1
    with no cpus at all, and [is_equal] with vector 5, which holds the
    values vector 1 started with, answers False as soon as [round] tells 0
    from 0.5. *)
Lemma add_subtract_rounds_off :
  let h := HeapNodeResources.subtract 1%nat 4%nat
             (HeapNodeResources.add 1%nat 4%nat sample_heap) in
  ScalarResource.value (HeapNodeResources.resource_at sample_heap 3%nat) = 0.5%float ∧
  ScalarResource.value (HeapNodeResources.resource_at h 3%nat) = 0%float ∧
  ∀ round, PrimFloat.eqb (round 0%float 5) (round 0.5%float 5) = false →
    HeapNodeResources.is_equal round 1%nat 5%nat h = false.
Proof.
  cbv zeta. split; [vm_compute; reflexivity|]. split; [vm_compute; reflexivity|].
  intros round Hround.
  apply (is_equal_differs round _ 1%nat 5%nat 16%nat 3%nat "cpus" 0%float 0.5%float);
    [|vm_compute; reflexivity..|exact Hround].
  apply list_elem_of_In. vm_compute. tauto.
Qed.

(** Why the vectors must hold no object in common: a vector added to itself
    and subtracted from itself ends with every value at 0, and [is_equal]
    with vector 2, which holds the values vector 0 started with, answers
    False as soon as [round] tells 0 from 1. *)
Lemma add_subtract_itself :
  let h := HeapNodeResources.subtract 0%nat 0%nat
             (HeapNodeResources.add 0%nat 0%nat sample_heap) in
  ScalarResource.value (HeapNodeResources.resource_at sample_heap 0%nat) = 1%float ∧
  ScalarResource.value (HeapNodeResources.resource_at h 0%nat) = 0%float ∧
  ScalarResource.value (HeapNodeResources.resource_at h 1%nat) = 0%float ∧
  ScalarResource.value (HeapNodeResources.resource_at h 2%nat) = 0%float ∧
  ∀ round, PrimFloat.eqb (round 0%float 5) (round 1%float 5) = false →
    HeapNodeResources.is_equal round 0%nat 2%nat h = false.
Proof.
  cbv zeta. do 4 (split; [vm_compute; reflexivity|]).
  intros round Hround.
  apply (is_equal_differs round _ 0%nat 2%nat 6%nat 0%nat "cpus" 0%float 1%float);
    [|vm_compute; reflexivity..|exact Hround].
  apply list_elem_of_In. vm_compute. tauto.
Qed.

Lemma sample_dict_0 :
  HeapNodeResources.dict_of sample_heap 0%nat
  = <["cpus" := 0%nat]> (<["mem" := 1%nat]> (<["disk" := 2%nat]> ∅)).
Proof. reflexivity. Defined.

Lemma sample_dict_1 :
  HeapNodeResources.dict_of sample_heap 1%nat
  = <["cpus" := 3%nat]> (<["mem" := 4%nat]> (<["disk" := 5%nat]> ∅)).
Proof. reflexivity. Defined.


(** * Further properties *)

(** ** Resource vector: ordering, names and construction *)

Section MoreNodeResourcesFacts.
Implicit Types self other : NodeResources.

Lemma increase_up_to_lookup self other name :
  NodeResources.increase_up_to self other !! name =
  match self !! name, other !! name with
  | Some a, Some b => Some (if Qle_bool b a then a else b)
  | Some a, None => Some a
  | None, o => o
  end.
Proof.
  unfold NodeResources.increase_up_to.
  apply (map_fold_weak_ind
           (λ r m, r !! name = match self !! name, m !! name with
                               | Some a, Some b => Some (if Qle_bool b a then a else b)
                               | Some a, None => Some a
                               | None, o => o
                               end)).
  - rewrite lookup_empty. by destruct (self !! name).
  - intros i x m r Hi IH. unfold NodeResources.increase_step.
    destruct (decide (i = name)) as [->|Hne].
    + rewrite Hi in IH. rewrite lookup_insert_eq.
      destruct (self !! name) eqn:Hs; rewrite IH.
      * destruct (Qle_bool x q); [done|]. by rewrite lookup_insert_eq.
      * by rewrite lookup_insert_eq.
    + rewrite (lookup_insert_ne m) by done.
      destruct (r !! i); [|by rewrite lookup_insert_ne].
      destruct (Qle_bool x q); [done|]. by rewrite lookup_insert_ne.
Qed.

Lemma is_sufficient_to_meet_spec self other :
  NodeResources.is_sufficient_to_meet self other = true ↔
  ∀ name b, other !! name = Some b →
            (b <= default 0%Q (self !! name))%Q.
Proof.
  unfold NodeResources.is_sufficient_to_meet. rewrite forallb_forall. split.
  - intros H name b Hb.
    specialize (H (name, b)). unfold NodeResources.meets in H. simpl in H.
    apply Qle_bool_iff. destruct (self !! name); apply H;
      by apply list_elem_of_In, elem_of_map_to_list.
  - intros H [name b] Hin. apply list_elem_of_In, elem_of_map_to_list in Hin.
    unfold NodeResources.meets. simpl. specialize (H name b Hin).
    destruct (self !! name); by apply Qle_bool_iff.
Qed.

(** X1: a resource vector is sufficient to meet itself. *)
Theorem is_sufficient_to_meet_refl self :
  NodeResources.is_sufficient_to_meet self self = true.
Proof.
  apply is_sufficient_to_meet_spec. intros name b ->. simpl. apply Qle_refl.
Qed.

(** X2: after [A.increase_up_to(B)], [A] is sufficient to meet [B] and to
    meet what [A] was before, and increasing up to [B] again changes
    nothing. *)
Theorem increase_up_to_sufficient self other :
  let raised := NodeResources.increase_up_to self other in
  NodeResources.is_sufficient_to_meet raised other = true ∧
  NodeResources.is_sufficient_to_meet raised self = true ∧
  NodeResources.increase_up_to raised other = raised.
Proof.
  intros raised. split; [|split].
  - apply is_sufficient_to_meet_spec. intros name b Hb.
    unfold raised. rewrite increase_up_to_lookup, Hb.
    destruct (self !! name) as [a|]; simpl; [|apply Qle_refl].
    destruct (Qle_bool b a) eqn:Hle; [by apply Qle_bool_iff|apply Qle_refl].
  - apply is_sufficient_to_meet_spec. intros name a Ha.
    unfold raised. rewrite increase_up_to_lookup, Ha.
    destruct (other !! name) as [b|]; simpl; [|apply Qle_refl].
    destruct (Qle_bool b a) eqn:Hle; [apply Qle_refl|].
    apply Qlt_le_weak, Qnot_le_lt. rewrite <- Qle_bool_iff. congruence.
  - apply map_eq. intros name. unfold raised. rewrite !increase_up_to_lookup.
    destruct (self !! name) as [a|], (other !! name) as [b|]; try done.
    + destruct (Qle_bool b a) eqn:Hle; [by rewrite Hle|].
      by rewrite (proj2 (Qle_bool_iff b b) (Qle_refl b)).
    + by rewrite (proj2 (Qle_bool_iff b b) (Qle_refl b)).
Qed.

(** X3: subtracting a request that the vector is sufficient to meet never
    drives a resource below zero: if no value of [A] is negative, no value of
    [A.subtract(B)] is. *)
Theorem subtract_sufficient_nonneg self other :
  NodeResources.is_sufficient_to_meet self other = true →
  (∀ name a, self !! name = Some a → (0 <= a)%Q) →
  ∀ name v, NodeResources.subtract self other !! name = Some v → (0 <= v)%Q.
Proof.
  intros Hsuff Hpos name v. rewrite subtract_lookup.
  destruct (self !! name) as [a|] eqn:Ha; [|done].
  destruct (other !! name) as [b|] eqn:Hb.
  - intros [= <-]. apply (proj1 (is_sufficient_to_meet_spec _ _)) with (name := name) (b := b) in Hsuff;
      [|done]. rewrite Ha in Hsuff. simpl in Hsuff.
    unfold Qminus. rewrite <- (Qplus_opp_r b).
    apply Qplus_le_compat; [done|apply Qle_refl].
  - intros [= <-]. by apply (Hpos name).
Qed.

(** X4: [add] and [increase_up_to] create in [A] the resources that only
    [B] names, and [subtract] never creates (or removes) a resource. *)
Theorem resource_names self other :
  dom (NodeResources.add self other) = dom self ∪ dom other ∧
  dom (NodeResources.increase_up_to self other) = dom self ∪ dom other ∧
  dom (NodeResources.subtract self other) = dom self.
Proof.
  split; [|split]; apply set_eq; intros name;
    rewrite ?elem_of_union, !elem_of_dom.
  - rewrite add_lookup.
    destruct (self !! name), (other !! name); simpl;
      rewrite <- ?not_eq_None_Some; naive_solver.
  - rewrite increase_up_to_lookup.
    destruct (self !! name), (other !! name); simpl;
      rewrite <- ?not_eq_None_Some; naive_solver.
  - rewrite subtract_lookup.
    destruct (self !! name), (other !! name); simpl;
      rewrite <- ?not_eq_None_Some; naive_solver.
Qed.
End MoreNodeResourcesFacts.

Section ConstructorFacts.
Implicit Types acc : NodeResources.

Let file (acc : NodeResources) (resource : Resource.t) : NodeResources :=
  <[Resource.name resource := Resource.value resource]> acc.

Lemma init_loop_ok resources :
  Forall is_scalar resources →
  ∀ acc, NodeResources.init_loop resources acc = Ok (foldl file acc resources).
Proof.
  induction 1 as [|r rest Hr _ IH]; intros acc; [done|]. simpl.
  rewrite decide_False by (intros H; by apply H). apply IH.
Qed.

Lemma init_loop_raise resources :
  ¬ Forall is_scalar resources →
  ∀ acc, NodeResources.init_loop resources acc = Raise ScaleLogicBug.
Proof.
  induction resources as [|r rest IH]; intros Hn acc.
  - destruct Hn. constructor.
  - simpl. case_decide as Hr; [done|].
    apply IH. intros Hrest. apply Hn. by constructor.
Qed.

Lemma filed_other resources name :
  (∀ r, r ∈ resources → Resource.name r ≠ name) →
  ∀ acc, foldl file acc resources !! name = acc !! name.
Proof.
  induction resources as [|r rest IH]; intros Hno acc; [done|]. simpl.
  rewrite IH by (intros r' Hr'; apply Hno; set_solver).
  unfold file. rewrite lookup_insert_ne; [done|]. apply Hno. set_solver.
Qed.

Lemma filed_last before resource after :
  (∀ r, r ∈ after → Resource.name r ≠ Resource.name resource) →
  ∀ acc, foldl file acc (before ++ resource :: after) !! Resource.name resource
         = Some (Resource.value resource).
Proof.
  intros Hno acc. rewrite foldl_app. simpl. rewrite filed_other by done.
  unfold file at 1. by rewrite lookup_insert_eq.
Qed.

Lemma filed_dom resources :
  ∀ acc name, name ∈ dom (foldl file acc resources) ↔
              name ∈ dom acc ∨ ∃ r, r ∈ resources ∧ Resource.name r = name.
Proof.
  induction resources as [|r rest IH]; intros acc name; simpl.
  - set_solver.
  - rewrite IH. unfold file at 1. rewrite dom_insert. set_solver.
Qed.

Lemma define_standard_lookup standard acc name :
  NodeResources.define_standard standard acc !! name =
  match acc !! name with
  | Some v => Some v
  | None => if decide (name = standard) then Some 0%Q else None
  end.
Proof.
  unfold NodeResources.define_standard.
  destruct (acc !! standard) eqn:Hs.
  - destruct (acc !! name) eqn:Hn; [done|]. case_decide; congruence.
  - destruct (decide (name = standard)) as [->|Hne].
    + by rewrite lookup_insert_eq, Hs.
    + rewrite lookup_insert_ne by done. by destruct (acc !! name).
Qed.

Lemma standard_lookup acc name :
  NodeResources.define_standard "disk"
    (NodeResources.define_standard "mem"
       (NodeResources.define_standard "cpus" acc)) !! name =
  match acc !! name with
  | Some v => Some v
  | None => if decide (name ∈ ["cpus"; "mem"; "disk"]) then Some 0%Q else None
  end.
Proof.
  rewrite !define_standard_lookup. destruct (acc !! name); [done|].
  repeat case_decide; set_solver.
Qed.
End ConstructorFacts.

(** X5: the constructor accepts a list of resources exactly when all are of
    type SCALAR (else it raises [ScaleLogicBug]); the vector then names cpus,
    mem and disk and the given resources and nothing else, a resource given
    twice keeps its last value, and a standard resource that is not given is
    0. *)
Theorem init_spec (resources : list Resource.t) :
  (Forall is_scalar resources →
   ∃ self,
     NodeResources.init (Some resources) = Ok self ∧
     (∀ name, name ∈ dom self ↔
              name ∈ ["cpus"; "mem"; "disk"] ∨
              ∃ r, r ∈ resources ∧ Resource.name r = name) ∧
     (∀ before resource after,
        resources = (before ++ resource :: after)%list →
        (∀ r, r ∈ after → Resource.name r ≠ Resource.name resource) →
        self !! Resource.name resource = Some (Resource.value resource)) ∧
     (∀ name, name ∈ ["cpus"; "mem"; "disk"] →
              (∀ r, r ∈ resources → Resource.name r ≠ name) →
              self !! name = Some 0%Q)) ∧
  (¬ Forall is_scalar resources →
   NodeResources.init (Some resources) = Raise ScaleLogicBug).
Proof.
  split.
  - intros Hall. unfold NodeResources.init.
    assert (Hloop : (if truthy (Some resources)
                     then NodeResources.init_loop (default [] (Some resources)) ∅
                     else Ok ∅)
                    = Ok (foldl (λ acc r, <[Resource.name r := Resource.value r]> acc)
                            ∅ resources)).
    { destruct resources as [|r rest]; [done|].
      change (truthy (Some (r :: rest))) with true. cbn [default].
      by rewrite init_loop_ok. }
    rewrite Hloop. eexists. split; [reflexivity|]. split; [|split].
    + intros name. rewrite elem_of_dom, standard_lookup.
      pose proof (filed_dom resources ∅ name) as Hdom.
      rewrite elem_of_dom, dom_empty in Hdom.
      destruct (foldl _ ∅ resources !! name) as [v|] eqn:Hv.
      * split; [|by eauto]. intros _. right.
        destruct (proj1 Hdom) as [?|?]; [by eauto|set_solver|done].
      * case_decide as Hstd.
        -- split; [by left|by eauto].
        -- split; [by intros [? ?]|]. intros [?|Hr]; [done|].
           destruct (proj2 Hdom (or_intror Hr)) as [? ?]. done.
    + intros before resource after -> Hno. rewrite standard_lookup.
      by rewrite filed_last.
    + intros name Hstd Hno. rewrite standard_lookup, filed_other by done.
      rewrite lookup_empty. by rewrite decide_True.
  - intros Hn. unfold NodeResources.init.
    destruct resources as [|r rest]; [destruct Hn; constructor|].
    change (truthy (Some (r :: rest))) with true. cbn [default].
    by rewrite init_loop_raise.
Qed.

Lemma is_equal_spec (self other : NodeResources) :
  NodeResources.is_equal self other = true ↔
  dom self = dom other ∧
  ∀ name a b, self !! name = Some a → other !! name = Some b →
              (round5 a == round5 b)%Q.
Proof.
  unfold NodeResources.is_equal. case_decide as Hdom.
  - split; [done|]. by intros [? _].
  - rewrite forallb_forall. split.
    + intros H. split; [done|]. intros name a b Ha Hb.
      specialize (H (name, b)). unfold NodeResources.same_rounded in H. simpl in H.
      rewrite Ha in H. apply Qeq_bool_iff, H.
      by apply list_elem_of_In, elem_of_map_to_list.
    + intros [_ H] [name b] Hin. apply list_elem_of_In, elem_of_map_to_list in Hin.
      unfold NodeResources.same_rounded. simpl.
      assert (is_Some (self !! name)) as [a Ha].
      { apply elem_of_dom. rewrite Hdom. apply elem_of_dom. eauto. }
      rewrite Ha. apply Qeq_bool_iff. by apply (H name).
Qed.

(** X6: [is_equal] is an equivalence: reflexive, symmetric and
    transitive. *)
Theorem is_equal_equivalence (A B C : NodeResources) :
  NodeResources.is_equal A A = true ∧
  (NodeResources.is_equal A B = true → NodeResources.is_equal B A = true) ∧
  (NodeResources.is_equal A B = true → NodeResources.is_equal B C = true →
   NodeResources.is_equal A C = true).
Proof.
  split; [|split].
  - apply is_equal_spec. split; [done|]. intros name a b Ha Hb.
    assert (a = b) as -> by congruence. reflexivity.
  - rewrite !is_equal_spec. intros [Hdom H]. split; [done|].
    intros name b a Hb Ha. symmetry. by apply (H name).
  - rewrite !is_equal_spec. intros [Hd1 H1] [Hd2 H2]. split; [congruence|].
    intros name a c Ha Hc.
    assert (is_Some (B !! name)) as [b Hb].
    { apply elem_of_dom. rewrite <- Hd1. apply elem_of_dom. eauto. }
    rewrite (H1 name a b Ha Hb). by apply (H2 name).
Qed.

(** ** Locking, canceling and retrying jobs *)

Lemma omap_sorted_keys {A} (f : Z → option A) (l : list Z) :
  StronglySorted Z.lt l →
  ∃ keys,
    StronglySorted Z.lt keys ∧
    (∀ i, i ∈ keys ↔ i ∈ l ∧ is_Some (f i)) ∧
    Forall2 (λ i x, f i = Some x) keys (omap f l).
Proof.
  induction 1 as [|i l Hl IH Hi].
  - exists []. split; [constructor|]. split; [set_solver|constructor].
  - destruct IH as (keys & Hs & Hk & Hf). simpl.
    destruct (f i) as [x|] eqn:Hfi.
    + exists (i :: keys). split; [|split].
      * constructor; [done|]. apply Forall_forall. intros k Hkk.
        apply Hk in Hkk as [Hkl _]. by apply (proj1 (Forall_forall _ _) Hi).
      * intros k. rewrite !elem_of_cons, Hk. split.
        -- intros [->|[? ?]]; [split; [by left|by eexists]|split; [by right|done]].
        -- intros [[->|?] ?]; [by left|by right].
      * by constructor.
    + exists keys. split; [done|]. split; [|done].
      intros k. rewrite elem_of_cons, Hk. split; [naive_solver|].
      intros [[->|?] Hs']; [|done]. rewrite Hfi in Hs'. by destruct Hs'.
Qed.

Lemma sorted_ids_strict (job_ids : list Z) :
  StronglySorted Z.lt (merge_sort Z.le (remove_dups job_ids)) ∧
  ∀ i, i ∈ merge_sort Z.le (remove_dups job_ids) ↔ i ∈ job_ids.
Proof.
  split.
  - assert (Hnd : NoDup (merge_sort Z.le (remove_dups job_ids))).
    { rewrite merge_sort_Permutation. apply NoDup_remove_dups. }
    assert (Hs : StronglySorted Z.le (merge_sort Z.le (remove_dups job_ids))).
    { apply StronglySorted_merge_sort; apply _. }
    induction Hs as [|i l Hl IH Hi]; [constructor|].
    apply NoDup_cons in Hnd as [Hni Hnd]. constructor; [by apply IH|].
    apply Forall_forall. intros k Hk.
    pose proof (proj1 (Forall_forall _ _) Hi k Hk) as Hle.
    assert (k ≠ i) by (intros ->; done). lia.
  - intros i. by rewrite merge_sort_Permutation, elem_of_remove_dups.
Qed.

Lemma get_locked_jobs_run (job_ids : list Z) (st : State) :
  ∃ keys locked_jobs,
    JobManager.get_locked_jobs job_ids st = (Ok locked_jobs, st) ∧
    StronglySorted Z.lt keys ∧
    (∀ i, i ∈ keys ↔ i ∈ job_ids ∧ is_Some (job_rows (db st) !! i)) ∧
    Forall2 (λ i row, job_rows (db st) !! i = Some row) keys locked_jobs.
Proof.
  destruct (sorted_ids_strict job_ids) as [Hs Hin].
  destruct (omap_sorted_keys (λ i, job_rows (db st) !! i) _ Hs) as (keys & Hks & Hk & Hf).
  exists keys. eexists. split; [reflexivity|]. split; [done|]. split; [|done].
  intros i. by rewrite Hk, Hin.
Qed.

(** X7: [get_locked_jobs] returns the rows of the requested ids that exist,
    each once, in order of strictly ascending id (the order in which the
    rows are locked). *)
Theorem get_locked_jobs_ascending (job_ids : list Z) (st : State) :
  ∃ keys locked_jobs,
    JobManager.get_locked_jobs job_ids st = (Ok locked_jobs, st) ∧
    StronglySorted Z.lt keys ∧
    (∀ i, i ∈ keys ↔ i ∈ job_ids ∧ is_Some (job_rows (db st) !! i)) ∧
    Forall2 (λ i row, job_rows (db st) !! i = Some row) keys locked_jobs.
Proof. apply get_locked_jobs_run. Qed.

Lemma cancelable_loop_ids locked_jobs :
  ∀ acc i,
    i ∈ JobManager.id_set (cancelable_loop locked_jobs acc) ↔
    i ∈ JobManager.id_set acc ∨
    ∃ row, row ∈ locked_jobs ∧ Job.can_be_canceled row = true ∧ Job.id row = Some i.
Proof.
  induction locked_jobs as [|row rest IH]; intros acc i; simpl.
  - set_solver.
  - destruct (Job.can_be_canceled row) eqn:Hc; rewrite IH.
    + unfold JobManager.id_set. rewrite foldr_app. simpl.
      assert (Hacc : ∀ l s, i ∈ foldr add_id s l ↔ i ∈ foldr add_id ∅ l ∨ i ∈ s).
      { induction l as [|o l IHl]; intros s; simpl; [set_solver|].
        rewrite !add_id_elem, IHl. naive_solver. }
      rewrite Hacc, add_id_elem. split.
      * intros [[?|[?|?]]|(r & ? & ? & ?)]; [by left|right; exists row; set_solver|set_solver|
                                               right; exists r; set_solver].
      * intros [?|(r & [->|?]%elem_of_cons & ? & ?)]; [by left; left|left; right; by left|].
        right. by exists r.
    + split.
      * intros [?|(r & ? & ? & ?)]; [by left|right; exists r; set_solver].
      * intros [?|(r & [->|?]%elem_of_cons & ? & ?)]; [by left|congruence|].
        right. by exists r.
Qed.

Lemma can_be_canceled_spec row :
  Job.can_be_canceled row = true ↔ Job.status row ∉ ["COMPLETED"; "CANCELED"].
Proof.
  unfold Job.can_be_canceled. rewrite negb_true_iff, bool_decide_eq_false. done.
Qed.

Lemma update_jobs_to_canceled_run now job_ids when st :
  rows_keyed (job_rows (db st)) →
  ∃ ids,
    JobManager_update_jobs_to_canceled now job_ids when st
    = (Ok tt,
       mkState (with_job_rows
                  (update_rows ids (MoreAssign.canceled when now) (job_rows (db st)))
                  (db st))
         (job_objs st) (job_exe_objs st)) ∧
    ∀ i, i ∈ ids ↔
         i ∈ job_ids ∧ ∃ row, job_rows (db st) !! i = Some row ∧
                              Job.status row ∉ ["COMPLETED"; "CANCELED"].
Proof.
  intros Hkeyed.
  destruct (get_locked_jobs_run job_ids st) as (keys & locked & Hrun & _ & Hk & Hf).
  exists (JobManager.id_set (cancelable_loop locked [])). split.
  - unfold JobManager_update_jobs_to_canceled, atomic, bind. rewrite Hrun.
    destruct (truthy (cancelable_loop locked [])) eqn:Htr; [reflexivity|].
    apply truthy_list_false in Htr. rewrite Htr. unfold ret. simpl.
    rewrite update_rows_empty, with_job_rows_same. by destruct st.
  - intros i. rewrite cancelable_loop_ids. simpl. split.
    + intros [?|(row & Hrow & Hc & Hi)]; [set_solver|].
      apply list_elem_of_lookup in Hrow as [n Hn].
      destruct (Forall2_lookup_r _ _ _ _ _ Hf Hn) as (k & Hkn & Hrow).
      pose proof (Hkeyed _ _ Hrow) as Hid. assert (k = i) as -> by congruence.
      assert (i ∈ keys) as [? ?]%Hk by (apply list_elem_of_lookup; eauto).
      split; [done|]. exists row. split; [done|]. by apply can_be_canceled_spec.
    + intros [Hi (row & Hrow & Hs)]. right.
      assert (i ∈ keys) as [n Hn]%list_elem_of_lookup by (apply Hk; eauto).
      destruct (Forall2_lookup_l _ _ _ _ _ Hf Hn) as (row' & Hn' & Hrow').
      assert (row' = row) as -> by congruence.
      exists row. split; [apply list_elem_of_lookup; eauto|].
      split; [by apply can_be_canceled_spec|]. by apply Hkeyed.
Qed.

Lemma update_rows_keyed ids (f : Job.t → Job.t) rows :
  (∀ j, Job.id (f j) = Job.id j) → rows_keyed rows → rows_keyed (update_rows ids f rows).
Proof.
  intros Hf Hk i row. rewrite update_rows_lookup.
  destruct (rows !! i) as [row0|] eqn:Hrow; [|done]. simpl. intros [= <-].
  case_decide; rewrite ?Hf; by apply Hk.
Qed.

(** X8: [update_jobs_to_canceled] never raises; it sets to CANCELED exactly
    the requested rows that are neither COMPLETED nor CANCELED, with the
    cancel time as last_status_change, and leaves their ended, error and
    started as they were; every other row and every instance is untouched,
    and a second call changes nothing. *)
Theorem update_jobs_to_canceled_spec (now : Time) (job_ids : list Z) (when : Time)
    (st : State) :
  rows_keyed (job_rows (db st)) →
  ∃ st',
    JobManager_update_jobs_to_canceled now job_ids when st = (Ok tt, st') ∧
    job_objs st' = job_objs st ∧
    (∀ i row, job_rows (db st) !! i = Some row →
       ∃ row', job_rows (db st') !! i = Some row' ∧
         (i ∈ job_ids → Job.status row ∉ ["COMPLETED"; "CANCELED"] →
          Job.status row' = "CANCELED" ∧
          Job.last_status_change row' = Some when ∧
          Job.last_modified row' = Some now ∧
          Job.ended row' = Job.ended row ∧
          Job.error row' = Job.error row ∧
          Job.started row' = Job.started row) ∧
         (i ∉ job_ids ∨ Job.status row ∈ ["COMPLETED"; "CANCELED"] → row' = row)) ∧
    (∀ now2 when2,
       JobManager_update_jobs_to_canceled now2 job_ids when2 st' = (Ok tt, st')).
Proof.
  intros Hkeyed.
  destruct (update_jobs_to_canceled_run now job_ids when st Hkeyed) as (ids & Hrun & Hids).
  eexists. split; [exact Hrun|]. split; [done|]. split.
  - intros i row Hrow. simpl. rewrite update_rows_lookup, Hrow. simpl.
    eexists. split; [done|]. split.
    + intros Hi Hs. rewrite decide_True; [done|]. apply Hids. eauto.
    + intros Hno. rewrite decide_False; [done|]. rewrite Hids.
      intros [Hi (row0 & Hrow0 & Hs)]. assert (row0 = row) as -> by congruence.
      destruct Hno; done.
  - intros now2 when2. set (st' := mkState _ _ _).
    assert (Hkeyed' : rows_keyed (job_rows (db st'))).
    { simpl. by apply update_rows_keyed. }
    destruct (update_jobs_to_canceled_run now2 job_ids when2 st' Hkeyed')
      as (ids2 & Hrun2 & Hids2).
    rewrite Hrun2. assert (ids2 = ∅) as ->.
    { apply set_eq. intros i. rewrite Hids2. split; [|set_solver].
      intros [Hi (row & Hrow & Hs)]. simpl in Hrow.
      rewrite update_rows_lookup in Hrow.
      destruct (job_rows (db st) !! i) as [row0|] eqn:Hrow0; [|done].
      simpl in Hrow. injection Hrow as <-. case_decide as Hin.
      - simpl in Hs. set_solver.
      - destruct Hin. apply Hids. eauto. }
    rewrite update_rows_empty, with_job_rows_same. done.
Qed.

Lemma increment_max_tries_loop_eq modified jobs :
  ∀ job_ids st,
    increment_max_tries_loop modified jobs job_ids st
    = JobManager.update_status_loop (MoreAssign.one_more_try modified) jobs job_ids st.
Proof.
  induction jobs as [|job rest IH]; intros job_ids st; [done|].
  simpl. unfold bind. destruct (deref job st) as [[j|e] st1]; [|done].
  destruct (assign job _ st1) as [[[]|e] st2]; [apply IH|done].
Qed.

(** X9: [increment_max_tries] gives every listed job one try more than the
    executions it has had (max_tries = num_exes + 1), in memory from the
    instance's count and in the row from the row's own count, and changes
    neither the count nor the status. *)
Theorem increment_max_tries_spec (now : Time) (jobs : list ref) (st : State) :
  (∀ r, r ∈ jobs → is_Some (job_objs st !! r)) →
  ∃ st',
    JobManager_increment_max_tries now jobs st = (Ok tt, st') ∧
    (∀ r j, r ∈ jobs → job_objs st !! r = Some j →
       ∃ j', job_objs st' !! r = Some j' ∧
             Job.max_tries j' = Job.num_exes j + 1 ∧
             Job.num_exes j' = Job.num_exes j ∧
             Job.status j' = Job.status j) ∧
    (∀ r, r ∉ jobs → job_objs st' !! r = job_objs st !! r) ∧
    (∀ i row, job_rows (db st) !! i = Some row →
       ∃ row', job_rows (db st') !! i = Some row' ∧
               (listed (λ _, True) jobs st i →
                Job.max_tries row' = Job.num_exes row + 1 ∧
                Job.num_exes row' = Job.num_exes row ∧
                Job.status row' = Job.status row) ∧
               (¬ listed (λ _, True) jobs st i → row' = row)).
Proof.
  intros Hvalid. unfold JobManager_increment_max_tries, bind.
  rewrite increment_max_tries_loop_eq.
  destruct (update_status_loop_run (MoreAssign.one_more_try now) (λ _, eq_refl)
              (λ _, eq_refl) jobs ∅ st Hvalid) as (ids & objs' & Hrun & Hobjs & Hids).
  rewrite Hrun. eexists. split; [reflexivity|]. simpl. split; [|split].
  - intros r j Hr Hj. rewrite Hobjs, decide_True, Hj by done. by eexists.
  - intros r Hr. by rewrite Hobjs, decide_False.
  - intros i row Hrow. rewrite update_rows_lookup, Hrow. simpl.
    assert (Hl : i ∈ ids ↔ listed (λ _, True) jobs st i).
    { rewrite Hids. unfold listed. set_solver. }
    eexists. split; [done|]. split; intros H.
    + by rewrite decide_True by (by apply Hl).
    + by rewrite decide_False by (by rewrite Hl).
Qed.

Lemma update_status_ok_guards now jobs status when error st st' :
  JobManager.update_status now jobs status when error st = (Ok tt, st') →
  status ≠ "QUEUED" ∧ (status = "FAILED" ↔ is_Some error).
Proof.
  unfold JobManager.update_status.
  case_bool_decide as Hq; [done|].
  destruct (bool_decide (status = "FAILED") && negb (truthy error)) eqn:H1; [done|].
  destruct (negb (bool_decide (status = "FAILED")) && truthy error) eqn:H2; [done|].
  intros _. split; [done|]. rewrite <- truthy_error_is_Some.
  case_bool_decide as Hf; simpl in *.
  - apply negb_false_iff in H1. done.
  - split; [done|]. congruence.
Qed.

Lemma supersede_jobs_run now jobs when st :
  (∀ r, r ∈ jobs → is_Some (job_objs st !! r)) →
  ∃ d' objs',
    JobManager.supersede_jobs now jobs when st
    = (Ok tt, mkState d' objs' (job_exe_objs st)) ∧
    ∀ r, objs' !! r =
         if decide (r ∈ jobs)
         then (λ j, if decide (pre_execution j)
                    then status_update now "CANCELED" when None
                           (Assign.superseded_at when now j)
                    else Assign.superseded_at when now j) <$> job_objs st !! r
         else job_objs st !! r.
Proof.
  intros Hvalid. unfold JobManager.supersede_jobs, bind.
  destruct (supersede_loop_run when now jobs ∅ [] st Hvalid)
    as (ids & new & objs1 & Hrun & Hobjs1 & Hids & Hnew).
  rewrite Hrun. cbn [app]. unfold update_jobs. run_step. cbn [db job_objs job_exe_objs].
  destruct (truthy new) eqn:Htr.
  - set (st2 := mkState _ objs1 _).
    destruct (update_status_run now new "CANCELED" when None st2)
      as (ids2 & objs2 & Hrun2 & Hobjs2 & Hids2).
    { done. } { split; [done|by intros [? ?]]. }
    { intros r [Hr _]%Hnew. simpl. rewrite Hobjs1, decide_True by done.
      destruct (Hvalid r Hr) as [j ->]. by eexists. }
    eexists _, objs2. split; [exact Hrun2|].
    intros r. rewrite Hobjs2. unfold st2. simpl. rewrite Hobjs1.
    destruct (decide (r ∈ jobs)) as [Hr|Hr].
    + destruct (job_objs st !! r) as [j|] eqn:Hj.
      * simpl. destruct (decide (r ∈ new)) as [Hin|Hnin].
        -- apply Hnew in Hin as [_ (j0 & Hj0 & Hp)].
           assert (j0 = j) as -> by congruence. simpl. by rewrite decide_True.
        -- rewrite decide_False; [done|]. intros Hp. apply Hnin, Hnew. eauto.
      * by case_decide.
    + rewrite decide_False; [done|]. by intros [? _]%Hnew.
  - apply truthy_list_false in Htr. subst new.
    eexists _, objs1. split; [reflexivity|].
    intros r. rewrite Hobjs1. case_decide as Hr; [|done].
    destruct (job_objs st !! r) as [j|] eqn:Hj; [|done]. simpl.
    rewrite decide_False; [done|]. intros Hp.
    destruct (Hnew r) as [_ H]. set_solver.
Qed.

(** X10: [update_status], [queue_jobs] and [supersede_jobs] keep the
    invariant that a job carries an error exactly when it is FAILED: if every
    instance of the store has it before a successful call, every instance has
    it after. *)
Theorem error_iff_failed_kept (jobs : list ref) (st : State) :
  store_keeps error_iff_failed st →
  (∀ r, r ∈ jobs → is_Some (job_objs st !! r)) →
  (∀ now status when error st',
     JobManager.update_status now jobs status when error st = (Ok tt, st') →
     store_keeps error_iff_failed st') ∧
  (∀ when priority queued st',
     JobManager.queue_jobs jobs when priority st = (Ok queued, st') →
     store_keeps error_iff_failed st') ∧
  (∀ now when st',
     JobManager.supersede_jobs now jobs when st = (Ok tt, st') →
     store_keeps error_iff_failed st').
Proof.
  intros Hinv Hvalid. split; [|split].
  - intros now status when error st' Hrun.
    destruct (update_status_ok_guards _ _ _ _ _ _ _ Hrun) as [Hq Hf].
    destruct (update_status_run now jobs status when error st Hq Hf Hvalid)
      as (ids & objs' & Hrun' & Hobjs & _).
    rewrite Hrun' in Hrun. injection Hrun as <-.
    intros r j'. simpl. rewrite Hobjs. case_decide; [|apply Hinv].
    destruct (job_objs st !! r) as [j|]; [|done]. simpl. intros [= <-].
    unfold error_iff_failed. done.
  - intros when priority queued st' Hrun.
    destruct (queue_jobs_run jobs when priority st Hvalid)
      as (ids & queued' & objs' & Hrun' & Hobjs & _).
    rewrite Hrun' in Hrun. injection Hrun as _ <-.
    intros r j'. simpl. rewrite Hobjs.
    destruct (job_objs st !! r) as [j|] eqn:Hj; [|done]. simpl. intros [= <-].
    case_decide; [|by apply (Hinv r)].
    unfold error_iff_failed. simpl. split; [done|by intros [? ?]].
  - intros now when st' Hrun.
    destruct (supersede_jobs_run now jobs when st Hvalid) as (d' & objs' & Hrun' & Hobjs).
    rewrite Hrun' in Hrun. injection Hrun as <-.
    intros r j'. simpl. rewrite Hobjs. case_decide; [|apply Hinv].
    destruct (job_objs st !! r) as [j|] eqn:Hj; [|done]. simpl. intros [= <-].
    case_decide.
    + unfold error_iff_failed. simpl. split; [done|by intros [? ?]].
    + exact (Hinv r j Hj).
Qed.

Lemma queue_jobs_nothing jobs when priority st :
  (∀ r, r ∈ jobs → is_Some (job_objs st !! r)) →
  (∀ r j, r ∈ jobs → job_objs st !! r = Some j → ¬ queueable j) →
  JobManager.queue_jobs jobs when priority st = (Ok [], st).
Proof.
  intros Hvalid Hnone.
  destruct (queue_jobs_run jobs when priority st Hvalid)
    as (ids & queued & objs' & Hrun & Hobjs & Hids & _ & Hq).
  rewrite Hrun. f_equal.
  - f_equal. destruct queued as [|r ?]; [done|].
    destruct (Hq r) as [(Hr & j & Hj & Hqj) _]; [set_solver|].
    by destruct (Hnone r j).
  - assert (ids = ∅) as ->.
    { apply set_eq. intros i. rewrite Hids. split; [|set_solver].
      intros (r & j & Hr & Hj & Hqj & _). by destruct (Hnone r j). }
    rewrite update_rows_empty, with_job_rows_same.
    assert (objs' = job_objs st) as ->; [|by destruct st].
    apply map_eq. intros r. rewrite Hobjs.
    destruct (job_objs st !! r) as [j|] eqn:Hj; [|done]. simpl. f_equal.
    apply decide_False. intros [Hr Hqj]. by destruct (Hnone r j).
Qed.

(** X11: a superseded job is never queued: after [supersede_jobs] on a
    list, [queue_jobs] on any part of that list queues nothing and changes
    nothing. *)
Theorem superseded_never_queued (now : Time) (jobs : list ref) (when : Time)
    (st : State) :
  (∀ r, r ∈ jobs → is_Some (job_objs st !! r)) →
  ∃ st',
    JobManager.supersede_jobs now jobs when st = (Ok tt, st') ∧
    ∀ jobs' when' priority,
      jobs' ⊆ jobs →
      JobManager.queue_jobs jobs' when' priority st' = (Ok [], st').
Proof.
  intros Hvalid.
  destruct (supersede_jobs_run now jobs when st Hvalid) as (d' & objs' & Hrun & Hobjs).
  eexists. split; [exact Hrun|].
  intros jobs' when' priority Hsub. apply queue_jobs_nothing.
  - intros r Hr. simpl. rewrite Hobjs, decide_True by set_solver.
    destruct (Hvalid r) as [j ->]; [set_solver|]. by eexists.
  - intros r j' Hr. simpl. rewrite Hobjs, decide_True by set_solver.
    destruct (job_objs st !! r) as [j|]; [|done]. simpl. intros [= <-].
    intros (_ & _ & Hs). by case_decide.
Qed.

(** X12: a job that has data and is not superseded can be queued again once
    [fail_job] has failed it: [queue_jobs] then returns it, QUEUED, with the
    error and the end time cleared and one more execution counted. *)
Theorem failed_job_can_be_queued_again (now : Time) (job : ref) (when : Time)
    (error : option Error) (when' : Time) (priority : option Z) (st : State)
    (j : Job.t) :
  job_objs st !! job = Some j →
  Job.data j ≠ [] →
  Job.is_superseded j = false →
  ∃ st1 st2 j2,
    JobManager.fail_job now job when error st = (Ok tt, st1) ∧
    JobManager.queue_jobs [job] when' priority st1 = (Ok [job], st2) ∧
    job_objs st2 !! job = Some j2 ∧
    Job.status j2 = "QUEUED" ∧ Job.error j2 = None ∧ Job.ended j2 = None ∧
    Job.num_exes j2 = Job.num_exes j + 1.
Proof.
  intros Hj Hdata Hsup.
  assert (Hfail : ∃ i adding,
    JobManager.fail_job now job when error st
    = (Ok tt, mkState
                (with_job_rows
                   (<[i := Assign.saved i adding now (Assign.failed when error j)]>
                      (job_rows (db st))) (db st))
                (<[job := Assign.saved i adding now (Assign.failed when error j)]>
                   (job_objs st))
                (job_exe_objs st))).
  { unfold JobManager.fail_job, JobManager.save. run_step. rewrite Hj.
    cbn [db job_objs job_exe_objs]. rewrite lookup_insert_eq.
    cbn [db job_objs job_exe_objs]. rewrite insert_insert_eq. eauto. }
  destruct Hfail as (i & adding & Hfail). rewrite Hfail.
  set (j1 := Assign.saved i adding now (Assign.failed when error j)).
  set (st1 := mkState _ _ _).
  assert (Hj1 : job_objs st1 !! job = Some j1) by apply lookup_insert_eq.
  assert (Hq1 : queueable j1).
  { unfold queueable. simpl. split; [set_solver|done]. }
  destruct (queue_jobs_run [job] when' priority st1)
    as (ids & queued & objs' & Hrun & Hobjs & _ & Hnd & Hq).
  { intros r ->%list_elem_of_singleton. eauto. }
  assert (queued = [job]) as ->.
  { assert (Hin : job ∈ queued) by (apply Hq; set_solver).
    destruct queued as [|r [|r' rest]].
    - set_solver.
    - apply list_elem_of_singleton in Hin as ->. done.
    - exfalso. assert (r = job) by (destruct (Hq r) as [[?%list_elem_of_singleton _] _];
                                    [set_solver|done]).
      assert (r' = job) by (destruct (Hq r') as [[?%list_elem_of_singleton _] _];
                             [set_solver|done]).
      subst. apply NoDup_cons in Hnd as [Hn _]. set_solver. }
  eexists _, _, _. split; [reflexivity|]. split; [exact Hrun|]. simpl.
  rewrite Hobjs, Hj1. simpl. rewrite decide_True by (split; [set_solver|done]).
  done.
Qed.

(** ** Creating jobs and sizing them *)

(** X13: [create_job] raises for an inactive job type, then for a missing
    event, then when the job type's current revision has not exactly one
    row; otherwise, with no superseded job, it returns a new PENDING instance
    with the type's priority, timeout and max_tries, no id, no supersession
    links and [delete_superseded] at its default (the argument is not
    read), and it never writes the database. *)
Theorem create_job_unsaved (job_type : JobType.t) (event : option Z)
    (superseded_job : option ref) (delete_superseded : bool) (st : State) :
  (JobType.is_active job_type = false →
   JobManager.create_job job_type event superseded_job delete_superseded st
   = (Raise (Exception "Job type is no longer active"), st)) ∧
  (JobType.is_active job_type = true → event = None →
   JobManager.create_job job_type event superseded_job delete_superseded st
   = (Raise (Exception "Event that triggered job creation is required"), st)) ∧
  (JobType.is_active job_type = true →
   ∀ ev, event = Some ev →
     (∀ rev,
        List.filter
          (JobTypeRevisionManager.is_revision (JobType.id job_type)
             (JobType.revision_num job_type))
          (job_type_rev_rows (db st)) ≠ [rev]) →
     ∃ e st',
       JobManager.create_job job_type event superseded_job delete_superseded st
       = (Raise e, st') ∧
       e ∈ [DoesNotExist; MultipleObjectsReturned] ∧ db st' = db st) ∧
  (JobType.is_active job_type = true →
   ∀ ev rev, event = Some ev → superseded_job = None →
     List.filter
       (JobTypeRevisionManager.is_revision (JobType.id job_type)
          (JobType.revision_num job_type))
       (job_type_rev_rows (db st)) = [rev] →
     ∃ job st' j,
       JobManager.create_job job_type event superseded_job delete_superseded st
       = (Ok job, st') ∧
       db st' = db st ∧
       job_objs st !! job = None ∧
       job_objs st' = <[job := j]> (job_objs st) ∧
       Job.id j = None ∧ Job.status j = "PENDING" ∧ Job.num_exes j = 0 ∧
       Job.job_type j = Some job_type ∧ Job.job_type_rev j = Some rev ∧
       Job.event j = Some ev ∧
       Job.priority j = JobType.priority job_type ∧
       Job.timeout j = JobType.timeout job_type ∧
       Job.max_tries j = JobType.max_tries job_type ∧
       Job.root_superseded_job_id j = None ∧ Job.superseded_job_id j = None ∧
       Job.delete_superseded j = true).
Proof.
  split; [|split; [|split]].
  - intros Hact. unfold JobManager.create_job. by rewrite Hact.
  - intros Hact ->. unfold JobManager.create_job. by rewrite Hact.
  - intros Hact ev -> Hno. unfold JobManager.create_job. rewrite Hact. cbn [negb].
    unfold bind at 1. unfold new_job at 1.
    unfold bind at 1. unfold JobTypeRevisionManager.get_revision at 1. run_step.
    cbn [db job_objs job_exe_objs]. unfold objects_get.
    destruct (List.filter _ _) as [|rev [|rev' rest]] eqn:Hf.
    + eexists _, _. split; [reflexivity|]. split; [set_solver|done].
    + by destruct (Hno rev).
    + eexists _, _. split; [reflexivity|]. split; [set_solver|done].
  - intros Hact ev rev -> -> Hrev. unfold JobManager.create_job. rewrite Hact. cbn [negb].
    unfold bind at 1. unfold new_job at 1.
    unfold bind at 1. unfold JobTypeRevisionManager.get_revision at 1. run_step.
    cbn [db job_objs job_exe_objs]. unfold objects_get. rewrite Hrev.
    rewrite lookup_insert_eq. cbn [db job_objs job_exe_objs].
    rewrite insert_insert_eq.
    eexists _, _, _. split; [reflexivity|]. cbn [db job_objs].
    split; [done|]. split.
    { apply not_elem_of_dom, is_fresh. }
    split; [reflexivity|]. done.
Qed.

Lemma mib_ceiling (bytes : Z) :
  let mib := ceil (inject_Z bytes / (1024 * 1024)) in
  (mib - 1) * 1048576 < bytes ≤ mib * 1048576.
Proof.
  intros mib.
  pose proof (Qle_ceiling (inject_Z bytes / (1024 * 1024))) as Hle.
  pose proof (Qceiling_lt (inject_Z bytes / (1024 * 1024))) as Hlt.
  fold (ceil (inject_Z bytes / (1024 * 1024))) in Hle, Hlt. fold mib in Hle, Hlt.
  unfold Qle in Hle. unfold Qlt in Hlt. simpl in Hle, Hlt. lia.
Qed.

Lemma ceil_whole (m mib c : Z) :
  ceil (inject_Z m * inject_Z mib + inject_Z c) = m * mib + c.
Proof.
  unfold ceil.
  rewrite (Qceiling_comp _ (inject_Z (m * mib + c))); [apply Qceiling_Z|].
  by rewrite inject_Z_plus, inject_Z_mult.
Qed.

Lemma py_max_whole (k : Z) : py_max (inject_Z k) MIN_DISK = inject_Z (Z.max k 0).
Proof.
  unfold py_max, MIN_DISK. destruct (Qle_bool 0 (inject_Z k)) eqn:Hle.
  - apply Qle_bool_iff in Hle. unfold Qle in Hle. simpl in Hle.
    f_equal. lia.
  - assert (k < 0) as Hk.
    { destruct (Z_lt_le_dec k 0) as [|Hge]; [done|].
      assert (Qle_bool 0 (inject_Z k) = true) as Hc; [|congruence].
      apply Qle_bool_iff. unfold Qle. simpl. lia. }
    by rewrite Z.max_r by lia.
Qed.

(** X14: [populate_job_data] changes nothing when the data is rejected by
    the interface. For a whole-number multiplier and constant it otherwise
    stores as [disk_in_required] the least whole number of MiB that holds
    the input bytes and as [disk_out_required] multiplier * input MiB +
    constant, or 0 when that is negative, and it adds one input-file row
    per input of the data. The bounds keep every intermediate value a whole
    number that a binary64 float holds exactly. *)
Theorem populate_job_data_whole_numbers
    (validate_data : json → JobData.t → result unit)
    (now : Time) (job : ref) (data : JobData.t) (st : State)
    (j : Job.t) (jt : JobType.t) (rev : JobTypeRevision.t) (m c : Z) :
  job_objs st !! job = Some j →
  Job.job_type j = Some jt →
  Job.job_type_rev j = Some rev →
  JobType.disk_out_mult_required jt = inject_Z m →
  JobType.disk_out_const_required jt = inject_Z c →
  let bytes :=
    JobManager.input_size_bytes
      (files_with_ids (JobData.get_input_file_ids data) (scale_file_rows (db st))) in
  (∀ e, validate_data (JobTypeRevision.interface rev) data = Raise e →
        JobManager.populate_job_data validate_data now job data st = (Raise e, st)) ∧
  (validate_data (JobTypeRevision.interface rev) data = Ok tt →
   0 ≤ bytes ≤ 2 ^ 53 → - 2 ^ 10 ≤ m ≤ 2 ^ 10 → - 2 ^ 40 ≤ c ≤ 2 ^ 40 →
   ∃ st' j' mib,
     JobManager.populate_job_data validate_data now job data st = (Ok tt, st') ∧
     job_objs st' !! job = Some j' ∧
     Job.data j' = JobData.get_dict data ∧
     (mib - 1) * 1048576 < bytes ≤ mib * 1048576 ∧
     Job.disk_in_required j' = Some (inject_Z mib) ∧
     Job.disk_out_required j' = Some (inject_Z (Z.max (m * mib + c) 0)) ∧
     job_input_file_rows (db st') =
       (job_input_file_rows (db st) ++
        map (λ info, JobInputFile.mk (Job.id j) info.1 info.2)
          (JobData.get_input_file_info data))%list).
Proof.
  intros Hj Hjt Hrev Hm Hc bytes. split.
  - intros e Hval. unfold JobManager.populate_job_data, bind, deref, lift.
    rewrite Hj, Hrev. simpl. by rewrite Hval.
  - intros Hval Hbytes _ _.
    unfold JobManager.populate_job_data, bind, deref, lift, get_files, get_db, ret.
    rewrite Hj, Hrev. simpl. rewrite Hval, Hjt. simpl. fold bytes.
    pose proof (mib_ceiling bytes) as Hmib. cbv zeta in Hmib.
    set (mib := ceil (inject_Z bytes / (1024 * 1024))) in *.
    rewrite Hm, Hc, ceil_whole, !py_max_whole.
    eexists _, _, mib. split; [reflexivity|]. simpl.
    split; [apply lookup_insert_eq|]. split; [done|]. split; [done|].
    split; [|done]. simpl. do 2 f_equal. lia.
Qed.

(** ** The times a status update sets *)

(** X16: a successful [update_status] gives every listed job the status and
    the error, sets [last_status_change] to [when], sets [started] only for
    RUNNING, sets [ended] to [when] for FAILED, COMPLETED and CANCELED and
    clears it for every other status, and leaves [num_exes] and [queued];
    jobs not listed are untouched. [JobExecutionManager.update_status], in
    contrast, rejects RUNNING. *)
Theorem update_status_times (now : Time) (jobs : list ref) (status : string)
    (when : Time) (error : option Error) (st st' : State) :
  (∀ r, r ∈ jobs → is_Some (job_objs st !! r)) →
  JobManager.update_status now jobs status when error st = (Ok tt, st') →
  (∀ r j, r ∈ jobs → job_objs st !! r = Some j →
     ∃ j', job_objs st' !! r = Some j' ∧
           Job.status j' = status ∧ Job.error j' = error ∧
           Job.last_status_change j' = Some when ∧
           Job.started j' = (if decide (status = "RUNNING") then Some when
                             else Job.started j) ∧
           Job.ended j' = (if decide (status ∈ ["FAILED"; "COMPLETED"; "CANCELED"])
                           then Some when else None) ∧
           Job.num_exes j' = Job.num_exes j ∧ Job.queued j' = Job.queued j) ∧
  (∀ r, r ∉ jobs → job_objs st' !! r = job_objs st !! r) ∧
  (∀ job_exes,
     ∃ msg, JobExecutionManager.update_status now job_exes "RUNNING" when error st
            = (Raise (Exception msg), st)).
Proof.
  intros Hvalid Hrun.
  destruct (update_status_ok_guards _ _ _ _ _ _ _ Hrun) as [Hq Hf].
  destruct (update_status_run now jobs status when error st Hq Hf Hvalid)
    as (ids & objs' & Hrun' & Hobjs & _).
  rewrite Hrun' in Hrun. injection Hrun as <-. simpl. split; [|split].
  - intros r j Hr Hj. rewrite Hobjs, decide_True, Hj by done. simpl.
    eexists. split; [done|]. simpl. split; [done|]. split; [done|]. split; [done|].
    split; [|split; [|done]].
    + by destruct (decide (status = "RUNNING")); 
        [rewrite bool_decide_eq_true_2|rewrite bool_decide_eq_false_2].
    + unfold Job.FINAL_STATUSES.
      by destruct (decide (status ∈ ["FAILED"; "COMPLETED"; "CANCELED"]));
        [rewrite bool_decide_eq_true_2|rewrite bool_decide_eq_false_2].
  - intros r Hr. by rewrite Hobjs, decide_False.
  - intros job_exes. eexists. reflexivity.
Qed.

(** ** The error cache *)

Lemma objects_get_named name rows error :
  objects_get (ErrorManager.named name) rows = Ok error →
  ErrorModel.name error = name ∧ error ∈ rows.
Proof.
  unfold objects_get. intros H.
  destruct (List.filter _ rows) as [|row [|]] eqn:Hf; try discriminate.
  injection H as <-.
  assert (Hin : In row (List.filter (ErrorManager.named name) rows))
    by (rewrite Hf; left; done).
  apply filter_In in Hin as [Hin Hn]. unfold ErrorManager.named in Hn.
  apply bool_decide_eq_true in Hn. split; [done|]. by apply list_elem_of_In.
Qed.

(** X17: once [get_error(name)] has returned an error, the cache holds it
    under that name, the entries the cache had are kept, and every later
    [get_error(name)] returns the same error whatever the table then holds:
    the cache is never refreshed by [get_error]. *)
Theorem get_error_cached_for_good name rows cache error cache' :
  ErrorManager.get_error name rows cache = (Ok error, cache') →
  cache' !! name = Some error ∧
  (∀ n e, cache !! n = Some e → cache' !! n = Some e) ∧
  (∀ n, n ≠ name → cache' !! n = cache !! n) ∧
  (∀ rows', ErrorManager.get_error name rows' cache' = (Ok error, cache')).
Proof.
  unfold ErrorManager.get_error. intros H.
  destruct (cache !! name) as [e0|] eqn:Hc.
  - injection H as <- <-. rewrite Hc. by repeat split.
  - destruct (objects_get _ rows) as [e1|x] eqn:Hg; [|discriminate].
    injection H as <- <-. split; [by rewrite lookup_insert_eq|]. repeat split.
    + intros n e Hn. rewrite lookup_insert_ne; [done|]. intros <-. congruence.
    + intros n Hn. by rewrite lookup_insert_ne.
    + intros rows'. by rewrite lookup_insert_eq.
Qed.

(** X18: [get_error(name)] raises exactly when the name is not cached and the
    table does not hold exactly one row of that name. *)
Theorem get_error_raises name rows cache :
  is_raise (ErrorManager.get_error name rows cache).1 ↔
  cache !! name = None ∧
  length (List.filter (ErrorManager.named name) rows) ≠ 1%nat.
Proof.
  unfold ErrorManager.get_error, objects_get.
  destruct (cache !! name) as [e0|]; simpl.
  - split; [done|]. by intros [? _].
  - destruct (List.filter _ rows) as [|row [|]]; simpl; split; try done;
      try (by intros [_ ?]); try (split; [done|]; simpl; lia).
Qed.

(** X19: [get_error] and [cache_builtin_errors] keep the cache filed by
    name: the key of every entry is the name of the error it holds. *)
Theorem cache_named_kept name rows cache :
  ErrorManager.cache_named cache →
  ErrorManager.cache_named (ErrorManager.get_error name rows cache).2 ∧
  ErrorManager.cache_named (ErrorManager.cache_builtin_errors rows cache).
Proof.
  intros Hinv. split.
  - unfold ErrorManager.get_error.
    destruct (cache !! name) as [e0|] eqn:Hc; [done|].
    destruct (objects_get _ rows) as [e1|x] eqn:Hg; [|done]. simpl.
    apply objects_get_named in Hg as [Hn _].
    intros n e. destruct (decide (n = name)) as [->|Hne].
    + rewrite lookup_insert_eq. by intros [= <-].
    + rewrite lookup_insert_ne by done. apply Hinv.
  - unfold ErrorManager.cache_builtin_errors.
    generalize (List.filter ErrorModel.is_builtin rows). intros l.
    revert cache Hinv. induction l as [|e l IH]; intros cache Hinv; [done|].
    simpl. apply IH. intros n e'.
    destruct (decide (n = ErrorModel.name e)) as [->|Hne].
    + rewrite lookup_insert_eq. by intros [= <-].
    + rewrite lookup_insert_ne by done. apply Hinv.
Qed.

Lemma cache_fold_lookup (l : list ErrorModel.t) (cache : ErrorManager.Cache) n :
  (∀ e, e ∈ l → ErrorModel.name e ≠ n) →
  foldl (λ cache error, <[ErrorModel.name error := error]> cache) cache l !! n
  = cache !! n.
Proof.
  revert cache. induction l as [|e l IH]; intros cache Hn; [done|].
  simpl. rewrite IH by (intros e' He'; apply Hn; by right).
  rewrite lookup_insert_ne; [done|]. apply Hn. by left.
Qed.

Lemma cache_fold_last (l : list ErrorModel.t) (cache : ErrorManager.Cache) e :
  e ∈ l →
  ∃ e', foldl (λ cache error, <[ErrorModel.name error := error]> cache) cache l
          !! ErrorModel.name e = Some e' ∧
        e' ∈ l ∧ ErrorModel.name e' = ErrorModel.name e.
Proof.
  revert cache e. induction l as [|x l IH]; intros cache e He; [by apply elem_of_nil in He|].
  simpl.
  destruct (decide (Exists (λ y, ErrorModel.name y = ErrorModel.name e) l))
    as [Hex|Hno]; rewrite Exists_exists in *.
  - destruct Hex as (y & Hy & Hny).
    destruct (IH (<[ErrorModel.name x := x]> cache) y Hy) as (e' & Hl & Hin & Hn).
    exists e'. rewrite <- Hny. split; [done|]. split; [by right|congruence].
  - assert (Hx : ErrorModel.name x = ErrorModel.name e).
    { apply elem_of_cons in He as [->|He]; [done|]. destruct Hno. by exists e. }
    exists x. rewrite cache_fold_lookup.
    + rewrite <- Hx, lookup_insert_eq. split; [done|]. split; [by left|done].
    + intros y Hy Hny. apply Hno. by exists y.
Qed.

(** X20: after [cache_builtin_errors], the cache holds for every built-in row
    a built-in row of the table with the same name, [get_error] of that name
    is answered from the cache whatever the table then holds, and the names
    of no built-in row keep the entry they had. *)
Theorem cache_builtin_errors_spec rows cache :
  let cache' := ErrorManager.cache_builtin_errors rows cache in
  (∀ e, e ∈ rows → ErrorModel.is_builtin e = true →
     ∃ e', cache' !! ErrorModel.name e = Some e' ∧ e' ∈ rows ∧
           ErrorModel.is_builtin e' = true ∧
           ErrorModel.name e' = ErrorModel.name e ∧
           ∀ rows', ErrorManager.get_error (ErrorModel.name e) rows' cache'
                    = (Ok e', cache')) ∧
  (∀ n, (∀ e, e ∈ rows → ErrorModel.is_builtin e = true → ErrorModel.name e ≠ n) →
     cache' !! n = cache !! n).
Proof.
  simpl. unfold ErrorManager.cache_builtin_errors. split.
  - intros e He Hb.
    assert (Hin : e ∈ List.filter ErrorModel.is_builtin rows).
    { apply list_elem_of_In, filter_In. split; [by apply list_elem_of_In|done]. }
    destruct (cache_fold_last _ cache e Hin) as (e' & Hl & Hin' & Hn).
    apply list_elem_of_In, filter_In in Hin' as [Hin' Hb'].
    exists e'. split; [done|]. split; [by apply list_elem_of_In|].
    split; [done|]. split; [done|].
    intros rows'. unfold ErrorManager.get_error. by rewrite Hl.
  - intros n Hn. apply cache_fold_lookup. intros e He.
    apply list_elem_of_In, filter_In in He as [He Hb].
    apply Hn; [by apply list_elem_of_In|done].
Qed.

(** ** Cluster ids *)

Lemma split_nonempty sep s : split sep s ≠ [].
Proof.
  destruct s as [|c s]; simpl; [done|].
  destruct (Ascii.eqb c sep); [done|]. by destruct (split sep s).
Qed.

Lemma join_cons sep x l :
  l ≠ [] → join sep (x :: l) = x ++ sep ++ join sep l.
Proof. by destruct l. Qed.

Lemma join_cons_char sep x l :
  l ≠ [] →
  join (String sep EmptyString) (x :: l) = x ++ String sep (join (String sep EmptyString) l).
Proof. by destruct l. Qed.

Lemma join_split sep s : join (String sep EmptyString) (split sep s) = s.
Proof.
  induction s as [|c s IH]; simpl; [done|].
  destruct (Ascii.eqb c sep) eqn:Hc.
  - apply Ascii.eqb_eq in Hc as ->.
    rewrite join_cons by apply split_nonempty. simpl. by rewrite IH.
  - pose proof (split_nonempty sep s) as Hne.
    destruct (split sep s) as [|seg segs]; [done|].
    destruct segs as [|seg' segs].
    + simpl in *. by rewrite IH.
    + rewrite join_cons by done. rewrite join_cons in IH by done.
      by rewrite <- IH.
Qed.

Lemma split_free sep s : sep ∉ chars s → split sep s = [s].
Proof.
  induction s as [|c s IH]; simpl; [done|]. intros Hn.
  apply not_elem_of_cons in Hn as [Hc Hn].
  destruct (Ascii.eqb c sep) eqn:Heq; [apply Ascii.eqb_eq in Heq; congruence|].
  by rewrite IH.
Qed.

Lemma split_segments_free sep s : Forall (λ seg, sep ∉ chars seg) (split sep s).
Proof.
  induction s as [|c s IH]; simpl.
  - constructor; [|done]. simpl. apply not_elem_of_nil.
  - destruct (Ascii.eqb c sep) eqn:Heq.
    + constructor; [|done]. simpl. apply not_elem_of_nil.
    + destruct (split sep s) as [|seg segs]; simpl.
      * constructor; [|done]. simpl. apply not_elem_of_cons. split; [|apply not_elem_of_nil].
        intros <-. by rewrite Ascii.eqb_refl in Heq.
      * apply Forall_cons in IH as [Hseg Hsegs]. constructor; [|done].
        simpl. apply not_elem_of_cons. split; [|done].
        intros <-. by rewrite Ascii.eqb_refl in Heq.
Qed.

Lemma split_app sep a b :
  split sep (a ++ String sep b) = (split sep a ++ split sep b)%list.
Proof.
  induction a as [|c a IH]; simpl.
  - by rewrite Ascii.eqb_refl.
  - destruct (Ascii.eqb c sep); [by rewrite IH|].
    rewrite IH. pose proof (split_nonempty sep a) as Hne.
    by destruct (split sep a).
Qed.

Lemma split_join sep segments :
  segments ≠ [] → Forall (λ seg, sep ∉ chars seg) segments →
  split sep (join (String sep EmptyString) segments) = segments.
Proof.
  induction segments as [|seg segs IH]; [done|]. intros _ Hfree.
  apply Forall_cons in Hfree as [Hseg Hsegs].
  destruct segs as [|seg' segs].
  - simpl. by apply split_free.
  - rewrite join_cons_char by done.
    rewrite split_app, split_free by done. simpl. f_equal. by apply IH.
Qed.

Lemma append_assoc (a b c : string) : (a ++ b) ++ c = a ++ (b ++ c).
Proof.
  induction a as [|x a IH]; [done|].
  change (String x ((a ++ b) ++ c) = String x (a ++ (b ++ c))). by rewrite IH.
Qed.

Lemma chars_app (a b : string) : chars (a ++ b) = (chars a ++ chars b)%list.
Proof.
  induction a as [|x a IH]; [done|].
  change (x :: chars (a ++ b) = x :: (chars a ++ chars b)%list). by rewrite IH.
Qed.

Lemma split_parse task_id :
  split "_" (parse_cluster_id task_id) = take 4 (split "_" task_id).
Proof.
  unfold parse_cluster_id. apply (split_join "_"%char).
  - pose proof (split_nonempty "_" task_id). by destruct (split "_" task_id).
  - apply Forall_take, split_segments_free.
Qed.

Lemma parse_short task_id :
  (length (split "_" task_id) ≤ 4)%nat → parse_cluster_id task_id = task_id.
Proof.
  intros Hlen. unfold parse_cluster_id. rewrite take_ge by done.
  apply (join_split "_"%char).
Qed.

(** X21: [parse_cluster_id] is idempotent, and it returns the task id
    unchanged exactly when the task id has at most four segments. *)
Theorem parse_cluster_id_idempotent task_id :
  parse_cluster_id (parse_cluster_id task_id) = parse_cluster_id task_id ∧
  (parse_cluster_id task_id = task_id ↔ (length (split "_" task_id) ≤ 4)%nat).
Proof.
  split.
  - unfold parse_cluster_id at 1. by rewrite split_parse, take_idemp.
  - split.
    + intros Heq. rewrite <- Heq, split_parse, length_take. lia.
    + apply parse_short.
Qed.

Lemma uint_chars (d : Decimal.uint) :
  "_"%char ∉ chars (NilEmpty.string_of_uint d).
Proof.
  induction d; simpl; try apply not_elem_of_nil;
    (apply not_elem_of_cons; split; [discriminate|done]).
Qed.

Lemma fmt_d_chars (n : Z) : "_"%char ∉ chars (fmt_d n).
Proof.
  unfold fmt_d, NilZero.string_of_int, NilZero.string_of_uint.
  destruct (Z.to_int n) as [d|d].
  - destruct d; try apply (uint_chars (_ d)).
    simpl. apply not_elem_of_cons. split; [discriminate|apply not_elem_of_nil].
  - simpl. apply not_elem_of_cons. split; [discriminate|].
    destruct d; try apply (uint_chars (_ d)).
    simpl. apply not_elem_of_cons. split; [discriminate|apply not_elem_of_nil].
Qed.

Lemma split_cluster_id prefix framework_id job_id exe_num :
  split "_" (set_cluster_id prefix framework_id job_id exe_num)
  = (split "_" (prefix ++ "_" ++ framework_id)%string
     ++ [(fmt_d job_id ++ "x" ++ fmt_d exe_num)%string])%list.
Proof.
  unfold set_cluster_id.
  replace (prefix ++ "_" ++ framework_id ++ "_" ++ fmt_d job_id ++ "x" ++ fmt_d exe_num)
    with ((prefix ++ "_" ++ framework_id) ++ String "_" (fmt_d job_id ++ "x" ++ fmt_d exe_num)).
  - rewrite split_app. f_equal. apply split_free.
    rewrite chars_app. simpl. rewrite elem_of_app, elem_of_cons.
    intros [H|[H|H]]; [by apply fmt_d_chars in H|discriminate|by apply fmt_d_chars in H].
  - rewrite append_assoc. simpl. by rewrite append_assoc.
Qed.

(** X22: when the prefix and the framework id have three segments between
    them, the cluster id made by [set_cluster_id] has four, so
    [parse_cluster_id] recovers it from any task id that extends it by
    ["_"] and a suffix, and from the cluster id itself. *)
Theorem parse_cluster_id_of_task prefix framework_id job_id exe_num suffix :
  length (split "_" (prefix ++ "_" ++ framework_id)) = 3%nat →
  parse_cluster_id (set_cluster_id prefix framework_id job_id exe_num ++ "_" ++ suffix)
  = set_cluster_id prefix framework_id job_id exe_num ∧
  parse_cluster_id (set_cluster_id prefix framework_id job_id exe_num)
  = set_cluster_id prefix framework_id job_id exe_num.
Proof.
  intros Hlen.
  assert (Hfour : length (split "_" (set_cluster_id prefix framework_id job_id exe_num))
                  = 4%nat).
  { rewrite split_cluster_id, length_app, Hlen. done. }
  split.
  - unfold parse_cluster_id.
    change (?a ++ "_" ++ suffix) with (a ++ String "_" suffix).
    rewrite split_app, take_app_ge, Hfour by lia. simpl. rewrite take_0, app_nil_r.
    apply (join_split "_"%char).
  - apply parse_short. lia.
Qed.

(** X23: an execution without a cluster id gets the old-style id
    ["scale_<pk>"] from [get_cluster_id]; that id has two segments only, so
    [parse_cluster_id] returns a task id made from it and a one-segment
    suffix unchanged, which is not the cluster id. *)
Theorem parse_cluster_id_old_style cluster_id pk suffix :
  cluster_id = None ∨ cluster_id = Some EmptyString →
  "_"%char ∉ chars suffix →
  get_cluster_id cluster_id pk = "scale_" ++ fmt_d pk ∧
  parse_cluster_id (get_cluster_id cluster_id pk ++ "_" ++ suffix)
  = get_cluster_id cluster_id pk ++ "_" ++ suffix ∧
  parse_cluster_id (get_cluster_id cluster_id pk ++ "_" ++ suffix)
  ≠ get_cluster_id cluster_id pk.
Proof.
  intros Hc Hsuffix.
  assert (Hold : get_cluster_id cluster_id pk = "scale_" ++ fmt_d pk).
  { by destruct Hc as [->| ->]. }
  assert (Hp : parse_cluster_id (get_cluster_id cluster_id pk ++ "_" ++ suffix)
               = get_cluster_id cluster_id pk ++ "_" ++ suffix).
  { apply parse_short. rewrite Hold.
    change (("scale_" ++ fmt_d pk) ++ "_" ++ suffix)
      with (("scale" ++ String "_" (fmt_d pk)) ++ String "_" suffix).
    rewrite !split_app, !length_app.
    rewrite (split_free _ (fmt_d pk)) by apply fmt_d_chars.
    rewrite (split_free _ suffix) by done. simpl. lia. }
  split; [done|]. split; [done|].
  rewrite Hp. intros Heq.
  apply (f_equal String.length) in Heq. revert Heq.
  generalize (get_cluster_id cluster_id pk). intros s.
  induction s as [|c s IH]; simpl; [done|]. intros [= H]. by apply IH.
Qed.

(** ** The database updater *)

Lemma filter_ext_in {A} (P Q : A → Prop) `{∀ x, Decision (P x)} `{∀ x, Decision (Q x)}
    (l : list A) :
  (∀ x, x ∈ l → P x ↔ Q x) → filter P l = filter Q l.
Proof.
  induction l as [|x l IH]; intros Hext; [done|].
  rewrite !filter_cons, IH by (intros y Hy; apply Hext; by right).
  destruct (decide (P x)) as [HP|HP], (decide (Q x)) as [HQ|HQ]; try done;
    exfalso; apply (Hext x) in HP || apply (Hext x) in HQ; done || by left.
Qed.

Lemma filter_none_in {A} (P : A → Prop) `{∀ x, Decision (P x)} (l : list A) :
  (∀ x, x ∈ l → ¬ P x) → filter P l = [].
Proof.
  induction l as [|x l IH]; intros Hno; [done|].
  rewrite filter_cons, IH by (intros y Hy; apply Hno; by right).
  destruct (decide (P x)) as [HP|HP]; [|done]. destruct (Hno x); [by left|done].
Qed.

Section UpdaterFacts.
Import DatabaseUpdater.
Variable datetime_to_string : Time → string.
Variable TaskResults_get_dict : list TaskDict.t → json.

Let body := loop_body datetime_to_string TaskResults_get_dict.
Let end_of := end_model datetime_to_string TaskResults_get_dict.
Let inv := loop_inv datetime_to_string TaskResults_get_dict.

Lemma page_job_ids_spec page j :
  j ∈ page_job_ids page ↔ ∃ row, row ∈ page ∧ JobExeRow.job_id row = j.
Proof.
  unfold page_job_ids.
  assert (Hgen : ∀ acc : gset Z,
    j ∈ foldl (λ job_ids job_exe, {[JobExeRow.job_id job_exe]} ∪ job_ids) acc page
    ↔ j ∈ acc ∨ ∃ row, row ∈ page ∧ JobExeRow.job_id row = j).
  { induction page as [|x page IH]; intros acc; simpl.
    - split; [by left|]. intros [?|(? & H & _)]; [done|by apply elem_of_nil in H].
    - rewrite IH, elem_of_union, elem_of_singleton. split.
      + intros [[->|?]|(row & Hin & Hj)].
        * right. exists x. split; [by left|done].
        * by left.
        * right. exists row. split; [by right|done].
      + intros [?|(row & Hin & Hj)]; [left; by right|].
        apply elem_of_cons in Hin as [->|Hin]; [left; by left|].
        right. by exists row. }
  rewrite Hgen. split; [|by right]. intros [H|H]; [|done]. by apply elem_of_empty in H.
Qed.

Lemma job_exe_qry_sorted job_ids table :
  StronglySorted by_job_then_id (job_exe_qry job_ids table).
Proof. apply (StronglySorted_merge_sort _). Qed.

Lemma job_exe_qry_perm job_ids table :
  job_exe_qry job_ids table
  ≡ₚ filter (λ job_exe, JobExeRow.job_id job_exe ∈ job_ids) table.
Proof. apply merge_sort_Permutation. Qed.

Lemma job_exe_qry_elem job_ids table row :
  row ∈ job_exe_qry job_ids table ↔ row ∈ table ∧ JobExeRow.job_id row ∈ job_ids.
Proof. rewrite job_exe_qry_perm, list_elem_of_filter. tauto. Qed.

Lemma job_exe_qry_nodup job_ids table :
  NoDup (JobExeRow.id <$> table) → NoDup (JobExeRow.id <$> job_exe_qry job_ids table).
Proof.
  intros Hnd. rewrite job_exe_qry_perm.
  induction table as [|x table IH]; [constructor|].
  rewrite fmap_cons in Hnd. apply NoDup_cons in Hnd as [Hx Hnd].
  rewrite filter_cons. destruct (decide _); [|by apply IH].
  rewrite fmap_cons. apply NoDup_cons. split; [|by apply IH].
  intros Hin. apply Hx. apply list_elem_of_fmap in Hin as (y & -> & Hy).
  apply list_elem_of_filter in Hy as [_ Hy]. apply list_elem_of_fmap. by exists y.
Qed.

(** In a list in the order of the query, the executions of the job of [e]
    with a smaller id are those of its job that come before it. *)
Lemma rank_split pre e rest :
  StronglySorted by_job_then_id (pre ++ e :: rest)%list →
  NoDup (JobExeRow.id <$> (pre ++ e :: rest)%list) →
  filter (λ other, JobExeRow.job_id other = JobExeRow.job_id e ∧
                   JobExeRow.id other < JobExeRow.id e) (pre ++ e :: rest)%list
  = filter (λ other, JobExeRow.job_id other = JobExeRow.job_id e) pre.
Proof.
  intros Hs Hnd. rewrite filter_app.
  rewrite (filter_none_in _ (e :: rest)).
  - rewrite app_nil_r. apply filter_ext_in. intros x Hx.
    split; [tauto|]. intros Hj. split; [done|].
    assert (Hle : by_job_then_id x e).
    { eapply StronglySorted_app_1_elem_of; [done..|by left]. }
    assert (Hne : JobExeRow.id x ≠ JobExeRow.id e).
    { rewrite fmap_app, fmap_cons in Hnd. apply NoDup_app in Hnd as (_ & Hd & _).
      intros Heq. apply (Hd (JobExeRow.id x)).
      - apply list_elem_of_fmap. by exists x.
      - rewrite Heq. by left. }
    unfold by_job_then_id in Hle. lia.
  - intros x Hx [Hj Hlt]. apply elem_of_cons in Hx as [->|Hx]; [lia|].
    apply StronglySorted_app_1_r in Hs. apply StronglySorted_inv in Hs as [_ Hall].
    rewrite Forall_forall in Hall. specialize (Hall x Hx).
    unfold by_job_then_id in Hall. lia.
Qed.

Lemma loop_body_inv l pre e rest vars :
  l = (pre ++ e :: rest)%list →
  StronglySorted by_job_then_id l →
  NoDup (JobExeRow.id <$> l) →
  inv l pre vars → inv l (pre ++ [e])%list (body vars e).
Proof.
  intros Hl Hs Hnd (Hcount & Hjob & Hnum & Hdict & Hends & Houts).
  assert (Hrank : rank l e
    = 1 + Z.of_nat (length (filter (λ other, JobExeRow.job_id other = JobExeRow.job_id e) pre))).
  { unfold rank. subst l. by rewrite rank_split. }
  assert (Hnew : (if decide (Some (JobExeRow.job_id e) = current_job_id vars)
                  then (current_job_id vars, current_exe_num vars + 1)
                  else (Some (JobExeRow.job_id e), 1))
                 = (Some (JobExeRow.job_id e), rank l e)).
  { destruct (decide _) as [Heq|Hne].
    - rewrite <- Heq. f_equal. rewrite (Hnum _ (eq_sym Heq)), Hrank. lia.
    - f_equal. rewrite Hrank.
      rewrite (filter_none_in _ pre); [done|].
      intros x Hx Hj. apply Hne. rewrite Hjob.
      destruct (last pre) as [y|] eqn:Hlast; [|apply last_None in Hlast; subst pre; by apply elem_of_nil in Hx].
      simpl. f_equal. apply last_Some in Hlast as [pre' ->].
      assert (Hye : by_job_then_id y e).
      { subst l. eapply StronglySorted_app_1_elem_of; [done| |by left].
        apply elem_of_app. right. by left. }
      assert (Hxy : JobExeRow.job_id x ≤ JobExeRow.job_id y).
      { apply elem_of_app in Hx as [Hx|Hx].
        - subst l. apply StronglySorted_app_1_l, StronglySorted_app in Hs as (Hxy & _).
          specialize (Hxy x y Hx ltac:(by left)). unfold by_job_then_id in Hxy. lia.
        - apply list_elem_of_singleton in Hx as ->. lia. }
      unfold by_job_then_id in Hye. lia. }
  unfold inv, loop_inv, body, loop_body. rewrite Hnew. simpl.
  split; [rewrite length_app; simpl; lia|].
  split; [by rewrite last_snoc|].
  split.
  { intros j [= <-]. rewrite Hrank, filter_app, length_app.
    rewrite (filter_cons _ e), decide_True by done. simpl. lia. }
  split.
  { intros n i.
    assert (Hiff : (∃ ids, match exe_num_dict vars !! rank l e with
                           | Some job_exe_ids =>
                               <[rank l e := (job_exe_ids ++ [JobExeRow.id e])%list]>
                                 (exe_num_dict vars)
                           | None => <[rank l e := [JobExeRow.id e]]> (exe_num_dict vars)
                           end !! n = Some ids ∧ i ∈ ids)
                   ↔ (∃ ids, exe_num_dict vars !! n = Some ids ∧ i ∈ ids)
                     ∨ (n = rank l e ∧ i = JobExeRow.id e)).
    { destruct (decide (n = rank l e)) as [->|Hn].
      - destruct (exe_num_dict vars !! rank l e) as [ids0|] eqn:Hd;
          rewrite lookup_insert_eq.
        + split.
          * intros (ids & [= <-] & Hi). apply elem_of_app in Hi as [Hi|Hi].
            -- left. by exists ids0.
            -- right. by apply list_elem_of_singleton in Hi.
          * intros [(ids & [= <-] & Hi)|[_ ->]]; eexists; (split; [done|]);
              apply elem_of_app; [by left|right; by left].
        + split.
          * intros (ids & [= <-] & Hi). right. by apply list_elem_of_singleton in Hi.
          * intros [(ids & [=] & _)|[_ ->]]. eexists. split; [done|by left].
      - assert (Hlk : ∀ m : gmap Z (list Z), ∀ v, <[rank l e := v]> m !! n = m !! n)
          by (intros; by rewrite lookup_insert_ne).
        destruct (exe_num_dict vars !! rank l e); setoid_rewrite Hlk; naive_solver. }
    rewrite Hiff, Hdict. split.
    - intros [(x & Hx & Hi & Hn)|[-> ->]].
      + exists x. split; [apply elem_of_app; by left|done].
      + exists e. split; [apply elem_of_app; right; by left|done].
    - intros (x & Hx & Hi & Hn). apply elem_of_app in Hx as [Hx|Hx].
      + left. by exists x.
      + apply list_elem_of_singleton in Hx as ->. by right. }
  split.
  - rewrite filter_app, fmap_app, (filter_cons _ e), Hends.
    fold end_of. destruct (decide (has_final_status e)); simpl; [done|by rewrite app_nil_r].
  - rewrite filter_app, fmap_app, (filter_cons _ e), Houts.
    destruct (decide (JobExeRow.status e = Some "COMPLETED")); simpl;
      [done|by rewrite app_nil_r].
Qed.

Lemma loop_run l :
  StronglySorted by_job_then_id l →
  NoDup (JobExeRow.id <$> l) →
  inv l l (foldl body loop_start l).
Proof.
  intros Hs Hnd.
  assert (Hgen : ∀ rest pre vars,
    l = (pre ++ rest)%list → inv l pre vars → inv l l (foldl body vars rest)).
  { induction rest as [|e rest IH]; intros pre vars Hl Hinv.
    - rewrite app_nil_r in Hl. by subst pre.
    - simpl. apply (IH (pre ++ [e])%list).
      + by rewrite <- app_assoc.
      + by apply (loop_body_inv l pre e rest). }
  apply (Hgen l [] loop_start); [done|].
  unfold inv, loop_inv, loop_start. simpl. repeat split; try done.
  - intros (ids & H & _). by rewrite lookup_empty in H.
  - intros (x & H & _). by apply elem_of_nil in H.
Qed.

Lemma converted_id n row : JobExeRow.id (converted n row) = JobExeRow.id row.
Proof. done. Qed.

Lemma converted_job_id n row : JobExeRow.job_id (converted n row) = JobExeRow.job_id row.
Proof. done. Qed.

(** The updates of the transaction, when no id is filed under two numbers. *)
Lemma update_fold (dict : gmap Z (list Z)) (table : list JobExeRow.t) :
  (∀ n n' ids ids' i, dict !! n = Some ids → dict !! n' = Some ids' →
     i ∈ ids → i ∈ ids' → n = n') →
  let table' := map_fold (λ exe_num job_exe_ids rows,
                            update_where job_exe_ids (converted exe_num) rows)
                         table dict in
  length table' = length table ∧
  ∀ k row, table !! k = Some row →
    (∀ n ids, dict !! n = Some ids → JobExeRow.id row ∈ ids →
       table' !! k = Some (converted n row)) ∧
    ((∀ n ids, dict !! n = Some ids → JobExeRow.id row ∉ ids) →
       table' !! k = Some row).
Proof.
  simpl.
  apply (map_fold_weak_ind (λ table' dict,
    (∀ n n' ids ids' i, dict !! n = Some ids → dict !! n' = Some ids' →
       i ∈ ids → i ∈ ids' → n = n') →
    length table' = length table ∧
    ∀ k row, table !! k = Some row →
      (∀ n ids, dict !! n = Some ids → JobExeRow.id row ∈ ids →
         table' !! k = Some (converted n row)) ∧
      ((∀ n ids, dict !! n = Some ids → JobExeRow.id row ∉ ids) →
         table' !! k = Some row))).
  - intros _. split; [done|]. intros k row Hk. split; [|done].
    intros n ids H. by rewrite lookup_empty in H.
  - intros n ids m rows Hfresh IH Hfun.
    destruct IH as [Hlen IH].
    { intros n1 n2 ids1 ids2 i H1 H2. apply Hfun.
      - rewrite lookup_insert_ne; [done|]. intros <-. congruence.
      - rewrite lookup_insert_ne; [done|]. intros <-. congruence. }
    split; [unfold update_where; by rewrite length_map|].
    intros k row Hk. destruct (IH k row Hk) as [Hyes Hno].
    unfold update_where. rewrite list_lookup_fmap. split.
    + intros n' ids' Hl Hin. destruct (decide (n' = n)) as [->|Hne].
      * rewrite lookup_insert_eq in Hl. injection Hl as <-.
        rewrite Hno; [simpl; by rewrite decide_True|].
        intros n1 ids1 H1 Hin1.
        assert (n1 = n); [|congruence].
        apply (Hfun n1 n ids1 ids (JobExeRow.id row)); try done.
        -- rewrite lookup_insert_ne; [done|]. intros <-. congruence.
        -- by rewrite lookup_insert_eq.
      * rewrite lookup_insert_ne in Hl by done.
        rewrite (Hyes n' ids' Hl Hin). simpl. rewrite decide_False; [done|].
        intros Hin'. apply Hne.
        apply (Hfun n' n ids' ids (JobExeRow.id row)); try done.
        -- by rewrite lookup_insert_ne.
        -- by rewrite lookup_insert_eq.
    + intros Hnone. rewrite Hno.
      * simpl. rewrite decide_False; [done|].
        apply (Hnone n ids). by rewrite lookup_insert_eq.
      * intros n1 ids1 H1. apply (Hnone n1 ids1).
        rewrite lookup_insert_ne; [done|]. intros <-. congruence.
Qed.

Lemma rank_qry job_ids table row :
  JobExeRow.job_id row ∈ job_ids →
  rank (job_exe_qry job_ids table) row = rank table row.
Proof.
  intros Hj. unfold rank. do 2 f_equal. apply Permutation_length.
  rewrite job_exe_qry_perm, list_filter_filter.
  erewrite list_filter_iff; [done|]. intros x. split; [tauto|].
  intros [Hx ?]. split; [done|]. by rewrite Hx.
Qed.

Lemma iteration_table self page table :
  NoDup (JobExeRow.id <$> table) →
  job_exe_table (perform_update_iteration datetime_to_string TaskResults_get_dict
                   self page table)
  = (λ row, if decide (JobExeRow.job_id row ∈ page_job_ids page)
            then converted (rank table row) row else row) <$> table.
Proof.
  intros Hnd. unfold perform_update_iteration. simpl.
  set (job_ids := page_job_ids page). set (l := job_exe_qry job_ids table).
  destruct (loop_run l (job_exe_qry_sorted _ _) (job_exe_qry_nodup _ _ Hnd))
    as (_ & _ & _ & Hdict & _). fold body.
  set (dict := exe_num_dict (foldl body loop_start l)) in *.
  assert (Hfun : ∀ n n' ids ids' i, dict !! n = Some ids → dict !! n' = Some ids' →
                   i ∈ ids → i ∈ ids' → n = n').
  { intros n n' ids ids' i H1 H2 Hi Hi'.
    destruct (proj1 (Hdict n i)) as (x & Hx & Hix & Hnx); [by exists ids|].
    destruct (proj1 (Hdict n' i)) as (y & Hy & Hiy & Hny); [by exists ids'|].
    assert (x = y); [|congruence].
    apply job_exe_qry_elem in Hx as [Hx _]. apply job_exe_qry_elem in Hy as [Hy _].
    apply list_elem_of_lookup in Hx as [kx Hkx]. apply list_elem_of_lookup in Hy as [ky Hky].
    assert (kx = ky); [|congruence].
    eapply NoDup_lookup; [exact Hnd|..];
      rewrite list_lookup_fmap; [by rewrite Hkx|rewrite Hky; simpl; congruence]. }
  destruct (update_fold dict table Hfun) as [Hlen Hrows].
  apply list_eq. intros k. rewrite list_lookup_fmap.
  destruct (table !! k) as [row|] eqn:Hk; simpl.
  - destruct (Hrows k row Hk) as [Hyes Hno].
    destruct (decide (JobExeRow.job_id row ∈ job_ids)) as [Hj|Hj].
    + destruct (proj2 (Hdict (rank l row) (JobExeRow.id row))) as (ids & Hl & Hin).
      { exists row. split; [|done]. apply job_exe_qry_elem. split; [|done].
        by eapply list_elem_of_lookup_2. }
      rewrite (Hyes _ _ Hl Hin). unfold l. by rewrite rank_qry.
    + apply Hno. intros n ids Hl Hin.
      destruct (proj1 (Hdict n (JobExeRow.id row))) as (x & Hx & Hix & _); [by exists ids|].
      apply job_exe_qry_elem in Hx as [Hx Hjx].
      assert (x = row); [|congruence].
      apply list_elem_of_lookup in Hx as [kx Hkx].
      assert (kx = k); [|congruence].
      eapply NoDup_lookup; [exact Hnd|..];
        rewrite list_lookup_fmap; [by rewrite Hkx|rewrite Hk; simpl; congruence].
  - apply lookup_ge_None. rewrite Hlen. by apply lookup_ge_None.
Qed.

Lemma iteration_models self page table :
  NoDup (JobExeRow.id <$> table) →
  let it := perform_update_iteration datetime_to_string TaskResults_get_dict
              self page table in
  let job_exes := job_exe_qry (page_job_ids page) table in
  created_ends it
  = (λ row, end_of (rank table row) row) <$> filter has_final_status job_exes ∧
  created_outputs it
  = (λ row, output_model (rank table row) row)
      <$> filter (λ row, JobExeRow.status row = Some "COMPLETED") job_exes ∧
  _updated_job_exe (updater it)
  = _updated_job_exe self
    + Z.of_nat (length (filter (λ row, JobExeRow.job_id row ∈ page_job_ids page) table)) ∧
  StronglySorted by_job_then_id job_exes ∧
  (∀ row, row ∈ job_exes ↔ row ∈ table ∧ JobExeRow.job_id row ∈ page_job_ids page).
Proof.
  intros Hnd. simpl. unfold perform_update_iteration. simpl.
  set (job_ids := page_job_ids page). set (l := job_exe_qry job_ids table).
  destruct (loop_run l (job_exe_qry_sorted _ _) (job_exe_qry_nodup _ _ Hnd))
    as (Hcount & _ & _ & _ & Hends & Houts). fold body.
  rewrite Hends, Houts, Hcount.
  split; [|split; [|split; [|split]]].
  - apply list_fmap_ext. intros k x Hk.
    apply list_elem_of_lookup_2, list_elem_of_filter in Hk as [_ Hx].
    apply job_exe_qry_elem in Hx as [_ Hj]. unfold l. by rewrite rank_qry.
  - apply list_fmap_ext. intros k x Hk.
    apply list_elem_of_lookup_2, list_elem_of_filter in Hk as [_ Hx].
    apply job_exe_qry_elem in Hx as [_ Hj]. unfold l. by rewrite rank_qry.
  - do 2 f_equal. apply Permutation_length, job_exe_qry_perm.
  - apply job_exe_qry_sorted.
  - intros row. apply job_exe_qry_elem.
Qed.

(** X24: one iteration of the updater numbers the executions of the jobs of
    its page: each such row gets as [exe_num] its rank by id among the rows
    of its job and loses the old columns; the rows of other jobs, and the
    order and number of rows, are unchanged. *)
Theorem iteration_numbers_by_rank self page table :
  NoDup (JobExeRow.id <$> table) →
  job_exe_table (perform_update_iteration datetime_to_string TaskResults_get_dict
                   self page table)
  = (λ row, if decide (JobExeRow.job_id row ∈ page_job_ids page)
            then converted (rank table row) row else row) <$> table.
Proof. apply iteration_table. Qed.

(** X25: the models one iteration hands to [bulk_create] are, in the order
    of job id and id, one [JobExecutionEnd] for each execution of the page's
    jobs whose status is COMPLETED, FAILED or CANCELED and one
    [JobExecutionOutput] for each COMPLETED one, each with the rank of the
    execution as [exe_num]; the counter of the updater grows by the number
    of executions of those jobs. *)
Theorem iteration_creates_models self page table :
  NoDup (JobExeRow.id <$> table) →
  let it := perform_update_iteration datetime_to_string TaskResults_get_dict
              self page table in
  let job_exes := job_exe_qry (page_job_ids page) table in
  created_ends it
  = (λ row, end_of (rank table row) row) <$> filter has_final_status job_exes ∧
  created_outputs it
  = (λ row, output_model (rank table row) row)
      <$> filter (λ row, JobExeRow.status row = Some "COMPLETED") job_exes ∧
  _updated_job_exe (updater it)
  = _updated_job_exe self
    + Z.of_nat (length (filter (λ row, JobExeRow.job_id row ∈ page_job_ids page) table)) ∧
  StronglySorted by_job_then_id job_exes ∧
  (∀ row, row ∈ job_exes ↔ row ∈ table ∧ JobExeRow.job_id row ∈ page_job_ids page).
Proof. apply iteration_models. Qed.

Lemma unconverted_after (job_ids : gset Z) table (number : JobExeRow.t → Z) :
  unconverted ((λ row, if decide (JobExeRow.job_id row ∈ job_ids)
                       then converted (number row) row else row) <$> table)
  = filter (λ row, JobExeRow.status row ≠ None ∧ JobExeRow.job_id row ∉ job_ids) table.
Proof.
  unfold unconverted. induction table as [|x table IH]; [done|].
  rewrite fmap_cons, !filter_cons, IH.
  destruct (decide (JobExeRow.job_id x ∈ job_ids)) as [Hj|Hj].
  - rewrite decide_False by (simpl; congruence).
    by rewrite decide_False by tauto.
  - destruct (decide (JobExeRow.status x ≠ None)) as [Hs|Hs].
    + by rewrite decide_True by done.
    + by rewrite decide_False by tauto.
Qed.

Lemma unconverted_parts (job_ids : gset Z) table :
  length (unconverted table)
  = (length (filter (λ row, JobExeRow.status row ≠ None ∧ JobExeRow.job_id row ∉ job_ids)
                    table)
     + length (filter (λ row, JobExeRow.status row ≠ None ∧ JobExeRow.job_id row ∈ job_ids)
                      table))%nat.
Proof.
  unfold unconverted. induction table as [|x table IH]; [done|].
  rewrite !filter_cons.
  repeat case_decide; try tauto; simpl; rewrite IH; lia.
Qed.

(** X26: after an iteration no execution of the page's jobs has a status,
    no other row has changed its status, and the number of rows still to
    convert has dropped by at least the size of the page. *)
Theorem iteration_progress self page table :
  NoDup (JobExeRow.id <$> table) →
  NoDup page →
  (∀ row, row ∈ page → row ∈ unconverted table) →
  let table' := job_exe_table (perform_update_iteration datetime_to_string
                                 TaskResults_get_dict self page table) in
  (∀ row, row ∈ table' → JobExeRow.job_id row ∈ page_job_ids page →
     JobExeRow.status row = None) ∧
  (∀ row, row ∈ unconverted table' →
     row ∈ unconverted table ∧ JobExeRow.job_id row ∉ page_job_ids page) ∧
  (length (unconverted table') + length page ≤ length (unconverted table))%nat.
Proof.
  intros Hnd Hpage Hsub. cbv zeta. rewrite iteration_table by done.
  split; [|split].
  - intros row Hrow Hj. apply list_elem_of_fmap in Hrow as (x & -> & Hx).
    destruct (decide (JobExeRow.job_id x ∈ page_job_ids page)) as [Hjx|Hjx]; [done|].
    by destruct Hjx.
  - intros row. rewrite unconverted_after. unfold unconverted.
    rewrite !list_elem_of_filter. tauto.
  - rewrite unconverted_after, (unconverted_parts (page_job_ids page) table).
    apply Nat.add_le_mono_l. apply submseteq_length, NoDup_submseteq; [done|].
    intros row Hrow. specialize (Hsub row Hrow). unfold unconverted in Hsub.
    apply list_elem_of_filter in Hsub as [Hs Hin].
    apply list_elem_of_filter. split; [|done]. split; [done|].
    apply page_job_ids_spec. by exists row.
Qed.

Lemma rank_fmap (f : JobExeRow.t → JobExeRow.t) table row :
  (∀ x, JobExeRow.id (f x) = JobExeRow.id x) →
  (∀ x, JobExeRow.job_id (f x) = JobExeRow.job_id x) →
  rank (f <$> table) (f row) = rank table row.
Proof.
  intros Hid Hjob. unfold rank. rewrite (Hid row), (Hjob row). do 2 f_equal.
  induction table as [|x table IH]; [done|].
  rewrite fmap_cons, !filter_cons, (Hid x), (Hjob x).
  destruct (decide _); simpl; by rewrite IH.
Qed.

Lemma converted_twice n m row : converted n (converted m row) = converted n row.
Proof. done. Qed.

End UpdaterFacts.

(** ** The further properties on the sample data *)

Lemma sample_rows_keyed : rows_keyed (job_rows (db sample_state)).
Proof.
  intros i row H. simpl in H.
  rewrite !lookup_insert_Some, lookup_singleton_Some in H.
  by destruct H as [[<- <-]|[_ [[<- <-]|[_ [<- <-]]]]].
Defined.

Lemma sample_store_keeps : store_keeps error_iff_failed sample_state.
Proof.
  intros r j H. simpl in H.
  rewrite !lookup_insert_Some, lookup_singleton_Some in H.
  destruct H as [[<- <-]|[_ [[<- <-]|[_ [<- <-]]]]];
    (split; [discriminate|by intros [? [=]]]).
Defined.

Lemma sample_exe_rows_nodup : NoDup (JobExeRow.id <$> sample_exe_rows).
Proof.
  simpl. repeat (apply NoDup_cons; split; [set_solver|]). apply NoDup_nil_2.
Defined.

Lemma subtract_sufficient_nonneg_witness :
  ∃ v, NodeResources.subtract vector_A vector_A !! "disk" = Some v ∧ (0 <= v)%Q.
Proof.
  assert (H1 : NodeResources.is_sufficient_to_meet vector_A vector_A = true)
    by (vm_compute; reflexivity).
  assert (H2 : ∀ name a, vector_A !! name = Some a → (0 <= a)%Q).
  { intros name a H. unfold vector_A in H.
    rewrite !lookup_insert_Some, lookup_singleton_Some in H.
    destruct H as [[_ <-]|[_ [[_ <-]|[_ [_ <-]]]]]; by vm_compute. }
  destruct (NodeResources.subtract vector_A vector_A !! "disk") as [v|] eqn:Hv;
    [|vm_compute in Hv; discriminate].
  exists v. split; [reflexivity|].
  exact (subtract_sufficient_nonneg vector_A vector_A H1 H2 "disk" v Hv).
Defined.

Lemma update_jobs_to_canceled_spec_witness :
  ∃ st', JobManager_update_jobs_to_canceled 60 [1; 2] 70 sample_state = (Ok tt, st').
Proof.
  destruct (update_jobs_to_canceled_spec 60 [1; 2] 70 sample_state sample_rows_keyed)
    as (st' & Hrun & _).
  by exists st'.
Defined.

Lemma increment_max_tries_spec_witness :
  ∃ st', JobManager_increment_max_tries 60 [0; 1; 2]%nat sample_state = (Ok tt, st').
Proof.
  destruct (increment_max_tries_spec 60 [0; 1; 2]%nat sample_state sample_refs_valid)
    as (st' & Hrun & _).
  by exists st'.
Defined.

Lemma error_iff_failed_kept_witness :
  store_keeps error_iff_failed
    (JobManager.update_status 60 [0; 1; 2]%nat "RUNNING" 70 None sample_state).2.
Proof.
  apply (proj1 (error_iff_failed_kept [0; 1; 2]%nat sample_state
                  sample_store_keeps sample_refs_valid)
           60 "RUNNING" 70 None).
  vm_compute. reflexivity.
Defined.

Lemma superseded_never_queued_witness :
  ∃ st',
    JobManager.supersede_jobs 60 [0; 1; 2]%nat 70 sample_state = (Ok tt, st') ∧
    JobManager.queue_jobs [0]%nat 80 None st' = (Ok [], st').
Proof.
  destruct (superseded_never_queued 60 [0; 1; 2]%nat 70 sample_state sample_refs_valid)
    as (st' & Hrun & Hqueue).
  exists st'. split; [exact Hrun|]. apply Hqueue. set_solver.
Defined.

Lemma failed_job_can_be_queued_again_witness :
  ∃ st1 st2 j2,
    JobManager.fail_job 60 0%nat 70 (Some sample_error) sample_state = (Ok tt, st1) ∧
    JobManager.queue_jobs [0%nat] 80 None st1 = (Ok [0%nat], st2) ∧
    job_objs st2 !! 0%nat = Some j2 ∧
    Job.status j2 = "QUEUED" ∧ Job.error j2 = None ∧ Job.ended j2 = None ∧
    Job.num_exes j2 = Job.num_exes job_1 + 1.
Proof.
  apply (failed_job_can_be_queued_again 60 0%nat 70 (Some sample_error) 80 None
           sample_state job_1); [reflexivity|discriminate|reflexivity].
Defined.

Lemma populate_job_data_whole_numbers_witness :
  ∃ st' j' mib,
    JobManager.populate_job_data (λ _ _, Ok tt) 60 0%nat sample_job_data sample_state
    = (Ok tt, st') ∧
    job_objs st' !! 0%nat = Some j' ∧
    Job.disk_in_required j' = Some (inject_Z mib) ∧
    Job.disk_out_required j' = Some (inject_Z (Z.max (1 * mib + 64) 0)).
Proof.
  pose proof (populate_job_data_whole_numbers (λ _ _, Ok tt) 60 0%nat sample_job_data
                sample_state job_1 sample_job_type sample_rev 1 64
                eq_refl eq_refl eq_refl eq_refl eq_refl) as H.
  cbv zeta in H. destruct H as [_ H].
  destruct (H eq_refl) as (st' & j' & mib & Hrun & Hj & _ & _ & Hin & Hout & _).
  { vm_compute. split; discriminate. }
  { lia. }
  { lia. }
  exists st', j', mib. split; [exact Hrun|]. split; [exact Hj|]. split; [exact Hin|].
  exact Hout.
Defined.

Lemma update_status_times_witness :
  ∃ j',
    job_objs (JobManager.update_status 60 [0%nat] "RUNNING" 70 None sample_state).2
      !! 0%nat = Some j' ∧
    Job.status j' = "RUNNING" ∧ Job.started j' = Some 70 ∧ Job.ended j' = None.
Proof.
  assert (Hvalid : ∀ r, r ∈ [0%nat] → is_Some (job_objs sample_state !! r)).
  { intros r Hr. apply sample_refs_valid. set_solver. }
  assert (Hrun : JobManager.update_status 60 [0%nat] "RUNNING" 70 None sample_state
                 = (Ok tt, (JobManager.update_status 60 [0%nat] "RUNNING" 70 None
                              sample_state).2))
    by (vm_compute; reflexivity).
  destruct (update_status_times 60 [0%nat] "RUNNING" 70 None sample_state _ Hvalid Hrun)
    as (Hjobs & _).
  destruct (Hjobs 0%nat job_1) as (j' & Hj & Hstatus & _ & _ & Hstarted & Hended & _);
    [set_solver|reflexivity|].
  exists j'. split; [exact Hj|]. split; [exact Hstatus|]. split; [exact Hstarted|].
  exact Hended.
Defined.

Lemma get_error_cached_for_good_witness :
  ∃ error cache',
    ErrorManager.get_error "timeout" sample_errors ∅ = (Ok error, cache') ∧
    ErrorManager.get_error "timeout" [] cache' = (Ok error, cache').
Proof.
  assert (Hrun : ErrorManager.get_error "timeout" sample_errors ∅
                 = (Ok (ErrorModel.mk 2 "timeout" (Some "Timed out") None "SYSTEM"
                          true true 1 1),
                    (ErrorManager.get_error "timeout" sample_errors ∅).2))
    by (vm_compute; reflexivity).
  eexists _, _. split; [exact Hrun|].
  apply (get_error_cached_for_good _ _ _ _ _ Hrun).
Defined.

Lemma cache_named_kept_witness :
  ErrorManager.cache_named (ErrorManager.cache_builtin_errors sample_errors ∅).
Proof.
  apply (cache_named_kept "unknown" sample_errors ∅).
  intros name error H. by rewrite lookup_empty in H.
Defined.

Lemma parse_cluster_id_of_task_witness :
  parse_cluster_id (set_cluster_id "scale_job" "fw-7" 12 3 ++ "_" ++ "pre")
  = set_cluster_id "scale_job" "fw-7" 12 3.
Proof. apply (parse_cluster_id_of_task "scale_job" "fw-7" 12 3 "pre"). reflexivity. Defined.

Lemma parse_cluster_id_old_style_witness :
  parse_cluster_id (get_cluster_id None 5 ++ "_" ++ "pre")
  = get_cluster_id None 5 ++ "_" ++ "pre".
Proof.
  apply (parse_cluster_id_old_style None 5 "pre"); [by left|].
  simpl. intros H.
  repeat (apply elem_of_cons in H as [H|H]; [discriminate|]). by apply elem_of_nil in H.
Defined.

Lemma iteration_numbers_by_rank_witness :
  DatabaseUpdater.job_exe_table
    (DatabaseUpdater.perform_update_iteration fmt_d (λ _, []) sample_updater
       sample_page sample_exe_rows)
  = (λ row, if decide (JobExeRow.job_id row ∈ DatabaseUpdater.page_job_ids sample_page)
            then DatabaseUpdater.converted (DatabaseUpdater.rank sample_exe_rows row) row
            else row) <$> sample_exe_rows.
Proof. apply iteration_numbers_by_rank, sample_exe_rows_nodup. Defined.

Lemma iteration_creates_models_witness :
  DatabaseUpdater.created_ends
    (DatabaseUpdater.perform_update_iteration fmt_d (λ _, []) sample_updater
       sample_page sample_exe_rows)
  = (λ row, DatabaseUpdater.end_model fmt_d (λ _, [])
              (DatabaseUpdater.rank sample_exe_rows row) row)
      <$> filter DatabaseUpdater.has_final_status
            (DatabaseUpdater.job_exe_qry (DatabaseUpdater.page_job_ids sample_page)
               sample_exe_rows).
Proof.
  apply (iteration_creates_models fmt_d (λ _, []) sample_updater sample_page
           sample_exe_rows sample_exe_rows_nodup).
Defined.

Lemma iteration_progress_witness :
  (length (DatabaseUpdater.unconverted
             (DatabaseUpdater.job_exe_table
                (DatabaseUpdater.perform_update_iteration fmt_d (λ _, []) sample_updater
                   sample_page sample_exe_rows)))
   + length sample_page
   ≤ length (DatabaseUpdater.unconverted sample_exe_rows))%nat.
Proof.
  apply (iteration_progress fmt_d (λ _, []) sample_updater sample_page sample_exe_rows
           sample_exe_rows_nodup).
  - apply NoDup_singleton.
  - intros row Hrow. apply list_elem_of_singleton in Hrow as ->.
    apply list_elem_of_filter. split; [discriminate|]. right. by left.
Defined.

